(** * The table-driven review pipeline of zotero-AI-Butler

    A shallow embedding of [src/modules/literatureReviewService.ts]:
    the table cache ([findTableNote], [saveTableNote]), the aggregator
    ([aggregateTableContents]), the parallel fill scheduler
    ([fillTablesInParallel]), the citation resolver
    ([postProcessCitations]), the table extractor
    ([fillTableForSinglePDF], [arrayBufferToBase64]), the report
    attachments ([attachPdfsToReport]) and the synthesis over several
    PDFs ([generateSummaryFromMultiplePDFs]); and of the MinerU client of
    [src/modules/mineruIntegration.ts].

    JavaScript strings are sequences of UTF-16 code units; they are
    modelled as [list N].  Every regular expression of the source is
    unfolded into the deterministic matcher it denotes, next to the
    source text of the expression. *)

From Stdlib Require Import ZArith NArith List String Ascii Bool Lia.
From Stdlib Require Import DecimalString DecimalNat PrimFloat.
From stdpp Require Import base option list gmap.

Local Open Scope N_scope.

(* ================================================================== *)
(** ** JavaScript strings *)
(* ================================================================== *)

Module JS.

Abbreviation jsstring := (list N).

(** An ASCII literal of the source as code units. *)
Definition lit (s : string) : jsstring :=
  map N_of_ascii (list_ascii_of_string s).

(** [\s] of a regular expression, which is also what [String.prototype.trim]
    strips: white space and line terminators. *)
Definition is_ws (c : N) : bool :=
  ((9 <=? c) && (c <=? 13)) || (c =? 32) || (c =? 160) || (c =? 5760)
  || ((8192 <=? c) && (c <=? 8202)) || (c =? 8232) || (c =? 8233)
  || (c =? 8239) || (c =? 8287) || (c =? 12288) || (c =? 65279).

(** [\d], [[a-z]], [[A-Z]] and the word characters of [\b]. *)
Definition is_digit (c : N) : bool := (48 <=? c) && (c <=? 57).
Definition is_lower (c : N) : bool := (97 <=? c) && (c <=? 122).
Definition is_upper (c : N) : bool := (65 <=? c) && (c <=? 90).
Definition is_word (c : N) : bool :=
  is_lower c || is_upper c || is_digit c || (c =? 95).

(** A string is truthy when it is not empty ([x || null], [if (x)]). *)
Definition truthy (s : jsstring) : bool :=
  match s with [] => false | _ => true end.

Definition or_null (s : jsstring) : option jsstring :=
  if truthy s then Some s else None.

(** [a || b] on strings. *)
Definition or_else (a b : jsstring) : jsstring := if truthy a then a else b.

Fixpoint trimStart (s : jsstring) : jsstring :=
  match s with
  | [] => []
  | c :: s' => if is_ws c then trimStart s' else s
  end.

Definition trimEnd (s : jsstring) : jsstring := rev (trimStart (rev s)).

Definition trim (s : jsstring) : jsstring := trimEnd (trimStart s).

(** [s.startsWith(p)]. *)
Fixpoint startsWith (p s : jsstring) : bool :=
  match p, s with
  | [], _ => true
  | _ :: _, [] => false
  | a :: p', b :: s' => (a =? b) && startsWith p' s'
  end.

(** [s.includes(p)]. *)
Fixpoint includes (p s : jsstring) : bool :=
  startsWith p s || match s with [] => false | _ :: s' => includes p s' end.

(** [s.split(sep)] for a one-unit separator; never the empty list. *)
Fixpoint split_on (sep : N) (s : jsstring) : list jsstring :=
  match s with
  | [] => [[]]
  | c :: s' =>
      if c =? sep then [] :: split_on sep s'
      else match split_on sep s' with
           | l :: ls => (c :: l) :: ls
           | [] => [[c]]
           end
  end.

(** [l.join(sep)]. *)
Fixpoint join (sep : jsstring) (l : list jsstring) : jsstring :=
  match l with
  | [] => []
  | [x] => x
  | x :: xs => x ++ sep ++ join sep xs
  end.

(** [s.split(/\s+/)]: the pieces between maximal runs of white space
    (an empty first or last piece when the string starts or ends with
    one). [in_sep] says that the previous unit was white space. *)
Fixpoint split_ws_from (in_sep : bool) (s : jsstring) : list jsstring :=
  match s with
  | [] => [[]]
  | c :: s' =>
      if is_ws c then
        if in_sep then split_ws_from true s' else [] :: split_ws_from true s'
      else match split_ws_from false s' with
           | l :: ls => (c :: l) :: ls
           | [] => [[c]]
           end
  end.

Definition split_ws (s : jsstring) : list jsstring := split_ws_from false s.

(** [parts[parts.length - 1]] of a non-empty array. *)
Definition last_part (parts : list jsstring) : jsstring := List.last parts [].

(** [String(n)] for a non-negative integer. *)
Definition of_nat (n : nat) : jsstring :=
  lit (NilEmpty.string_of_uint (Nat.to_uint n)).

(** *** Global replacement

    [s.replace(/re/g, f)] scans [s] from the left.  A matcher [m] gets the
    code unit before the current position (for look-behind and [\b]) and the
    rest of the input; it answers with the length of the match (at least
    one unit for every expression of this file) and its replacement.
    After a match the scan resumes behind it: [skip] counts the units of
    the match that are still to be passed over. *)
Section Replace.
Variable m : option N -> jsstring -> option (nat * jsstring).

Fixpoint replace_from (prev : option N) (skip : nat) (s : jsstring)
  : jsstring :=
  match s with
  | [] => []
  | c :: s' =>
      match skip with
      | S k => replace_from (Some c) k s'
      | O =>
          match m prev s with
          | Some (len, rep) => rep ++ replace_from (Some c) (Nat.pred len) s'
          | None => c :: replace_from (Some c) 0 s'
          end
      end
  end.

Definition replace_g (s : jsstring) : jsstring := replace_from None 0 s.
End Replace.

(** [/lit/g] for a literal pattern, replaced by a constant. *)
Definition m_lit (pat rep : jsstring) : option N -> jsstring -> option (nat * jsstring) :=
  fun _ s => if startsWith pat s then Some (length pat, rep) else None.

Definition replace_lit (pat rep : jsstring) : jsstring -> jsstring :=
  replace_g (m_lit pat rep).

(** The position of the first [c] in [s]: the units before it and after it. *)
Fixpoint break_at (c : N) (s : jsstring) : option (jsstring * jsstring) :=
  match s with
  | [] => None
  | x :: s' =>
      if x =? c then Some ([], s')
      else match break_at c s' with
           | Some (a, b) => Some (x :: a, b)
           | None => None
           end
  end.

(** [s] without the digits that it starts with. *)
Fixpoint dropWhileDigits (s : jsstring) : jsstring :=
  match s with
  | c :: s' => if is_digit c then dropWhileDigits s' else s
  | [] => []
  end.

(** The first run of four digits, [s.match(/(\d{4})/)]. *)
Definition four_digits (s : jsstring) : option jsstring :=
  match s with
  | a :: b :: c :: d :: _ =>
      if is_digit a && is_digit b && is_digit c && is_digit d
      then Some [a; b; c; d] else None
  | _ => None
  end.

Fixpoint match_year (s : jsstring) : option jsstring :=
  match four_digits s with
  | Some y => Some y
  | None => match s with [] => None | _ :: s' => match_year s' end
  end.

End JS.

Import JS.

(* ================================================================== *)
(** ** The item store *)
(* ================================================================== *)

(** What the pipeline reads of a Zotero item.  A field that is missing and
    a field that is the empty string are both falsy, and the source only
    ever tests them for truthiness, so both are the empty list here. *)
Record Creator := mkCreator {
  lastName : jsstring;
  name : jsstring
}.

Record Item := mkItem {
  item_id : Z;
  item_key : jsstring;
  item_title : jsstring;   (* getField("title") *)
  item_date : jsstring;    (* getField("date") *)
  item_creators : list Creator
}.

Record Note := mkNote {
  note_tags : list jsstring;
  note_html : jsstring
}.

(** The child notes of every item, oldest first: [getNotes()] gives the
    ids and [Zotero.Items.getAsync] resolves each one, possibly to nothing. *)
Abbreviation Store := (gmap Z (list (option Note))).

Definition getNotes (st : Store) (item : Item) : list (option Note) :=
  default [] (st !! item_id item).

(** [note.saveTx()] of a new child note of [item]. *)
Definition saveTx (st : Store) (item : Item) (n : Note) : Store :=
  <[item_id item := getNotes st item ++ [Some n]]> st.

(* ================================================================== *)
(** ** TableCache: findTableNote and saveTableNote *)
(* ================================================================== *)

Module Cache.

Definition TABLE_NOTE_TAG : jsstring := Eval vm_compute in lit "AI-Table".

Definition quot : N := 34.

Definition s_amp : jsstring := Eval vm_compute in lit "&".
Definition s_lt : jsstring := Eval vm_compute in lit "<".
Definition s_gt : jsstring := Eval vm_compute in lit ">".
Definition e_amp : jsstring := Eval vm_compute in lit "&amp;".
Definition e_lt : jsstring := Eval vm_compute in lit "&lt;".
Definition e_gt : jsstring := Eval vm_compute in lit "&gt;".
Definition e_quot : jsstring := Eval vm_compute in lit "&quot;".

Definition raw_attr : jsstring := Eval vm_compute in lit "data-ai-table-raw".
Definition open_div : jsstring := Eval vm_compute in lit "<div".
Definition open_pre : jsstring := Eval vm_compute in lit "<pre".
Definition close_div : jsstring := Eval vm_compute in lit "</div>".
Definition close_pre : jsstring := Eval vm_compute in lit "</pre>".

Definition hasTableTag (n : Note) : bool :=
  existsb (fun t => bool_decide (t = TABLE_NOTE_TAG)) (note_tags n).

(** [([\s\S]*?)<\/(?:div|pre)>]: the shortest text before a closing tag. *)
Fixpoint capture_until_close (s : jsstring) : option jsstring :=
  if startsWith close_div s || startsWith close_pre s then Some []
  else match s with
       | [] => None
       | c :: s' => option_map (cons c) (capture_until_close s')
       end.

(** [/<(?:div|pre)[^>]*data-ai-table-raw[^>]*>([\s\S]*?)<\/(?:div|pre)>/]
    tried at the start of [s]; the answer is group 1.  Neither [[^>]*] can
    pass a [>], so the opening tag ends at the first [>] and the attribute
    has to occur before it. *)
Definition raw_match_here (s : jsstring) : option jsstring :=
  if startsWith open_div s || startsWith open_pre s then
    match break_at 62 (drop 4 s) with
    | Some (attrs, body) =>
        if includes raw_attr attrs then capture_until_close body else None
    | None => None
    end
  else None.

(** [noteContent.match(...)]: the leftmost position where it matches. *)
Fixpoint raw_match (s : jsstring) : option jsstring :=
  match raw_match_here s with
  | Some cap => Some cap
  | None => match s with [] => None | _ :: s' => raw_match s' end
  end.

(** The four entity replacements and the trim of lines 249-254. *)
Definition unescapeRaw (s : jsstring) : jsstring :=
  trim (replace_lit e_quot [quot]
         (replace_lit e_gt s_gt
           (replace_lit e_lt s_lt
             (replace_lit e_amp s_amp s)))).

(** [/<[^>]*>/g]: from a [<] to the next [>]. *)
Definition m_tag : option N -> jsstring -> option (nat * jsstring) :=
  fun _ s =>
    match s with
    | 60 :: s' =>
        match break_at 62 s' with
        | Some (inside, _) => Some (S (S (length inside)), [])
        | None => None
        end
    | _ => None
    end.

Definition stripTags (s : jsstring) : jsstring := replace_g m_tag s.

(** The body of [if (hasTableTag)]: what a tagged note yields. *)
Definition readTableNote (noteContent : jsstring) : option jsstring :=
  let legacy := or_null (trim (stripTags noteContent)) in
  match raw_match noteContent with
  | Some cap => if truthy cap then or_null (unescapeRaw cap) else legacy
  | None => legacy
  end.

(** The loop over the note ids: the first tagged note decides.  No call of
    this model throws, so the [catch] of the source is never entered. *)
Fixpoint findIn (notes : list (option Note)) : option jsstring :=
  match notes with
  | [] => None
  | None :: rest => findIn rest
  | Some n :: rest =>
      if hasTableTag n then readTableNote (note_html n) else findIn rest
  end.

Definition findTableNote (st : Store) (item : Item) : option jsstring :=
  findIn (getNotes st item).

(** The loop of [saveTableNote] that returns the note already there. *)
Fixpoint firstTagged (notes : list (option Note)) : option Note :=
  match notes with
  | [] => None
  | None :: rest => firstTagged rest
  | Some n :: rest => if hasTableTag n then Some n else firstTagged rest
  end.

Definition s_unknown : jsstring := [26410; 30693].
Definition s_heading : jsstring :=
  [55357; 56522; 32; 25991; 29486; 34920; 26684; 32; 45; 32].

(** [/\s+style=Q[^Q]*Q/g] where Q is the double quote: white space, the
    attribute name and its quoted value, deleted. *)
Definition s_style : jsstring := Eval vm_compute in lit "style=" ++ [quot].

Definition m_style : option N -> jsstring -> option (nat * jsstring) :=
  fun _ s =>
    let rest := trimStart s in
    let nws := (length s - length rest)%nat in
    if (0 <? nws)%nat && startsWith s_style rest then
      match break_at quot (drop (length s_style) rest) with
      | Some (value, _) =>
          Some ((nws + length s_style + length value + 1)%nat, [])
      | None => None
      end
    else None.

Definition span_open : jsstring :=
  Eval vm_compute in lit "<span class=" ++ [quot] ++ lit "math" ++ [quot] ++ lit ">$".
Definition span_close : jsstring := Eval vm_compute in lit "$</span>".
Definition s_displaystyle : jsstring := Eval vm_compute in lit "\displaystyle ".
Definition s_dollars : jsstring := Eval vm_compute in lit "$$".

(** The shortest text before the next [$$]. *)
Fixpoint until_dollars (s : jsstring) : option jsstring :=
  if startsWith s_dollars s then Some []
  else match s with
       | [] => None
       | c :: s' => option_map (cons c) (until_dollars s')
       end.

(** [/\$\$([\s\S]*?)\$\$/g]. *)
Definition m_block_math : option N -> jsstring -> option (nat * jsstring) :=
  fun _ s =>
    if startsWith s_dollars s then
      match until_dollars (drop 2 s) with
      | Some formula =>
          Some ((length formula + 4)%nat,
                span_open ++ s_displaystyle ++ trim formula ++ span_close)
      | None => None
      end
    else None.

(** [/(?<!\$)\$(?!\$)([^$\n]+?)(?<!\$)\$(?!\$)/g]: a lone [$], at least
    one unit that is neither [$] nor a line feed, and a lone [$]. *)
Definition m_inline_math : option N -> jsstring -> option (nat * jsstring) :=
  fun prev s =>
    match s with
    | 36 :: s' =>
        if bool_decide (prev = Some 36) then None
        else match break_at 36 s' with
             | Some (formula, after) =>
                 if truthy formula
                    && negb (existsb (N.eqb 10) formula)
                    && negb (startsWith [36] after)
                 then Some ((length formula + 2)%nat,
                            span_open ++ trim formula ++ span_close)
                 else None
             | None => None
             end
    | _ => None
    end.

Section Save.
(** [marked.parse] with [gfm] and [breaks], an external library. *)
Variable marked_parse : jsstring -> jsstring.

(** Lines 305-321: the display form of the table. *)
Definition renderedHtml (tableContent : jsstring) : jsstring :=
  replace_g m_inline_math
    (replace_g m_block_math
      (replace_g m_style (marked_parse tableContent))).

(** Lines 324-327. *)
Definition escapedRaw (tableContent : jsstring) : jsstring :=
  replace_lit s_gt e_gt
    (replace_lit s_lt e_lt
      (replace_lit s_amp e_amp tableContent)).

Definition itemTitle (item : Item) : jsstring :=
  take 60 (or_else (item_title item) s_unknown).

Definition raw_div_open : jsstring :=
  Eval vm_compute in
    lit "<div style=" ++ [quot] ++ lit "display:none" ++ [quot]
    ++ lit " data-ai-table-raw>".

Definition noteHtml (item : Item) (tableContent : jsstring) : jsstring :=
  (lit "<h2>" ++ s_heading ++ itemTitle item ++ lit "</h2>")
  ++ (lit "<div>" ++ renderedHtml tableContent ++ lit "</div>")
  ++ (raw_div_open ++ escapedRaw tableContent ++ lit "</div>").

Definition newTableNote (item : Item) (tableContent : jsstring) : Note :=
  {| note_tags := [TABLE_NOTE_TAG]; note_html := noteHtml item tableContent |}.

(** Lines 296-340: build the note and save it under [item]. *)
Definition createTableNote (st : Store) (item : Item) (tableContent : jsstring)
  : Note * Store :=
  let note := newTableNote item tableContent in
  (note, saveTx st item note).

(** [saveTableNote], run without interruption. *)
Definition saveTableNote (st : Store) (item : Item) (tableContent : jsstring)
  : Note * Store :=
  match findTableNote st item with
  | Some existingContent =>
      if truthy existingContent then
        match firstTagged (getNotes st item) with
        | Some note => (note, st)
        | None => createTableNote st item tableContent
        end
      else createTableNote st item tableContent
  | None => createTableNote st item tableContent
  end.
End Save.

End Cache.

(* ================================================================== *)
(** ** JavaScript maps keyed by item id *)
(* ================================================================== *)

(** A [Map<number, string>] iterates in the order in which its keys were
    first set; [set] on a key that is there replaces the value in place. *)
Module JsMap.

Abbreviation t := (list (Z * jsstring)).

Fixpoint set (k : Z) (v : jsstring) (m : t) : t :=
  match m with
  | [] => [(k, v)]
  | (k', v') :: m' =>
      if Z.eqb k' k then (k, v) :: m' else (k', v') :: set k v m'
  end.

Fixpoint get (k : Z) (m : t) : option jsstring :=
  match m with
  | [] => None
  | (k', v') :: m' => if Z.eqb k' k then Some v' else get k m'
  end.

End JsMap.

Record Attachment := mkAttachment {
  att_id : Z
}.

(** An element of [itemPdfPairs]. *)
Record Pair := mkPair {
  parentItem : Item;
  pdfAttachment : Attachment
}.

(* ================================================================== *)
(** ** Aggregator: aggregateTableContents *)
(* ================================================================== *)

Module Aggregate.

Definition nl : jsstring := [10].
Definition pipe : N := 124.

(** [[\s\-:|]]. *)
Definition sep_unit (c : N) : bool :=
  is_ws c || (c =? 45) || (c =? 58) || (c =? pipe).

(** [/^\|[\s\-:|]+\|$/.test(trimmed)]: a pipe, at least one unit of the
    class, a pipe, and nothing else. *)
Definition is_separator (trimmed : jsstring) : bool :=
  match trimmed with
  | 124 :: rest =>
      match rev rest with
      | 124 :: mid => truthy mid && forallb sep_unit mid
      | _ => false
      end
  | _ => false
  end.

Record Scan := mkScan {
  headerLines : list jsstring;
  dataLines : list jsstring;
  nonTableLines : list jsstring;
  headerDone : bool
}.

(** One turn of the loop over the lines. *)
Definition scan_line (a : Scan) (line : jsstring) : Scan :=
  let trimmed := trim line in
  if negb (truthy trimmed) then a
  else if startsWith [pipe] trimmed then
    if negb (headerDone a) then
      {| headerLines := headerLines a ++ [trimmed];
         dataLines := dataLines a;
         nonTableLines := nonTableLines a;
         headerDone := if is_separator trimmed then true else headerDone a |}
    else
      {| headerLines := headerLines a;
         dataLines := dataLines a ++ [trimmed];
         nonTableLines := nonTableLines a;
         headerDone := headerDone a |}
  else
    {| headerLines := headerLines a;
       dataLines := dataLines a;
       nonTableLines := nonTableLines a ++ [trimmed];
       headerDone := headerDone a |}.

Record Split := mkSplit {
  header : jsstring;
  dataRows : jsstring;
  nonTableContent : jsstring
}.

Definition splitTableHeaderAndRows (md : jsstring) : Split :=
  let a := fold_left scan_line (split_on 10 md)
             {| headerLines := []; dataLines := []; nonTableLines := [];
                headerDone := false |} in
  {| header := join nl (headerLines a);
     dataRows := join nl (dataLines a);
     nonTableContent := join nl (nonTableLines a) |}.

Definition s_unknown : jsstring := [26410; 30693].

Definition extractAuthorSurname (item : Item) : jsstring :=
  match item_creators item with
  | [] => s_unknown
  | c :: _ =>
      if truthy (lastName c) then lastName c
      else if truthy (name c) then last_part (split_ws (trim (name c)))
      else s_unknown
  end.

Definition extractYear (item : Item) : jsstring :=
  match match_year (item_date item) with
  | Some y => y
  | None => s_unknown
  end.

Definition s_label : jsstring := [62; 32; 42; 42; 25991; 29486; 32].
Definition s_preamble : jsstring :=
  [42; 42; 34920; 26684; 32467; 26500; 23450; 20041; 65288; 20197; 19979;
   27599; 31687; 25991; 29486; 30340; 25968; 25454; 34892; 22343; 36981;
   24490; 27492; 34920; 22836; 65289; 65306; 42; 42; 10; 10].
Definition s_rule : jsstring := Eval vm_compute in [10; 10] ++ lit "---" ++ [10; 10].

(** The map from item id to parent item; a later pair with the same id
    replaces an earlier one. *)
Definition build_itemMap (itemPdfPairs : list Pair) : gmap Z Item :=
  fold_left (fun m p => <[item_id (parentItem p) := parentItem p]> m)
            itemPdfPairs ∅.

Definition label_of (itemMap : gmap Z Item) (index : nat) (itemId : Z) : jsstring :=
  match itemMap !! itemId with
  | Some parent =>
      let author := extractAuthorSurname parent in
      let year := extractYear parent in
      let title := take 80 (item_title parent) in
      s_label ++ of_nat index ++ lit "**: " ++ title
      ++ lit " (" ++ author ++ lit ", " ++ year ++ lit ")"
  | None => s_label ++ of_nat index ++ lit "**"
  end.

(** The entry of one table: the label, the lines outside the table, and
    the data rows, or the whole table when no data row was found. *)
Definition entry_of (label tableContent : jsstring) (sp : Split) : jsstring :=
  let e1 := label in
  let e2 := if truthy (nonTableContent sp)
            then e1 ++ nl ++ nonTableContent sp else e1 in
  if truthy (dataRows sp) then e2 ++ nl ++ dataRows sp
  else e2 ++ nl ++ tableContent.

Record Loop := mkLoop {
  globalHeader : jsstring;
  parts : list jsstring;
  index : nat
}.

(** One turn of [for (const [itemId, tableContent] of tableResults)]. *)
Definition loop_body (itemMap : gmap Z Item) (st : Loop) (kv : Z * jsstring) : Loop :=
  let '(itemId, tableContent) := kv in
  let label := label_of itemMap (index st) itemId in
  let sp := splitTableHeaderAndRows tableContent in
  {| globalHeader :=
       if negb (truthy (globalHeader st)) && truthy (header sp)
       then header sp else globalHeader st;
     parts := parts st ++ [entry_of label tableContent sp];
     index := S (index st) |}.

(** [itemPdfPairs] is optional in the source; leaving it out is the empty
    list here. *)
Definition aggregateTableContents (tableResults : JsMap.t) (itemPdfPairs : list Pair)
  : jsstring :=
  let itemMap := build_itemMap itemPdfPairs in
  let st := fold_left (loop_body itemMap) tableResults
              {| globalHeader := []; parts := []; index := 1 |} in
  let result :=
    if truthy (globalHeader st)
    then s_preamble ++ globalHeader st ++ s_rule else [] in
  result ++ join s_rule (parts st).

End Aggregate.

(* ================================================================== *)
(** ** ParallelFillScheduler: fillTablesInParallel *)
(* ================================================================== *)

(** The workers are asynchronous functions on one thread: a worker runs
    without interruption from one [await] to the next, and suspended
    workers resume in an order that the run time chooses.  A run is
    modelled by the list of the workers resumed, one after the other; a
    worker's turn is a function on the shared state.  The events record,
    in order, the calls that the source makes. *)
Module Sched.
Import Cache.

(** An element of [queue], with its index in [items] (the index only
    labels the events). *)
Record Task := mkTask {
  pos : nat;
  pair : Pair
}.

Definition task_id (t : Task) : Z := item_id (parentItem (pair t)).

(** How [fillTableForSinglePDF] ends: with the table, or with the
    message of what it threw. *)
Inductive FillResult :=
| Filled (table : jsstring)
| Thrown (message : jsstring).

Inductive Event :=
| EvFind (p : nat) (existing : option jsstring)  (* findTableNote answered *)
| EvFill (p : nat) (call : nat)                  (* fillTableForSinglePDF called *)
| EvSave (p : nat) (table : jsstring)            (* saveTableNote called *)
| EvSet (p : nat) (itemId : Z) (text : jsstring) (* results.set *)
| EvProgress (p : nat) (done total : nat).       (* progressCallback *)

(** Where a worker is suspended. *)
Inductive Worker :=
| AwaitFind (t : Task) (existing : option jsstring)
    (* line 506: findTableNote has read the notes and is about to answer *)
| AwaitFill (t : Task) (r : FillResult)
    (* line 510 *)
| AwaitSaveFind (t : Task) (table : jsstring) (existingContent : option jsstring)
    (* line 516, inside saveTableNote at line 282 *)
| AwaitSaveTx (t : Task) (table : jsstring) (note : Note)
    (* line 516, inside saveTableNote at line 338 *)
| Finished.
    (* the loop of line 502 has ended *)

Record State := mkState {
  queue : list Task;
  results : JsMap.t;
  completed : nat;
  store : Store;
  calls : nat;             (* calls of fillTableForSinglePDF so far *)
  trace : list Event;
  workers : list Worker
}.

Definition s_failed : jsstring := [40; 22635; 34920; 22833; 36133; 58; 32].

(** The text recorded for a pair that failed (line 526). *)
Definition placeholder (message : jsstring) : jsstring :=
  s_failed ++ message ++ lit ")".

Section Run.
(** [marked.parse], as in [Cache]. *)
Variable marked_parse : jsstring -> jsstring.
(** [fillTableForSinglePDF(parentItem, pdfAttachment, tableTemplate,
    fillPrompt)]: it reads the file and asks the language model, so its
    answer is a parameter; the first argument is the number of the call. *)
Variable fillTableForSinglePDF :
  nat -> Item -> Attachment -> jsstring -> jsstring -> FillResult.
Variable tableTemplate fillPrompt : jsstring.
Variable total : nat.

Definition emit (evs : list Event) (st : State) : State :=
  {| queue := queue st; results := results st; completed := completed st;
     store := store st; calls := calls st; trace := trace st ++ evs;
     workers := workers st |}.

(** Lines 502-506: the loop test, [queue.shift()] and the call of
    [findTableNote], which reads the note ids at once. *)
Definition loop_head (st : State) : Worker * State :=
  match queue st with
  | [] => (Finished, st)
  | task :: rest =>
      let existing := findTableNote (store st) (parentItem (pair task)) in
      (AwaitFind task existing,
       {| queue := rest; results := results st; completed := completed st;
          store := store st; calls := calls st;
          trace := trace st ++ [EvFind (pos task) existing];
          workers := workers st |})
  end.

(** [results.set(task.parentItem.id, text)] and lines 529-530. *)
Definition record (task : Task) (text : jsstring) (st : State) : State :=
  {| queue := queue st;
     results := JsMap.set (task_id task) text (results st);
     completed := S (completed st);
     store := store st; calls := calls st;
     trace := trace st ++ [EvSet (pos task) (task_id task) text;
                           EvProgress (pos task) (S (completed st)) total];
     workers := workers st |}.

Definition call_fill (task : Task) (st : State) : Worker * State :=
  (AwaitFill task
     (fillTableForSinglePDF (calls st) (parentItem (pair task))
        (pdfAttachment (pair task)) tableTemplate fillPrompt),
   {| queue := queue st; results := results st; completed := completed st;
      store := store st; calls := S (calls st);
      trace := trace st ++ [EvFill (pos task) (calls st)];
      workers := workers st |}).

Definition commit (task : Task) (note : Note) (st : State) : State :=
  {| queue := queue st; results := results st; completed := completed st;
     store := saveTx (store st) (parentItem (pair task)) note;
     calls := calls st; trace := trace st; workers := workers st |}.

(** A suspended worker runs on to its next [await]. *)
Definition resume (w : Worker) (st : State) : Worker * State :=
  match w with
  | AwaitFind task existing =>
      match existing with
      | Some text =>
          if truthy text then loop_head (record task text st)
          else call_fill task st
      | None => call_fill task st
      end
  | AwaitFill task (Filled table) =>
      (AwaitSaveFind task table
         (findTableNote (store st) (parentItem (pair task))),
       emit [EvSave (pos task) table] st)
  | AwaitFill task (Thrown message) =>
      loop_head (record task (placeholder message) st)
  | AwaitSaveFind task table existingContent =>
      let create :=
        (AwaitSaveTx task table
           (newTableNote marked_parse (parentItem (pair task)) table), st) in
      match existingContent with
      | Some text =>
          if truthy text then
            match firstTagged (getNotes (store st) (parentItem (pair task))) with
            | Some _ => loop_head (record task table st)
            | None => create
            end
          else create
      | None => create
      end
  | AwaitSaveTx task table note =>
      loop_head (record task table (commit task note st))
  | Finished => (Finished, st)
  end.

Definition set_worker (i : nat) (w : Worker) (st : State) : State :=
  {| queue := queue st; results := results st; completed := completed st;
     store := store st; calls := calls st; trace := trace st;
     workers := <[i := w]> (workers st) |}.

(** The turn of worker [i]; nothing happens when there is no such worker. *)
Definition step (st : State) (i : nat) : State :=
  match workers st !! i with
  | Some w => let '(w', st') := resume w st in set_worker i w' st'
  | None => st
  end.

Definition run (schedule : list nat) (st : State) : State :=
  fold_left step schedule st.

(** [worker()] called [n] times in a row (line 537): each call runs to
    its first [await]. *)
Fixpoint spawn (n : nat) (st : State) : State :=
  match n with
  | O => st
  | S n' =>
      let '(w, st') := loop_head st in
      spawn n'
        {| queue := queue st'; results := results st';
           completed := completed st'; store := store st'; calls := calls st';
           trace := trace st'; workers := workers st' ++ [w] |}
  end.

Definition is_finished (w : Worker) : bool :=
  match w with Finished => true | _ => false end.

(** [Promise.all] has resolved. *)
Definition all_finished (st : State) : bool := forallb is_finished (workers st).

End Run.

(** [queue = [...items]]. *)
Definition tasks_of (items : list Pair) : list Task := imap mkTask items.

(** [Array.from({ length: Math.min(concurrency, total) }, ...)]: a length
    below zero counts as zero. *)
Definition effectiveConcurrency (concurrency : Z) (total : nat) : nat :=
  Z.to_nat (Z.min concurrency (Z.of_nat total)).

(** The state when [Promise.all] is reached, with the notes of [st0]. *)
Definition start (st0 : Store) (items : list Pair) (concurrency : Z) : State :=
  spawn (effectiveConcurrency concurrency (length items))
    {| queue := tasks_of items; results := []; completed := 0;
       store := st0; calls := 0; trace := []; workers := [] |}.

(** [fillTablesInParallel] under a schedule: the state reached; the map
    returned is [results] once [all_finished] holds. *)
Definition fillTablesInParallel marked_parse fill
    (st0 : Store) (items : list Pair) (tableTemplate fillPrompt : jsstring)
    (concurrency : Z) (schedule : list nat) : State :=
  run marked_parse fill tableTemplate fillPrompt (length items) schedule
    (start st0 items concurrency).

End Sched.

(* ================================================================== *)
(** ** CitationResolver: postProcessCitations *)
(* ================================================================== *)

Module Cite.

(** A value of [authorYearMap]. *)
Record Entry := mkEntry {
  entry_item : Item;
  entry_key : jsstring;
  entry_uri : jsstring
}.

Definition s_uri : jsstring := Eval vm_compute in lit "zotero://select/library/items/".

(** A letter of a pattern under the [i] flag: the letter itself or its
    capital ([p] is a small ASCII letter; outside ASCII nothing folds to it). *)
Definition ci (p c : N) : bool := (c =? p) || (c =? p - 32).

(** What [.] does not match: the line terminators. *)
Definition is_line_end (c : N) : bool :=
  (c =? 10) || (c =? 13) || (c =? 8232) || (c =? 8233).

(** The number of white-space units that [s] starts with. *)
Definition ws_run (s : jsstring) : nat := length s - length (trimStart s).

(** [\s+.+$] on all of [w]: white space, then at least one more unit, none
    of them a line terminator.  The white space is given back one unit when
    nothing else is left for the dot. *)
Definition ws_then_rest (w : jsstring) : bool :=
  let b := Nat.min (ws_run w) (length w - 1) in
  (1 <=? b)%nat && forallb (fun c => negb (is_line_end c)) (drop b w).

(** [/\s+et\s+al\.?$/i] on all of [z]. *)
Definition p_etal (z : jsstring) : bool :=
  (1 <=? ws_run z)%nat &&
  match trimStart z with
  | e :: t :: z2 =>
      ci 101 e && ci 116 t && (1 <=? ws_run z2)%nat &&
      match trimStart z2 with
      | a :: l :: z4 =>
          ci 97 a && ci 108 l
          && (bool_decide (z4 = []) || bool_decide (z4 = [46]))
      | _ => false
      end
  | _ => false
  end.

(** [/\s+and\s+.+$/i] on all of [z]. *)
Definition p_and (z : jsstring) : bool :=
  (1 <=? ws_run z)%nat &&
  match trimStart z with
  | a :: n :: d :: w => ci 97 a && ci 110 n && ci 100 d && ws_then_rest w
  | _ => false
  end.

(** [/\s+&\s+.+$/i] on all of [z]. *)
Definition p_amp (z : jsstring) : bool :=
  (1 <=? ws_run z)%nat
  && startsWith [38] (trimStart z) && ws_then_rest (drop 1 (trimStart z)).

(** [/\s+(and|&)\s+.+$/i] on all of [z]. *)
Definition p_and_or_amp (z : jsstring) : bool := p_and z || p_amp z.

(** [s.replace(/...$/, "")] for a pattern tied to the end: the string is
    cut at the leftmost place from which the pattern matches to the end. *)
Fixpoint cut_at (p : jsstring -> bool) (s : jsstring) : jsstring :=
  if p s then []
  else match s with
       | [] => []
       | c :: s' => c :: cut_at p s'
       end.

(** [dddd[a-z]?] at the start of [s]: the year, its length with the
    letter, and what follows. *)
Definition year_here (s : jsstring) : option (jsstring * nat * jsstring) :=
  match s with
  | a :: b :: c :: d :: s' =>
      if is_digit a && is_digit b && is_digit c && is_digit d then
        match s' with
        | l :: s'' => if is_lower l then Some ([a; b; c; d], 5%nat, s'')
                      else Some ([a; b; c; d], 4%nat, s')
        | [] => Some ([a; b; c; d], 4%nat, s')
        end
      else None
  | _ => None
  end.

(** [/(\d{4})[a-z]?\s*$/] on all of [z]: group 1. *)
Definition p_year_end (z : jsstring) : option jsstring :=
  match year_here z with
  | Some (y, _, rest) => if truthy (trimStart rest) then None else Some y
  | None => None
  end.

(** [inner.match(/(\d{4})[a-z]?\s*$/)]: the leftmost place. *)
Fixpoint match_year_end (s : jsstring) : option jsstring :=
  match p_year_end s with
  | Some y => Some y
  | None => match s with [] => None | _ :: s' => match_year_end s' end
  end.

(** [/,\s*\d{4}[a-z]?\s*$/] on all of [z]. *)
Definition p_comma_year_end (z : jsstring) : bool :=
  startsWith [44] z &&
  match year_here (trimStart (drop 1 z)) with
  | Some (_, _, rest) => negb (truthy (trimStart rest))
  | None => false
  end.

(** The last piece when there are several, else the string (lines
    997-1000 and 1027-1030). *)
Definition last_word (surname : jsstring) : jsstring :=
  let parts := split_ws surname in
  if (1 <? length parts)%nat then last_part parts else surname.

(** Lines 983-1000: the surname to look up for a parenthetical citation. *)
Definition surname_in_parens (inner : jsstring) : jsstring :=
  let authorPart := trim (cut_at p_comma_year_end inner) in
  last_word (trim (cut_at p_amp (cut_at p_and (cut_at p_etal authorPart)))).

(** Lines 1021-1030: the surname to look up for a narrative citation. *)
Definition surname_in_text (authorText : jsstring) : jsstring :=
  last_word (trim (cut_at p_and_or_amp (cut_at p_etal authorText))).

Definition is_paren (c : N) : bool := (c =? 40) || (c =? 41).

(** [,\s*\d{4}[a-z]?\)] at the start of [s]: the length without the
    closing parenthesis. *)
Definition comma_year_close (s : jsstring) : option nat :=
  if startsWith [44] s then
    match year_here (trimStart (drop 1 s)) with
    | Some (_, n, after) =>
        if startsWith [41] after then Some (1 + ws_run (drop 1 s) + n)%nat
        else None
    | None => None
    end
  else None.

(** [[^()]{2,80}?,\s*\d{4}[a-z]?\)] at the start of [s], [k] units of the
    run already taken and [fuel = 80 - k] more allowed: the lazy run stops
    at the first length from 2 on after which the rest matches.  The answer
    is the length of group 1. *)
Fixpoint lazy_run (fuel k : nat) (s : jsstring) : option nat :=
  let extend :=
    match fuel, s with
    | S fuel', c :: s' => if is_paren c then None else lazy_run fuel' (S k) s'
    | _, _ => None
    end in
  if (2 <=? k)%nat then
    match comma_year_close s with
    | Some n => Some (k + n)%nat
    | None => extend
    end
  else extend.

(** [[a-zA-Zà-öø-ÿÀ-ÖØ-Ý\-']], the
    units of a name in the narrative pattern. *)
Definition is_name_unit (c : N) : bool :=
  is_lower c || is_upper c
  || ((224 <=? c) && (c <=? 246)) || ((248 <=? c) && (c <=? 255))
  || ((192 <=? c) && (c <=? 214)) || ((216 <=? c) && (c <=? 221))
  || (c =? 45) || (c =? 39).

(** The longest start of [s] made of name units, and the rest. *)
Fixpoint name_run (s : jsstring) : jsstring * jsstring :=
  match s with
  | c :: s' =>
      if is_name_unit c then let '(a, b) := name_run s' in (c :: a, b)
      else ([], s)
  | [] => ([], [])
  end.

(** [\s+\((\d{4}[a-z]?)\)(?!\])] at the start of [s]: the length and
    group 2. *)
Definition year_in_parens (s : jsstring) : option (nat * jsstring) :=
  if (1 <=? ws_run s)%nat && startsWith [40] (trimStart s) then
    match year_here (drop 1 (trimStart s)) with
    | Some (_, n, after) =>
        if startsWith [41] after && negb (startsWith [93] (drop 1 after))
        then Some ((ws_run s + 1 + n + 1)%nat, take n (drop 1 (trimStart s)))
        else None
    | None => None
    end
  else None.

(** [(?:et\s+al\.?|and|&)] at the start of [s]: its length.  The three
    alternatives start with different units. *)
Definition connector (s : jsstring) : option nat :=
  if startsWith (lit "et") s then
    if (1 <=? ws_run (drop 2 s))%nat
       && startsWith (lit "al") (trimStart (drop 2 s))
    then Some (2 + ws_run (drop 2 s) + 2
               + (if startsWith [46%N] (drop 2 (trimStart (drop 2 s)))
                  then 1 else 0))%nat
    else None
  else if startsWith (lit "and") s then Some 3%nat
  else if startsWith [38] s then Some 1%nat
  else None.

(** The optional second name with the year behind it,
    [\s+(?:et\s+al\.?|and|&)\s+NAME+] and then the year in parentheses, at
    the start of [s]: the length of the second name part, the length of the
    year part and group 2. *)
Definition second_name (s : jsstring) : option (nat * nat * jsstring) :=
  if (1 <=? ws_run s)%nat then
    match connector (trimStart s) with
    | Some nc =>
        let s1 := drop nc (trimStart s) in
        if (1 <=? ws_run s1)%nat then
          let '(n2, s2) := name_run (trimStart s1) in
          if (1 <=? length n2)%nat then
            match year_in_parens s2 with
            | Some (ny, y) =>
                Some ((ws_run s + nc + ws_run s1 + length n2)%nat, ny, y)
            | None => None
            end
          else None
        else None
    | None => None
    end
  else None.

Section Resolve.
(** [String.prototype.toLowerCase], the case mapping of Unicode. *)
Variable toLowerCase : jsstring -> jsstring.

Definition lookupKey (surname year : jsstring) : jsstring :=
  toLowerCase surname ++ lit "|" ++ year.

(** Lines 952-959. *)
Definition creator_surname (creator : Creator) : jsstring :=
  if truthy (lastName creator) then trim (lastName creator)
  else if truthy (name creator) then last_part (split_ws (trim (name creator)))
  else [].

(** Lines 951-966: one turn of the loop over the creators. *)
Definition register_creator (parent : Item) (year uri : jsstring)
    (authorYearMap : gmap jsstring Entry) (creator : Creator)
  : gmap jsstring Entry :=
  let surname := creator_surname creator in
  if negb (truthy surname) then authorYearMap
  else
    match authorYearMap !! lookupKey surname year with
    | Some _ => authorYearMap
    | None =>
        <[lookupKey surname year :=
            {| entry_item := parent; entry_key := item_key parent;
               entry_uri := uri |}]> authorYearMap
    end.

Definition item_uri (parent : Item) : jsstring := s_uri ++ item_key parent.

Definition item_year (parent : Item) : jsstring :=
  match match_year (item_date parent) with
  | Some y => y
  | None => []
  end.

(** Lines 940-967: one turn of the loop over the pairs. *)
Definition register_item (authorYearMap : gmap jsstring Entry) (p : Pair)
  : gmap jsstring Entry :=
  let parent := parentItem p in
  if negb (truthy (item_year parent))
     || (length (item_creators parent) =? 0)%nat
  then authorYearMap
  else fold_left (register_creator parent (item_year parent) (item_uri parent))
                 (item_creators parent) authorYearMap.

Definition build_index (itemPdfPairs : list Pair) : gmap jsstring Entry :=
  fold_left register_item itemPdfPairs ∅.

Definition lookup_citation (authorYearMap : gmap jsstring Entry)
    (surname year : jsstring) : option Entry :=
  authorYearMap !! lookupKey surname year.

(** The callback of lines 976-1010, for group 1. *)
Definition link_parens (authorYearMap : gmap jsstring Entry) (inner : jsstring)
  : jsstring :=
  let fullMatch := lit "(" ++ inner ++ lit ")" in
  match match_year_end inner with
  | None => fullMatch
  | Some year =>
      match lookup_citation authorYearMap (surname_in_parens inner) year with
      | Some m => lit "[(" ++ inner ++ lit ")](" ++ entry_uri m ++ lit ")"
      | None => fullMatch
      end
  end.

(** [/\(([^()]{2,80}?,\s*\d{4}[a-z]?)\)/g] with its callback. *)
Definition m_parens (authorYearMap : gmap jsstring Entry)
  : option N -> jsstring -> option (nat * jsstring) :=
  fun _ s =>
    if startsWith [40] s then
      match lazy_run 80 0 (drop 1 s) with
      | Some n => Some ((n + 2)%nat, link_parens authorYearMap (take n (drop 1 s)))
      | None => None
      end
    else None.

(** The callback of lines 1017-1040, for the match and its two groups. *)
Definition link_text (authorYearMap : gmap jsstring Entry)
    (fullMatch authorText yearWithSuffix : jsstring) : jsstring :=
  match lookup_citation authorYearMap (surname_in_text authorText)
          (take 4 yearWithSuffix) with
  | Some m =>
      lit "[" ++ authorText ++ lit " (" ++ yearWithSuffix ++ lit ")]("
      ++ entry_uri m ++ lit ")"
  | None => fullMatch
  end.

(** The narrative pattern of line 1016 with its callback: not after a
    bracket, at a word boundary, a capital, at least one more unit of a
    name, possibly a connector and a second name, then the year in
    parentheses, not before a closing bracket.  A run of name units is
    followed by white space in every match, so each run is the longest one. *)
Definition m_narrative (authorYearMap : gmap jsstring Entry)
  : option N -> jsstring -> option (nat * jsstring) :=
  fun prev s =>
    let at_boundary :=
      match prev with
      | Some c => negb (c =? 91) && negb (is_word c)
      | None => true
      end in
    match s with
    | c0 :: s0 =>
        if at_boundary && is_upper c0 then
          let '(n1, s1) := name_run s0 in
          if (1 <=? length n1)%nat then
            let found (na ny : nat) (y : jsstring) :=
              Some ((na + ny)%nat,
                    link_text authorYearMap (take (na + ny) s) (take na s) y) in
            match second_name s1 with
            | Some (n2, ny, y) => found (1 + length n1 + n2)%nat ny y
            | None =>
                match year_in_parens s1 with
                | Some (ny, y) => found (1 + length n1)%nat ny y
                | None => None
                end
            end
          else None
        else None
    | [] => None
    end.

Definition s_marker : jsstring := Eval vm_compute in lit "[itemId:".

(** [/\[itemId:\d+\]/g], deleted. *)
Definition m_marker : option N -> jsstring -> option (nat * jsstring) :=
  fun _ s =>
    if startsWith s_marker s then
      let digits :=
        (length (drop 8 s) - length (dropWhileDigits (drop 8 s)))%nat in
      if (1 <=? digits)%nat && startsWith [93] (drop (8 + digits) s)
      then Some ((8 + digits + 1)%nat, [])
      else None
    else None.

(** The parenthetical pass, lines 974-1011. *)
Definition link_parentheticals (authorYearMap : gmap jsstring Entry)
    (content : jsstring) : jsstring :=
  replace_g (m_parens authorYearMap) content.

(** The narrative pass, lines 1015-1041. *)
Definition link_narratives (authorYearMap : gmap jsstring Entry)
    (content : jsstring) : jsstring :=
  replace_g (m_narrative authorYearMap) content.

(** The two citation passes, one after the other. *)
Definition link_citations (authorYearMap : gmap jsstring Entry)
    (content : jsstring) : jsstring :=
  link_narratives authorYearMap (link_parentheticals authorYearMap content).

Definition postProcessCitations (content : jsstring) (itemPdfPairs : list Pair)
  : jsstring :=
  let authorYearMap := build_index itemPdfPairs in
  if (size authorYearMap =? 0)%nat then content
  else replace_g m_marker (link_citations authorYearMap content).

End Resolve.

End Cite.


(* ================================================================== *)
(** ** Calls that may throw *)
(* ================================================================== *)

(** How an awaited promise settles: fulfilled with a value, or rejected
    with the message of what it threw. *)
Inductive Settled (A : Type) : Type :=
| Fulfilled (a : A)
| Rejected (message : jsstring).

Arguments Fulfilled {A} a.
Arguments Rejected {A} message.

(** [`${n}`] for an integer. *)
Definition of_Z (z : Z) : jsstring :=
  if (z <? 0)%Z then lit "-" ++ of_nat (Z.to_nat (- z)) else of_nat (Z.to_nat z).

(* ================================================================== *)
(** ** TableExtractor: fillTableForSinglePDF and arrayBufferToBase64 *)
(* ================================================================== *)

Module Fill.
Import Sched.

(** *** The replacement text of [String.prototype.replace]

    [fillPrompt.replace(/\$\{tableTemplate\}/g, tableTemplate)] hands the
    template over as a replacement text, in which a dollar sign starts a
    pattern: [$$] is a dollar sign, [$&] the match, [$`] the text before the
    match and [$'] the text after it.  The expression has no group, so a
    dollar sign before a digit or before [<] stands for itself, as before
    any other unit. *)
Fixpoint GetSubstitution (matched before after template : jsstring) : jsstring :=
  match template with
  | [] => []
  | c :: t =>
      if c =? 36 then
        match t with
        | d :: t' =>
            if d =? 36 then 36 :: GetSubstitution matched before after t'
            else if d =? 38 then matched ++ GetSubstitution matched before after t'
            else if d =? 96 then before ++ GetSubstitution matched before after t'
            else if d =? 39 then after ++ GetSubstitution matched before after t'
            else c :: GetSubstitution matched before after t
        | [] => [c]
        end
      else c :: GetSubstitution matched before after t
  end.

(** [s.replace(/pat/g, template)] for a literal pattern that is not empty:
    [before] is the input up to the current position, [skip] counts the
    units of a match that are still to be passed over. *)
Fixpoint replace_with_template (pat template before : jsstring) (skip : nat)
    (s : jsstring) : jsstring :=
  match s with
  | [] => []
  | c :: s' =>
      match skip with
      | S k => replace_with_template pat template (before ++ [c]) k s'
      | O =>
          if startsWith pat s then
            GetSubstitution pat before (drop (length pat) s) template
            ++ replace_with_template pat template (before ++ [c])
                 (Nat.pred (length pat)) s'
          else c :: replace_with_template pat template (before ++ [c]) 0 s'
      end
  end.

Definition s_placeholder : jsstring := Eval vm_compute in lit "${tableTemplate}".

(** Lines 203-206. *)
Definition actualPrompt (fillPrompt tableTemplate : jsstring) : jsstring :=
  replace_with_template s_placeholder tableTemplate [] 0 fillPrompt.

(** *** arrayBufferToBase64 *)

Definition chunkSize : N := 32768.

(** [String.fromCharCode.apply(null, Array.from(chunk))]. *)
Definition fromCharCodes (chunk : list Byte.byte) : jsstring := map Byte.to_N chunk.

(** [bytes.subarray(b, e)] for [b <= e <= bytes.length]. *)
Definition subarray (bytes : list Byte.byte) (b e : N) : list Byte.byte :=
  take (N.to_nat (e - b)) (drop (N.to_nat b) bytes).

(** The loop of lines 1059-1062, from index [i] on; every turn moves
    [i] forward, so [fuel] turns are enough when [fuel] is the number of
    bytes. *)
Fixpoint chunk_loop (fuel : nat) (bytes : list Byte.byte) (i : N) (result : jsstring)
  : jsstring :=
  match fuel with
  | O => result
  | S fuel' =>
      if i <? N.of_nat (length bytes) then
        let chunk :=
          subarray bytes i (N.min (i + chunkSize) (N.of_nat (length bytes))) in
        chunk_loop fuel' bytes (i + chunkSize) (result ++ fromCharCodes chunk)
      else result
  end.

Section Extract.
(** [btoa] of the platform, defined on strings of units below 256. *)
Variable btoa : jsstring -> jsstring.
(** [pdfAttachment.getFilePathAsync()]; the empty string stands for every
    falsy answer. *)
Variable getFilePathAsync : Attachment -> Settled jsstring.
Variable IOUtils_read : jsstring -> Settled (list Byte.byte).
Variable extractTextFromItem : Item -> Settled jsstring.
(** [LLMClient.generateSummaryWithRetry(content, isBase64, prompt)]. *)
Variable generateSummaryWithRetry : jsstring -> bool -> jsstring -> Settled jsstring.

Definition arrayBufferToBase64 (bytes : list Byte.byte) : jsstring :=
  btoa (chunk_loop (length bytes) bytes 0 []).

Definition s_untitled : jsstring := [26410; 30693; 26631; 39064].
Definition s_extracting : jsstring :=
  [27491; 22312; 25552; 21462; 32; 80; 68; 70; 58; 32].
Definition s_filling : jsstring := [27491; 22312; 22635; 34920; 58; 32].
Definition s_filled : jsstring := [22635; 34920; 23436; 25104; 58; 32].
Definition s_nopath : jsstring :=
  [80; 68; 70; 32; 38468; 20214; 26080; 25991; 20214; 36335; 24452; 58; 32].

(** Lines 192-201: the file as Base64, or the text of the item when the
    file cannot be read. *)
Definition pdfContent_of (item : Item) (filePath : jsstring)
  : Settled (jsstring * bool) :=
  match IOUtils_read filePath with
  | Fulfilled fileData => Fulfilled (arrayBufferToBase64 fileData, true)
  | Rejected _ =>
      match extractTextFromItem item with
      | Fulfilled text => Fulfilled (text, false)
      | Rejected e => Rejected e
      end
  end.

(** [fillTableForSinglePDF]: the calls of the progress callback, when
    one is given, and how the call ends. *)
Definition fillTableForSinglePDF (item : Item) (pdfAttachment : Attachment)
    (tableTemplate fillPrompt : jsstring) : list (jsstring * nat) * FillResult :=
  let itemTitle := or_else (item_title item) s_untitled in
  let p10 := (s_extracting ++ take 30 itemTitle ++ lit "...", 10%nat) in
  let p50 := (s_filling ++ take 30 itemTitle ++ lit "...", 50%nat) in
  let p100 := (s_filled ++ take 30 itemTitle, 100%nat) in
  match getFilePathAsync pdfAttachment with
  | Rejected e => ([p10], Thrown e)
  | Fulfilled filePath =>
      if negb (truthy filePath)
      then ([p10], Thrown (s_nopath ++ of_Z (att_id pdfAttachment)))
      else
        match pdfContent_of item filePath with
        | Rejected e => ([p10], Thrown e)
        | Fulfilled (pdfContent, isBase64) =>
            match generateSummaryWithRetry pdfContent isBase64
                    (actualPrompt fillPrompt tableTemplate) with
            | Rejected e => ([p10; p50], Thrown e)
            | Fulfilled result => ([p10; p50; p100], Filled result)
            end
        end
  end.

(** The extractor as the scheduler calls it, without a progress callback;
    the number of the call plays no part. *)
Definition extractor (k : nat) (item : Item) (pdfAttachment : Attachment)
    (tableTemplate fillPrompt : jsstring) : FillResult :=
  snd (fillTableForSinglePDF item pdfAttachment tableTemplate fillPrompt).

End Extract.

End Fill.


(* ================================================================== *)
(** ** ReviewSynthesizer: generateSummaryFromMultiplePDFs *)
(* ================================================================== *)

Module Summary.

Record PdfFileData := mkPdfFileData {
  pdf_title : jsstring;
  pdf_filePath : jsstring;
  pdf_content : jsstring;
  pdf_isBase64 : bool
}.

Record PdfFileInfo := mkPdfFileInfo {
  filePath : jsstring;
  displayName : jsstring;
  base64Content : jsstring
}.

Definition s_no_pdf : jsstring :=
  [27809; 26377; 21487; 29992; 30340; 32; 80; 68; 70; 32; 20869; 23481].
Definition s_no_multi : jsstring :=
  [71; 101; 109; 105; 110; 105; 32; 112; 114; 111; 118; 105; 100; 101; 114; 32;
   19981; 25903; 25345; 22810; 25991; 20214; 22788; 29702].
Definition s_no_text : jsstring :=
  [24403; 21069; 32; 65; 80; 73; 32; 19981; 25903; 25345; 22810; 25991; 20214;
   22788; 29702; 65292; 19988; 26080; 27861; 25552; 21462; 32; 80; 68; 70; 32;
   25991; 26412; 20869; 23481].
Definition s_uploading : jsstring :=
  [27491; 22312; 19978; 20256; 32; 80; 68; 70; 32; 25991; 20214; 21040; 32; 71;
   101; 109; 105; 110; 105; 46; 46; 46].
Definition s_calling : jsstring :=
  [27491; 22312; 35843; 29992; 32; 65; 73; 32; 29983; 25104; 32508; 36848; 46; 46; 46].
Definition s_calling_text : jsstring :=
  [27491; 22312; 35843; 29992; 32; 65; 73; 32; 29983; 25104; 32508; 36848; 32; 40;
   25991; 26412; 27169; 24335; 41; 46; 46; 46].
Definition s_paper : jsstring := [10; 10; 61; 61; 61; 32; 35770; 25991; 58; 32].
Definition s_pdf_body : jsstring :=
  [32; 61; 61; 61; 10; 91; 80; 68; 70; 32; 20869; 23481; 93; 10].
Definition s_paper_end : jsstring := [32; 61; 61; 61; 10].
Definition s_list : jsstring :=
  [10; 10; 20197; 19979; 26159; 38656; 35201; 32508; 36848; 30340; 35770; 25991;
   21015; 34920; 58; 10].
Definition s_from_pdf : jsstring :=
  [10; 10; 35831; 22522; 20110; 19978; 20256; 30340; 32; 80; 68; 70; 32; 20869;
   23481; 29983; 25104; 32508; 36848; 12290].
Definition s_contents : jsstring :=
  [10; 10; 20197; 19979; 26159; 38656; 35201; 32508; 36848; 30340; 35770; 25991;
   20869; 23481; 58; 10].

(** Lines 786-790: one file for every PDF, named by its place in the
    list and the first 50 units of its title. *)
Definition pdfFiles_of (pdfContents : list PdfFileData) : list PdfFileInfo :=
  imap (fun index pdf =>
          {| filePath := pdf_filePath pdf;
             displayName := of_nat (index + 1) ++ lit "_" ++ take 50 (pdf_title pdf);
             base64Content := pdf_content pdf |}) pdfContents.

(** The state of the loop of lines 826-836. *)
Record Merge := mkMerge {
  combinedContent : jsstring;
  hasBase64 : bool;
  firstBase64Content : jsstring
}.

Definition merge_pdf (a : Merge) (pdf : PdfFileData) : Merge :=
  if pdf_isBase64 pdf && truthy (pdf_content pdf) then
    {| combinedContent := combinedContent a ++ s_paper ++ pdf_title pdf ++ s_pdf_body;
       hasBase64 := true;
       firstBase64Content :=
         if hasBase64 a then firstBase64Content a else pdf_content pdf |}
  else
    {| combinedContent :=
         combinedContent a ++ s_paper ++ pdf_title pdf ++ s_paper_end
         ++ pdf_content pdf ++ [10];
       hasBase64 := hasBase64 a;
       firstBase64Content := firstBase64Content a |}.

(** [pdfContents.map((p, i) => `${i + 1}. ${p.title}`).join("\n")]. *)
Definition numbered_titles (pdfContents : list PdfFileData) : jsstring :=
  join [10] (imap (fun i p => of_nat (i + 1) ++ lit ". " ++ pdf_title p) pdfContents).

Section Providers.
(** The options of [LLMClient.getLLMOptions()], passed on as they are. *)
Variable Options : Type.
Variable getLLMOptions : Options.

(** A provider of the registry; not every provider has
    [generateMultiFileSummary]. *)
Record Provider := mkProvider {
  generateMultiFileSummary :
    option (list PdfFileInfo -> jsstring -> Options -> Settled jsstring)
}.

(** [getPref("provider")], the empty string when it is not set. *)
Variable pref_provider : jsstring.
Variable ProviderRegistry_get : jsstring -> option Provider.
Variable toLowerCase : jsstring -> jsstring.
Variable generateSummaryWithRetry : jsstring -> bool -> jsstring -> Settled jsstring.

(** Every function gives the calls of the progress callback, when one is
    given, and how the call ends. *)
Definition generateWithGeminiFileAPI (pdfContents : list PdfFileData) (prompt : jsstring)
  : list (jsstring * nat) * Settled jsstring :=
  let p55 := (s_uploading, 55%nat) in
  let p65 := (s_calling, 65%nat) in
  let provider :=
    match ProviderRegistry_get (lit "google") with
    | Some p => Some p
    | None => ProviderRegistry_get (lit "gemini")
    end in
  match provider with
  | Some p =>
      match generateMultiFileSummary p with
      | Some generate =>
          ([p55; p65], generate (pdfFiles_of pdfContents) prompt getLLMOptions)
      | None => ([p55], Rejected s_no_multi)
      end
  | None => ([p55], Rejected s_no_multi)
  end.

Definition generateWithMergedText (pdfContents : list PdfFileData) (prompt : jsstring)
  : list (jsstring * nat) * Settled jsstring :=
  let p60 := (s_calling_text, 60%nat) in
  let a := fold_left merge_pdf pdfContents
             {| combinedContent := []; hasBase64 := false;
                firstBase64Content := [] |} in
  if hasBase64 a && truthy (firstBase64Content a) then
    ([p60],
     generateSummaryWithRetry (firstBase64Content a) true
       (prompt ++ s_list ++ numbered_titles pdfContents ++ s_from_pdf))
  else if negb (truthy (trim (combinedContent a))) then
    ([p60], Rejected s_no_text)
  else
    ([p60],
     generateSummaryWithRetry (combinedContent a) false
       (prompt ++ s_contents ++ combinedContent a)).

Definition generateSummaryFromMultiplePDFs (pdfContents : list PdfFileData)
    (prompt : jsstring) : list (jsstring * nat) * Settled jsstring :=
  if (length pdfContents =? 0)%nat then ([], Rejected s_no_pdf)
  else
    let providerName := or_else pref_provider (lit "google") in
    let supportsMultiFile :=
      match ProviderRegistry_get providerName with
      | Some p => bool_decide (is_Some (generateMultiFileSummary p))
      | None => false
      end in
    let isGemini :=
      bool_decide (providerName = lit "google")
      || includes (lit "gemini") (toLowerCase providerName) in
    if supportsMultiFile && isGemini
    then generateWithGeminiFileAPI pdfContents prompt
    else generateWithMergedText pdfContents prompt.

End Providers.

End Summary.


(* ================================================================== *)
(** ** MinerU: extractMarkdown, pollStatusAndDownload,
       downloadAndExtractMarkdown *)
(* ================================================================== *)

(** A shallow embedding of [MineruClient], which is in
    [src/modules/mineruIntegration.ts] and, a second time, at the end of
    [src/modules/literatureReviewService.ts]. *)
Module Mineru.

(** What [res.json()] gives; a number is a double. *)
#[local] Unset Elimination Schemes.
Inductive Json :=
| JNull
| JBool (b : bool)
| JNum (x : float)
| JStr (s : jsstring)
| JArr (elements : list Json)
| JObj (fields : list (jsstring * Json)).
#[local] Set Elimination Schemes.

(** A value, or [undefined]. *)
Abbreviation Value := (option Json).

Definition truthy_value (v : Value) : bool :=
  match v with
  | None | Some JNull => false
  | Some (JBool b) => b
  | Some (JNum x) => negb (PrimFloat.is_zero x || PrimFloat.is_nan x)
  | Some (JStr s) => truthy s
  | Some (JArr _) | Some (JObj _) => true
  end.

(** The property [k] of an object with the properties [fields]. *)
Fixpoint field_of (k : jsstring) (fields : list (jsstring * Json)) : Value :=
  match fields with
  | [] => None
  | (k', v) :: rest => if bool_decide (k' = k) then Some v else field_of k rest
  end.

(** [v?.k] for the names of this file, none of which is a property of a
    string, a number or an array. *)
Definition get (k : string) (v : Value) : Value :=
  match v with
  | Some (JObj fields) => field_of (lit k) fields
  | _ => None
  end.

(** [v?.[0]]: the first element of an array, the first unit of a string,
    the property [0] of an object. *)
Definition at0 (v : Value) : Value :=
  match v with
  | Some (JArr elements) => head elements
  | Some (JStr s) => match s with c :: _ => Some (JStr [c]) | [] => None end
  | Some (JObj fields) => field_of (lit "0") fields
  | _ => None
  end.

(** [a || b]. *)
Definition or_value (a b : Value) : Value := if truthy_value a then a else b.

(** [v === s] for a string [s]. *)
Definition is_string (s : string) (v : Value) : bool :=
  match v with
  | Some (JStr x) => bool_decide (x = lit s)
  | _ => false
  end.

(** [s.endsWith(p)]. *)
Definition endsWith (p s : jsstring) : bool := startsWith (rev p) (rev s).

(** What the client does on the network and the time that it lets pass,
    in order. *)
Inductive Call :=
| Wait (ms : N)                (* Zotero.Promise.delay *)
| PostBatch                    (* POST /api/v4/file-urls/batch *)
| PutFile (url : Json)         (* PUT of the file *)
| GetStatus (url : jsstring)   (* GET /api/v4/extract-results/batch/ID *)
| GetZip (url : Json).         (* GET of the archive *)

(** The answer to the download of the archive. *)
Record Download := mkDownload {
  dl_ok : bool;
  dl_arrayBuffer : Settled (list Byte.byte)
}.

(** A file of the archive: its name and what [async("string")] gives. *)
Record ZipFile := mkZipFile {
  zip_name : jsstring;
  zip_text : Settled jsstring
}.

Record BatchResponse := mkBatchResponse {
  batch_ok : bool;
  batch_text : Settled jsstring;
  batch_json : Settled Json
}.

Record PutResponse := mkPutResponse {
  put_ok : bool;
  put_status : nat;
  put_text : Settled jsstring
}.

Definition fileName : string := "document.pdf".

Definition s_status_url : jsstring :=
  Eval vm_compute in lit "https://mineru.net/api/v4/extract-results/batch/".

Definition s_no_key : jsstring := Eval vm_compute in lit "MinerU API Key not configured.".
Definition s_no_attachment : jsstring := Eval vm_compute in lit "No PDF attachment found.".
Definition s_no_path : jsstring := Eval vm_compute in lit "PDF file path not found.".
Definition s_no_upload_url : jsstring :=
  Eval vm_compute in lit "Failed to get upload URL: ".
Definition s_unexpected : jsstring :=
  Eval vm_compute in lit "MinerU API returned unexpected batch response: ".
Definition s_put_failed : jsstring :=
  Eval vm_compute in lit "Failed to put upload file, status: ".
Definition s_no_zip_url : jsstring :=
  Eval vm_compute in lit "MinerU Task completed but no full_zip_url returned.".
Definition s_task_failed : jsstring :=
  Eval vm_compute in lit "MinerU Task failed processing.".
Definition s_timed_out : jsstring := Eval vm_compute in lit "MinerU Task timed out.".
Definition s_download_failed : jsstring :=
  Eval vm_compute in lit "Failed to download zip file from ".
Definition s_no_markdown : jsstring :=
  Eval vm_compute in lit "No valid Markdown file found in the extracted zip.".

(** The file of the archive that is looked for: its name ends in [.md]
    and does not hold [__MACOSX]. *)
Definition is_markdown (f : ZipFile) : bool :=
  endsWith (lit ".md") (zip_name f) && negb (includes (lit "__MACOSX") (zip_name f)).

(** The upload address of the answer [batchData]: the first of five
    places that holds a truthy value, else the empty string that [putUrl]
    starts with. *)
Definition pick_putUrl (batchData : Json) : Value :=
  let data := get "data" (Some batchData) in
  if truthy_value (at0 (get "file_urls" data)) then at0 (get "file_urls" data)
  else if truthy_value (at0 (get "urls" data)) then at0 (get "urls" data)
  else if truthy_value (get fileName (get "urls" data)) then get fileName (get "urls" data)
  else if truthy_value (get "url" (at0 (get "items" data)))
       then get "url" (at0 (get "items" data))
  else if truthy_value (get "upload_url" data) then get "upload_url" data
  else Some (JStr []).

Section Client.
(** The text of a value in a template literal or a URL: a string is its
    own text; the texts of the other values are those of the run time. *)
Variable ToString : Json -> jsstring.
Variable JSON_stringify : Json -> jsstring.
(** [getPref("mineruApiKey")], the empty string when it is not set. *)
Variable pref_mineruApiKey : jsstring.
(** [PDFExtractor.getAllPdfAttachments(item)]; the empty list stands for
    every falsy answer. *)
Variable getAllPdfAttachments : Item -> Settled (list Attachment).
Variable getFilePathAsync : Attachment -> Settled jsstring.
Variable IOUtils_read : jsstring -> Settled (list Byte.byte).
(** The requests, each with what it is sent. *)
Variable fetch_batch : jsstring -> Settled BatchResponse.
Variable fetch_put : Json -> list Byte.byte -> Settled PutResponse.
(** The status request number [i], with its address and the key, and
    its body as JSON. *)
Variable fetch_status : nat -> jsstring -> jsstring -> Settled Json.
Variable fetch_zip : Json -> Settled Download.
Variable JSZip_loadAsync : list Byte.byte -> Settled (list ZipFile).

Definition text_of (v : Json) : jsstring :=
  match v with JStr s => s | _ => ToString v end.

(** [downloadAndExtractMarkdown]; the stand-in for [setImmediate] that it
    installs is not part of the model. *)
Definition downloadAndExtractMarkdown (zipUrl : Json) : list Call * Settled jsstring :=
  ([GetZip zipUrl],
   match fetch_zip zipUrl with
   | Rejected e => Rejected e
   | Fulfilled res =>
       if negb (dl_ok res) then Rejected (s_download_failed ++ text_of zipUrl)
       else
         match dl_arrayBuffer res with
         | Rejected e => Rejected e
         | Fulfilled arrayBuffer =>
             match JSZip_loadAsync arrayBuffer with
             | Rejected e => Rejected e
             | Fulfilled files =>
                 match List.filter is_markdown files with
                 | f :: _ =>
                     match zip_text f with
                     | Rejected e => Rejected e
                     | Fulfilled mdContent =>
                         if truthy mdContent then Fulfilled mdContent
                         else Rejected s_no_markdown
                     end
                 | [] => Rejected s_no_markdown
                 end
             end
         end
   end).

Section Poll.
Variable apiKey batchId : jsstring.

Definition status_url : jsstring := s_status_url ++ batchId.

(** One turn of the loop of [pollStatusAndDownload], after its delay:
    how the call ends in this turn, with the calls made after the status
    request, or nothing when the loop goes on. *)
Definition poll_once (i : nat) : option (list Call * Settled jsstring) :=
  match fetch_status i status_url apiKey with
  | Rejected e => Some ([], Rejected e)
  | Fulfilled data =>
      let result :=
        or_value (at0 (get "extract_result" (get "data" (Some data))))
                 (get "data" (Some data)) in
      let state := get "state" result in
      if is_string "done" state then
        match get "full_zip_url" result with
        | Some zipUrl =>
            if truthy_value (Some zipUrl) then Some (downloadAndExtractMarkdown zipUrl)
            else Some ([], Rejected s_no_zip_url)
        | None => Some ([], Rejected s_no_zip_url)
        end
      else if is_string "error" state then Some ([], Rejected s_task_failed)
      else None
  end.

(** The loop from turn [i] on, with [turns] turns left. *)
Fixpoint poll_loop (turns i : nat) : list Call * Settled jsstring :=
  match turns with
  | O => ([], Rejected s_timed_out)
  | S turns' =>
      match poll_once i with
      | Some (calls, r) => (Wait 5000 :: GetStatus status_url :: calls, r)
      | None =>
          let '(calls, r) := poll_loop turns' (S i) in
          (Wait 5000 :: GetStatus status_url :: calls, r)
      end
  end.

Definition pollStatusAndDownload : list Call * Settled jsstring := poll_loop 60 0.

End Poll.

(** [extractMarkdown]: the calls made and how it ends. *)
Definition extractMarkdown (item : Item) : list Call * Settled jsstring :=
  let apiKey := pref_mineruApiKey in
  if negb (truthy apiKey) then ([], Rejected s_no_key)
  else
    match getAllPdfAttachments item with
    | Rejected e => ([], Rejected e)
    | Fulfilled [] => ([], Rejected s_no_attachment)
    | Fulfilled (pdfAttachment :: _) =>
        match getFilePathAsync pdfAttachment with
        | Rejected e => ([], Rejected e)
        | Fulfilled filePath =>
            if negb (truthy filePath) then ([], Rejected s_no_path)
            else
              match IOUtils_read filePath with
              | Rejected e => ([], Rejected e)
              | Fulfilled fileData =>
                  match fetch_batch apiKey with
                  | Rejected e => ([PostBatch], Rejected e)
                  | Fulfilled batchRes =>
                      if negb (batch_ok batchRes) then
                        match batch_text batchRes with
                        | Rejected e => ([PostBatch], Rejected e)
                        | Fulfilled err =>
                            ([PostBatch], Rejected (s_no_upload_url ++ err))
                        end
                      else
                        match batch_json batchRes with
                        | Rejected e => ([PostBatch], Rejected e)
                        | Fulfilled batchData =>
                            let putUrl := pick_putUrl batchData in
                            let batchId :=
                              get "batch_id" (get "data" (Some batchData)) in
                            match putUrl, batchId with
                            | Some url, Some id =>
                                if truthy_value putUrl && truthy_value batchId then
                                  match fetch_put url fileData with
                                  | Rejected e => ([PostBatch; PutFile url], Rejected e)
                                  | Fulfilled putRes =>
                                      if negb (put_ok putRes) then
                                        match put_text putRes with
                                        | Rejected e =>
                                            ([PostBatch; PutFile url], Rejected e)
                                        | Fulfilled errText =>
                                            ([PostBatch; PutFile url],
                                             Rejected
                                               (s_put_failed
                                                ++ of_nat (put_status putRes)
                                                ++ lit ", error: " ++ errText))
                                        end
                                      else
                                        let '(calls, r) :=
                                          pollStatusAndDownload apiKey (text_of id) in
                                        (PostBatch :: PutFile url :: calls, r)
                                  end
                                else
                                  ([PostBatch],
                                   Rejected (s_unexpected ++ JSON_stringify batchData))
                            | _, _ =>
                                ([PostBatch],
                                 Rejected (s_unexpected ++ JSON_stringify batchData))
                            end
                        end
                  end
              end
        end
    end.

End Client.

End Mineru.


(* ================================================================== *)
(** ** Report attachments: attachPdfsToReport *)
(* ================================================================== *)

Module Attach.

(** The argument of [Zotero.Attachments.linkFromFile]. *)
Record Link := mkLink {
  link_file : jsstring;
  link_parentItemID : Z;
  link_title : jsstring
}.

Definition TITLE_PREFIX_LENGTH : nat := 30.

(** Lines 609-617: the title of the linked attachment. *)
Definition newTitle_of (paperTitle originalTitle : jsstring) : jsstring :=
  if truthy paperTitle then
    let titlePrefix :=
      if (TITLE_PREFIX_LENGTH <? length paperTitle)%nat
      then take TITLE_PREFIX_LENGTH paperTitle ++ lit "..."
      else paperTitle in
    lit "[" ++ titlePrefix ++ lit "] " ++ originalTitle
  else originalTitle.

Section Report.
(** [pdfAtt.getField("title")] and [pdfAtt.parentID], which is nothing
    when it is falsy. *)
Variable att_title : Attachment -> jsstring.
Variable att_parentID : Attachment -> option Z.
Variable getFilePathAsync : Attachment -> Settled jsstring.
(** [Zotero.Items.getAsync(parentID)], which may find no item. *)
Variable Items_getAsync : Z -> Settled (option Item).
Variable linkFromFile : Link -> Settled unit.

(** The state of the loop: the cache of titles and the links made. *)
Record Loop := mkLoop {
  parentTitleCache : gmap Z jsstring;
  links : list Link
}.

(** Lines 592-607: the title of the paper, from the cache when it is
    there, with the cache afterwards. *)
Definition paperTitle_of (cache : gmap Z jsstring) (pdfAtt : Attachment)
  : Settled (jsstring * gmap Z jsstring) :=
  match att_parentID pdfAtt with
  | None => Fulfilled ([], cache)
  | Some parentID =>
      match cache !! parentID with
      | Some title => Fulfilled (title, cache)
      | None =>
          match Items_getAsync parentID with
          | Rejected e => Rejected e
          | Fulfilled None => Fulfilled ([], cache)
          | Fulfilled (Some parent) =>
              let paperTitle := trim (item_title parent) in
              Fulfilled (paperTitle, <[parentID := paperTitle]> cache)
          end
      end
  end.

(** One turn of the loop; what is thrown in it is caught and the loop
    goes on with the next attachment. *)
Definition attach_one (reportItem_id : Z) (st : Loop) (pdfAtt : Attachment) : Loop :=
  match getFilePathAsync pdfAtt with
  | Rejected _ => st
  | Fulfilled filePath =>
      if negb (truthy filePath) then st
      else
        let originalTitle := or_else (att_title pdfAtt) (lit "PDF") in
        match paperTitle_of (parentTitleCache st) pdfAtt with
        | Rejected _ => st
        | Fulfilled (paperTitle, cache) =>
            let link :=
              {| link_file := filePath;
                 link_parentItemID := reportItem_id;
                 link_title := newTitle_of paperTitle originalTitle |} in
            match linkFromFile link with
            | Rejected _ => {| parentTitleCache := cache; links := links st |}
            | Fulfilled _ =>
                {| parentTitleCache := cache; links := links st ++ [link] |}
            end
        end
  end.

(** [attachPdfsToReport]: the links that were made, in order. *)
Definition attachPdfsToReport (reportItem_id : Z) (pdfAttachments : list Attachment)
  : list Link :=
  links (fold_left (attach_one reportItem_id) pdfAttachments
           {| parentTitleCache := ∅; links := [] |}).

End Report.

End Attach.

Import Cache.

(* ================================================================== *)
(** ** Strings: replacement, escapes and search *)
(* ================================================================== *)

(** A pattern without look-behind matches whatever stands before it. *)
Definition ignores_prev (m : option N -> jsstring -> option (nat * jsstring)) : Prop :=
  forall p q s, m p s = m q s.

Lemma replace_from_prev m (Hm : ignores_prev m) s : forall p q k,
  replace_from m p k s = replace_from m q k s.
Proof.
  induction s as [|c s IH]; intros p q k; simpl; [done|].
  destruct k; [|done]. by rewrite (Hm p q).
Qed.

Lemma replace_from_skip m s : forall p k, (k <= length s)%nat -> (0 < k)%nat ->
  replace_from m p k s = replace_from m (last (take k s)) 0 (drop k s).
Proof.
  induction s as [|c s IH]; intros p k Hk Hpos; simpl in *; [lia|].
  destruct k as [|k]; [lia|]. simpl.
  destruct k as [|k].
  - simpl. rewrite drop_0. done.
  - rewrite IH by lia. f_equal.
    change (take (S k) s) with (take (S k) s).
    destruct s; simpl in *; [lia|]. done.
Qed.

Lemma m_lit_ignores pat rep : ignores_prev (m_lit pat rep).
Proof. by intros p q s. Qed.

(** Replacing a pattern of one code unit works unit by unit. *)
Definition subst1 (c : N) (rep : jsstring) (x : N) : jsstring :=
  if x =? c then rep else [x].

Lemma replace_lit_unit c rep s : forall p,
  replace_from (m_lit [c] rep) p 0 s = flat_map (subst1 c rep) s.
Proof.
  induction s as [|x s IH]; intros p; [done|].
  simpl. unfold m_lit, subst1. simpl. rewrite N.eqb_sym.
  destruct (x =? c); simpl; by rewrite IH.
Qed.

Definition esc_all (x : N) : jsstring :=
  if x =? 38 then e_amp else if x =? 60 then e_lt else if x =? 62 then e_gt else [x].
Definition esc_ltgt (x : N) : jsstring :=
  if x =? 60 then e_lt else if x =? 62 then e_gt else [x].
Definition esc_gt (x : N) : jsstring :=
  if x =? 62 then e_gt else [x].

Lemma flat_map_app' {A B} (f : A -> list B) l1 l2 :
  flat_map f (l1 ++ l2) = flat_map f l1 ++ flat_map f l2.
Proof. induction l1; simpl; [done|]. by rewrite IHl1, app_assoc. Qed.

Lemma escapedRaw_flat t : escapedRaw t = flat_map esc_all t.
Proof.
  unfold escapedRaw, replace_lit, replace_g, s_gt, s_lt, s_amp.
  rewrite !replace_lit_unit.
  induction t as [|x t IH]; [done|].
  simpl. rewrite !flat_map_app', IH. f_equal.
  unfold subst1 at 3, esc_all.
  destruct (N.eqb_spec x 38) as [->|H38]; [done|].
  simpl. unfold subst1 at 2.
  destruct (N.eqb_spec x 60) as [->|H60]; [done|].
  simpl. unfold subst1.
  destruct (N.eqb_spec x 62) as [->|H62]; [done|]. by rewrite app_nil_r.
Qed.

Ltac case_unit x c :=
  let H := fresh "H" in
  destruct (N.eqb_spec x c) as [->|H].

Lemma neq_eqb (a b : N) : a <> b -> (b =? a) = false.
Proof. intros H. by apply N.eqb_neq. Qed.

Lemma replace_from_nomatch m p x s :
  m p (x :: s) = None ->
  replace_from m p 0 (x :: s) = x :: replace_from m (Some x) 0 s.
Proof. intros H. simpl. by rewrite H. Qed.

Lemma replace_from_match m p x s len rep :
  m p (x :: s) = Some (len, rep) ->
  replace_from m p 0 (x :: s) = rep ++ replace_from m (Some x) (Nat.pred len) s.
Proof. intros H. simpl. by rewrite H. Qed.

Lemma startsWith_head_ne a p x s : x <> a -> startsWith (a :: p) (x :: s) = false.
Proof. intros H. simpl. by rewrite (neq_eqb _ _ H). Qed.

Lemma flat_map_cons {A B} (f : A -> list B) x l :
  flat_map f (x :: l) = f x ++ flat_map f l.
Proof. done. Qed.

Lemma un_amp t : forall p,
  replace_from (m_lit e_amp s_amp) p 0 (flat_map esc_all t) = flat_map esc_ltgt t.
Proof.
  induction t as [|x t IH]; intros p; [done|].
  rewrite !flat_map_cons. unfold esc_all at 1, esc_ltgt at 1.
  case_unit x 38.
  { simpl. by rewrite IH. }
  case_unit x 60.
  { simpl. by rewrite IH. }
  case_unit x 62.
  { simpl. by rewrite IH. }
  cbn [app]. rewrite replace_from_nomatch; [by rewrite IH|].
  unfold m_lit, e_amp. by rewrite startsWith_head_ne.
Qed.

(** A pattern without the units of [&], [<] and [>] is seen through the
    escapes. *)
Definition plain (c : N) : bool := negb ((c =? 38) || (c =? 60) || (c =? 62)).

Lemma startsWith_esc_ltgt p : forallb plain p = true -> forall t,
  startsWith p (flat_map esc_ltgt t) = startsWith p t.
Proof.
  induction p as [|a p IH]; intros Hp t; [done|].
  simpl in Hp. apply andb_true_iff in Hp as [Ha Hp].
  destruct t as [|b t]; [done|].
  simpl. unfold esc_ltgt at 1. unfold plain in Ha.
  apply negb_true_iff, orb_false_iff in Ha as [Ha H62].
  apply orb_false_iff in Ha as [H38 H60].
  case_unit b 60.
  { simpl. rewrite H38, H60. done. }
  case_unit b 62.
  { simpl. rewrite H38, H62. done. }
  simpl. by rewrite IH.
Qed.

Lemma startsWith_esc_gt p : forallb plain p = true -> forall t,
  startsWith p (flat_map esc_gt t) = startsWith p t.
Proof.
  induction p as [|a p IH]; intros Hp t; [done|].
  simpl in Hp. apply andb_true_iff in Hp as [Ha Hp].
  destruct t as [|b t]; [done|].
  simpl. unfold esc_gt at 1. unfold plain in Ha.
  apply negb_true_iff, orb_false_iff in Ha as [Ha H62].
  apply orb_false_iff in Ha as [H38 H60].
  case_unit b 62.
  { simpl. rewrite H38, H62. done. }
  simpl. by rewrite IH.
Qed.

Lemma includes_cons_false p x t :
  includes p (x :: t) = false -> startsWith p (x :: t) = false /\ includes p t = false.
Proof. simpl. intros H. by apply orb_false_iff in H. Qed.

Lemma un_lt t : includes e_lt t = false -> forall p,
  replace_from (m_lit e_lt s_lt) p 0 (flat_map esc_ltgt t) = flat_map esc_gt t.
Proof.
  induction t as [|x t IH]; intros Hno p; [done|].
  apply includes_cons_false in Hno as [Hs Hno].
  rewrite !flat_map_cons. unfold esc_ltgt at 1, esc_gt at 1.
  case_unit x 60.
  { simpl. by rewrite IH. }
  case_unit x 62.
  { simpl. by rewrite IH. }
  cbn [app]. rewrite replace_from_nomatch; [by rewrite IH|].
  unfold m_lit.
  replace (startsWith e_lt (x :: flat_map esc_ltgt t)) with false; [done|].
  symmetry. unfold e_lt in *.
  change (startsWith [38; 108; 116; 59] (x :: t))
    with ((38 =? x) && startsWith [108; 116; 59] t) in Hs.
  change (startsWith [38; 108; 116; 59] (x :: flat_map esc_ltgt t))
    with ((38 =? x) && startsWith [108; 116; 59] (flat_map esc_ltgt t)).
  by rewrite startsWith_esc_ltgt.
Qed.

Lemma un_gt t : includes e_gt t = false -> forall p,
  replace_from (m_lit e_gt s_gt) p 0 (flat_map esc_gt t) = t.
Proof.
  induction t as [|x t IH]; intros Hno p; [done|].
  apply includes_cons_false in Hno as [Hs Hno].
  rewrite !flat_map_cons. unfold esc_gt at 1.
  case_unit x 62.
  { simpl. by rewrite IH. }
  cbn [app]. rewrite replace_from_nomatch; [by rewrite IH|].
  unfold m_lit.
  replace (startsWith e_gt (x :: flat_map esc_gt t)) with false; [done|].
  symmetry. unfold e_gt in *.
  change (startsWith [38; 103; 116; 59] (x :: t))
    with ((38 =? x) && startsWith [103; 116; 59] t) in Hs.
  change (startsWith [38; 103; 116; 59] (x :: flat_map esc_gt t))
    with ((38 =? x) && startsWith [103; 116; 59] (flat_map esc_gt t)).
  by rewrite startsWith_esc_gt.
Qed.

Lemma replace_lit_absent pat rep t : includes pat t = false -> forall p,
  replace_from (m_lit pat rep) p 0 t = t.
Proof.
  induction t as [|x t IH]; intros Hno p; [done|].
  apply includes_cons_false in Hno as [Hs Hno].
  cbn [app]. rewrite replace_from_nomatch; [by rewrite IH|].
  unfold m_lit. by rewrite Hs.
Qed.

Lemma unescape_escape t :
  includes e_lt t = false -> includes e_gt t = false -> includes e_quot t = false ->
  unescapeRaw (escapedRaw t) = trim t.
Proof.
  intros Hlt Hgt Hq. unfold unescapeRaw, replace_lit, replace_g.
  rewrite escapedRaw_flat, un_amp, un_lt, un_gt, replace_lit_absent; done.
Qed.

(** *** [includes] and [startsWith] *)
Definition lacks (c : N) (p : jsstring) : bool := forallb (fun x => negb (x =? c)) p.

Lemma startsWith_app p : forall a b, startsWith p a = true -> startsWith p (a ++ b) = true.
Proof.
  induction p as [|x p IH]; intros a b H; [done|].
  destruct a as [|y a]; [done|]. simpl in *.
  apply andb_true_iff in H as [-> H]. simpl. by apply IH.
Qed.

Lemma includes_app_r p a : forall b, includes p a = true -> includes p (a ++ b) = true.
Proof.
  induction a as [|y a IH]; intros b H.
  - simpl in H. rewrite orb_false_r in H. destruct p; [|done]. by destruct b.
  - simpl in H. apply orb_true_iff in H as [H|H].
    + change ((y :: a) ++ b) with (y :: (a ++ b)).
      cbn [includes]. apply orb_true_iff. left.
      by apply (startsWith_app p (y :: a) b).
    + change ((y :: a) ++ b) with (y :: (a ++ b)).
      cbn [includes]. apply orb_true_iff. right. by apply IH.
Qed.

Lemma includes_app_l p a : forall b, includes p b = true -> includes p (a ++ b) = true.
Proof.
  induction a as [|y a IH]; intros b H; [done|].
  change ((y :: a) ++ b) with (y :: (a ++ b)).
  cbn [includes]. apply orb_true_iff. right. by apply IH.
Qed.

Lemma includes_infix p a s b : includes p s = true -> includes p (a ++ s ++ b) = true.
Proof. intros H. by apply includes_app_l, includes_app_r. Qed.

Lemma startsWith_across p c : lacks c p = true -> forall a b,
  startsWith p (a ++ c :: b) = true -> startsWith p a = true.
Proof.
  induction p as [|x p IH]; intros Hc a b H; [done|].
  simpl in Hc. apply andb_true_iff in Hc as [Hx Hc].
  destruct a as [|y a].
  - simpl in H. apply andb_true_iff in H as [H _].
    apply N.eqb_eq in H as ->. by rewrite N.eqb_refl in Hx.
  - simpl in *. apply andb_true_iff in H as [-> H]. simpl. by apply (IH Hc a b).
Qed.

Lemma includes_join_false p c a b :
  lacks c p = true -> includes p a = false -> includes p b = false ->
  includes p (a ++ c :: b) = false.
Proof.
  intros Hc. revert b. induction a as [|y a IH]; intros b Ha Hb.
  - cbn [app includes]. rewrite Hb, orb_false_r.
    destruct (startsWith p (c :: b)) eqn:E; [|done].
    apply (startsWith_across p c Hc [] b) in E. simpl in Ha.
    by rewrite E in Ha.
  - apply includes_cons_false in Ha as [Hs Ha].
    change ((y :: a) ++ c :: b) with (y :: (a ++ c :: b)).
    cbn [includes]. rewrite IH by done. rewrite orb_false_r.
    destruct (startsWith p (y :: a ++ c :: b)) eqn:E; [|done].
    apply (startsWith_across p c Hc (y :: a) b) in E. by rewrite E in Hs.
Qed.

(** *** Cutting at the first occurrence *)
Lemma break_at_spec c s a b : break_at c s = Some (a, b) -> s = a ++ c :: b /\ lacks c a = true.
Proof.
  revert a b. induction s as [|x s IH]; intros a b H; [done|].
  simpl in H. destruct (N.eqb_spec x c) as [->|Hx].
  - by injection H as <- <-.
  - destruct (break_at c s) as [[a' b']|]; [|done].
    injection H as <- <-. destruct (IH a' b' eq_refl) as [-> Hl].
    split; [done|]. simpl. rewrite Hl. by apply N.eqb_neq in Hx as ->.
Qed.

Lemma break_at_app c s h a b :
  break_at c s = Some (a, b) -> break_at c (s ++ h) = Some (a, b ++ h).
Proof.
  revert a b. induction s as [|x s IH]; intros a b H; [done|].
  simpl in *. destruct (x =? c); [by injection H as <- <-|].
  destruct (break_at c s) as [[a' b']|]; [|done].
  injection H as <- <-. by rewrite (IH a' b' eq_refl).
Qed.

Lemma break_at_last c s : last s = Some c -> is_Some (break_at c s).
Proof.
  induction s as [|x s IH]; intros H; [done|].
  simpl. destruct (N.eqb_spec x c) as [->|Hx]; [done|].
  destruct s as [|y s].
  - simpl in H. congruence.
  - destruct (IH H) as [[a b] ->]. done.
Qed.

(** *** The region that holds the raw table *)
Lemma raw_match_unfold s :
  raw_match s = match raw_match_here s with
                | Some cap => Some cap
                | None => match s with [] => None | _ :: s' => raw_match s' end
                end.
Proof. by destruct s. Qed.

Lemma startsWith_spec p : forall s, startsWith p s = true -> exists r, s = p ++ r.
Proof.
  induction p as [|x p IH]; intros s H; [by exists s|].
  destruct s as [|y s]; [done|]. simpl in H.
  apply andb_true_iff in H as [Hx H]. apply N.eqb_eq in Hx as ->.
  destruct (IH s H) as [r ->]. by exists r.
Qed.

Lemma raw_match_here_prefix P H :
  last P = Some 62 -> includes raw_attr P = false -> raw_match_here (P ++ H) = None.
Proof.
  intros Hl Hno. unfold raw_match_here.
  destruct (startsWith open_div (P ++ H) || startsWith open_pre (P ++ H)) eqn:E; [|done].
  assert (exists a b c d e P', P = a :: b :: c :: d :: e :: P') as (a & b & c & d & e & P' & ->).
  { apply orb_true_iff in E as [E|E]; apply startsWith_spec in E as [r E];
      destruct P as [|a [|b [|c [|d [|e P]]]]]; simpl in Hl; simplify_eq/=; eauto 10. }
  change (drop 4 ((a :: b :: c :: d :: e :: P') ++ H)) with ((e :: P') ++ H).
  assert (last (e :: P') = Some 62) as Hl' by done.
  destruct (break_at_last _ _ Hl') as [[attrs body] Hb].
  rewrite (break_at_app _ _ H _ _ Hb).
  destruct (includes raw_attr attrs) eqn:Hi; [|done].
  apply break_at_spec in Hb as [Hb _].
  apply (includes_infix raw_attr [a; b; c; d] attrs (62 :: body)) in Hi.
  rewrite <- Hb in Hi. cbn [app] in Hi. congruence.
Qed.

Lemma raw_match_prefix H P :
  P = [] \/ last P = Some 62 -> includes raw_attr P = false ->
  raw_match (P ++ H) = raw_match H.
Proof.
  induction P as [|x P IH]; intros Hl Hno; [done|].
  destruct Hl as [|Hl]; [done|].
  rewrite raw_match_unfold, raw_match_here_prefix by done.
  apply includes_cons_false in Hno as [_ Hno].
  cbn [app]. apply IH; [|done].
  destruct P; [by left | by right].
Qed.

Lemma capture_until_close_ok e :
  lacks 60 e = true -> capture_until_close (e ++ close_div) = Some e.
Proof.
  induction e as [|c e IH]; intros Hl; [done|].
  simpl in Hl. apply andb_true_iff in Hl as [Hc Hl].
  apply negb_true_iff, N.eqb_neq in Hc.
  cbn [app capture_until_close].
  unfold close_div at 1, close_pre at 1. rewrite !startsWith_head_ne by done.
  cbn [orb]. by rewrite IH.
Qed.

Lemma escaped_lacks_lt t : lacks 60 (flat_map esc_all t) = true.
Proof.
  induction t as [|x t IH]; [done|].
  rewrite flat_map_cons. unfold lacks in *. rewrite forallb_app, IH, andb_true_r.
  unfold esc_all.
  case_unit x 38; [done|]. case_unit x 60; [done|]. case_unit x 62; [done|].
  simpl. apply N.eqb_neq in H0. by rewrite H0.
Qed.

Lemma raw_match_here_div e :
  lacks 60 e = true -> raw_match_here (raw_div_open ++ e ++ close_div) = Some e.
Proof.
  intros Hl. unfold raw_match_here, raw_div_open.
  cbn -[capture_until_close close_div].
  by apply capture_until_close_ok.
Qed.

(** *** Notes in the store *)
Lemma getNotes_saveTx st item n :
  getNotes (saveTx st item n) item = getNotes st item ++ [Some n].
Proof. unfold getNotes at 1, saveTx. by rewrite lookup_insert_eq. Qed.

Lemma findIn_firstTagged l :
  findIn l = firstTagged l ≫= (fun n => readTableNote (note_html n)).
Proof.
  induction l as [|[n|] l IH]; simpl; try done.
  by destruct (hasTableTag n).
Qed.

Lemma firstTagged_app_None l r : firstTagged l = None -> firstTagged (l ++ r) = firstTagged r.
Proof.
  induction l as [|[n|] l IH]; simpl; try done.
  by destruct (hasTableTag n).
Qed.

Lemma firstTagged_app_Some l r n : firstTagged l = Some n -> firstTagged (l ++ r) = Some n.
Proof.
  induction l as [|[n'|] l IH]; simpl; try done.
  by destruct (hasTableTag n').
Qed.

Section SaveFacts.
Variable marked_parse : jsstring -> jsstring.

Lemma hasTableTag_new item t : hasTableTag (newTableNote marked_parse item t) = true.
Proof. done. Qed.

Definition notePrefix (item : Item) (t : jsstring) : jsstring :=
  (lit "<h2>" ++ s_heading ++ itemTitle item ++ lit "</h2>")
  ++ (lit "<div>" ++ renderedHtml marked_parse t ++ lit "</div>").

Lemma noteHtml_split item t :
  noteHtml marked_parse item t
  = notePrefix item t ++ (raw_div_open ++ escapedRaw t ++ close_div).
Proof. unfold noteHtml, notePrefix. by rewrite app_assoc. Qed.

Lemma notePrefix_last item t : last (notePrefix item t) = Some 62.
Proof.
  unfold notePrefix.
  change (lit "</div>") with ([60; 47; 100; 105; 118] ++ [62]).
  rewrite !app_assoc. apply last_snoc.
Qed.

Lemma notePrefix_clean item t :
  includes raw_attr (itemTitle item) = false ->
  includes raw_attr (renderedHtml marked_parse t) = false ->
  includes raw_attr (notePrefix item t) = false.
Proof.
  intros Ht Hr.
  assert (notePrefix item t
          = [60; 104; 50; 62; 55357; 56522; 32; 25991; 29486; 34920; 26684; 32; 45]
            ++ 32 :: (itemTitle item
            ++ 60 :: ([47; 104; 50; 62; 60; 100; 105; 118]
            ++ 62 :: (renderedHtml marked_parse t
            ++ 60 :: [47; 100; 105; 118; 62])))) as ->.
  { unfold notePrefix.
    change (lit "<h2>") with [60; 104; 50; 62].
    change (lit "</h2>") with [60; 47; 104; 50; 62].
    change (lit "<div>") with [60; 100; 105; 118; 62].
    change (lit "</div>") with [60; 47; 100; 105; 118; 62].
    unfold s_heading. by rewrite <- !app_assoc. }
  repeat (apply includes_join_false; [done|try done|try done]).
Qed.

Lemma readTableNote_new item t :
  includes raw_attr (itemTitle item) = false ->
  includes raw_attr (renderedHtml marked_parse t) = false ->
  t <> [] ->
  readTableNote (noteHtml marked_parse item t) = or_null (unescapeRaw (escapedRaw t)).
Proof.
  intros Ht Hr Hne. unfold readTableNote.
  rewrite noteHtml_split, raw_match_prefix.
  2:{ right. apply notePrefix_last. }
  2:{ by apply notePrefix_clean. }
  rewrite raw_match_unfold, escapedRaw_flat, raw_match_here_div by apply escaped_lacks_lt.
  destruct t as [|x t]; [done|].
  rewrite flat_map_cons. unfold esc_all at 1.
  by destruct (x =? 38), (x =? 60), (x =? 62).
Qed.
End SaveFacts.

Import Cache.

(* ================================================================== *)
(** ** TableCache: round trip and first-store-wins *)
(* ================================================================== *)

Lemma trimStart_head s c r : trimStart s = c :: r -> is_ws c = false.
Proof.
  induction s as [|x s IH]; [done|]. simpl.
  destruct (is_ws x) eqn:E; [done|]. intros [= <- <-]. done.
Qed.

Lemma trimStart_snoc l c : is_ws c = false -> trimStart (l ++ [c]) = trimStart l ++ [c].
Proof.
  intros Hc. induction l as [|x l IH]; simpl; [by rewrite Hc|].
  by destruct (is_ws x).
Qed.

Lemma trimEnd_cons c r : is_ws c = false -> trimEnd (c :: r) = c :: trimEnd r.
Proof.
  intros Hc. unfold trimEnd. simpl. rewrite trimStart_snoc by done.
  by rewrite rev_app_distr.
Qed.

(** Whatever [trim] returns does not start with white space. *)
Lemma trim_head s c r : trim s = c :: r -> is_ws c = false.
Proof.
  unfold trim. destruct (trimStart s) as [|x s'] eqn:E; [done|].
  pose proof (trimStart_head _ _ _ E) as Hx.
  rewrite trimEnd_cons by done. by intros [= <- <-].
Qed.

Lemma or_null_Some s r : or_null s = Some r -> r = s /\ s <> [].
Proof. unfold or_null. destruct s; [done|]. by intros [= <-]. Qed.

Lemma readTableNote_head html c r : readTableNote html = Some (c :: r) -> is_ws c = false.
Proof.
  unfold readTableNote, unescapeRaw.
  destruct (raw_match html) as [cap|]; [destruct (truthy cap)|];
    intros H; apply or_null_Some in H as [H _]; symmetry in H;
    by apply trim_head in H.
Qed.

Lemma findTableNote_head st item c r :
  findTableNote st item = Some (c :: r) -> is_ws c = false.
Proof.
  unfold findTableNote. rewrite findIn_firstTagged.
  destruct (firstTagged (getNotes st item)) as [n|]; [|done].
  apply readTableNote_head.
Qed.

Lemma findTableNote_nonempty st item e : findTableNote st item = Some e -> truthy e = true.
Proof.
  unfold findTableNote. rewrite findIn_firstTagged.
  destruct (firstTagged (getNotes st item)) as [n|]; [|done]. simpl.
  unfold readTableNote.
  destruct (raw_match (note_html n)) as [cap|]; [destruct (truthy cap)|];
    intros H; apply or_null_Some in H as [-> H];
    match goal with |- truthy ?x = true => by destruct x end.
Qed.

Section CacheTheorems.
Variable marked_parse : jsstring -> jsstring.

Lemma saveTableNote_fresh st item t :
  firstTagged (getNotes st item) = None ->
  saveTableNote marked_parse st item t = createTableNote marked_parse st item t.
Proof.
  intros H. unfold saveTableNote, findTableNote.
  by rewrite findIn_firstTagged, H.
Qed.

Lemma firstTagged_after_create st item t :
  firstTagged (getNotes st item) = None ->
  firstTagged (getNotes (snd (createTableNote marked_parse st item t)) item)
  = Some (newTableNote marked_parse item t).
Proof.
  intros H. unfold createTableNote. cbn [snd].
  by rewrite getNotes_saveTx, firstTagged_app_None.
Qed.

Lemma saveTableNote_hit st item t n e :
  findTableNote st item = Some e -> firstTagged (getNotes st item) = Some n ->
  saveTableNote marked_parse st item t = (n, st).
Proof.
  intros He Hn. unfold saveTableNote. rewrite He, Hn.
  by rewrite (findTableNote_nonempty _ _ _ He).
Qed.

(** C1 (amended): a text that is not empty, has no white space at either
    end and holds none of the entity strings [&lt;], [&gt;], [&quot;] is read
    back exactly as it was stored, when the item has no table note yet and
    neither the title nor the rendered display form names the attribute
    [data-ai-table-raw]. *)
Theorem roundtrip_verbatim st item t :
  firstTagged (getNotes st item) = None ->
  includes raw_attr (itemTitle item) = false ->
  includes raw_attr (renderedHtml marked_parse t) = false ->
  truthy t = true ->
  trim t = t ->
  includes e_lt t = false ->
  includes e_gt t = false ->
  includes e_quot t = false ->
  findTableNote (snd (saveTableNote marked_parse st item t)) item = Some t.
Proof.
  intros Hfresh Htitle Hrender Hne Htrim Hlt Hgt Hquot.
  rewrite saveTableNote_fresh by done.
  unfold findTableNote. rewrite findIn_firstTagged, firstTagged_after_create by done.
  cbn [mbind option_bind newTableNote note_html].
  rewrite readTableNote_new by (done || by destruct t).
  rewrite unescape_escape, Htrim by done.
  by destruct t.
Qed.

End CacheTheorems.

(** A stand-in for [marked.parse] in the examples: the text as one
    paragraph. *)
Definition one_paragraph (md : jsstring) : jsstring :=
  lit "<p>" ++ md ++ lit "</p>".

Definition nicoleau2014 : Item :=
  {| item_id := 7;
     item_key := lit "ABCD2345";
     item_title := lit "Accelerated growth of calcium silicate hydrates";
     item_date := lit "2014-03-01";
     item_creators := [ {| lastName := lit "Nicoleau"; name := [] |} ] |}.

Lemma roundtrip_verbatim_witness :
  findTableNote
    (snd (saveTableNote one_paragraph ∅ nicoleau2014
            (lit "| a & b | x<y | y>z |")))
    nicoleau2014
  = Some (lit "| a & b | x<y | y>z |").
Proof.
  apply (roundtrip_verbatim one_paragraph ∅ nicoleau2014
           (lit "| a & b | x<y | y>z |")); vm_compute; reflexivity.
Defined.

(** C1 as stated fails: a text with leading white space never comes back,
    whatever the renderer and the store; on the empty store the answer is
    the trimmed text. *)
Lemma roundtrip_trims_text :
  (forall marked_parse st item,
      findTableNote (snd (saveTableNote marked_parse st item (lit " a"))) item
      <> Some (lit " a"))
  /\ findTableNote (snd (saveTableNote one_paragraph ∅ nicoleau2014 (lit " a")))
       nicoleau2014
     = Some (lit "a").
Proof.
  split; [|by vm_compute].
  intros marked_parse st item H.
  by apply findTableNote_head in H.
Qed.

(** The entity strings are decoded once too often on the way back. *)
Example roundtrip_decodes_entities :
  findTableNote (snd (saveTableNote one_paragraph ∅ nicoleau2014 (lit "a &lt; b")))
    nicoleau2014
  = Some (lit "a < b").
Proof. by vm_compute. Qed.



Import Cache.

(* ================================================================== *)
(** ** Aggregator: one header, entries in insertion order *)
(* ================================================================== *)

Module AggregateFacts.
Import Aggregate.

(** The lines a table is scanned by: trimmed, the empty ones left out. *)
Definition scanned_lines (md : jsstring) : list jsstring :=
  filter (fun l => truthy l = true) (map trim (split_on 10 md)).

Definition is_row (l : jsstring) : bool := startsWith [pipe] l.

(** The rows up to and including the first separator, and the rows after it. *)
Fixpoint through_separator (rows : list jsstring) : list jsstring :=
  match rows with
  | [] => []
  | r :: rows' => if is_separator r then [r] else r :: through_separator rows'
  end.

Fixpoint after_separator (rows : list jsstring) : list jsstring :=
  match rows with
  | [] => []
  | r :: rows' => if is_separator r then rows' else after_separator rows'
  end.

Definition rows_of (ls : list jsstring) : list jsstring :=
  filter (fun l => is_row l = true) ls.

Definition free_text_of (ls : list jsstring) : list jsstring :=
  filter (fun l => is_row l = false) ls.

Lemma scan_lines_spec lines : forall a,
  let ls := filter (fun l => truthy l = true) (map trim lines) in
  let r := fold_left scan_line lines a in
  nonTableLines r = nonTableLines a ++ free_text_of ls
  /\ (headerDone a = true ->
        headerLines r = headerLines a /\ dataLines r = dataLines a ++ rows_of ls)
  /\ (headerDone a = false ->
        headerLines r = headerLines a ++ through_separator (rows_of ls)
        /\ dataLines r = dataLines a ++ after_separator (rows_of ls)).
Proof.
  induction lines as [|line lines IH]; intros a.
  { cbn. rewrite !app_nil_r. done. }
  cbn [fold_left map]. specialize (IH (scan_line a line)).
  cbn zeta in *. destruct IH as (Hn & Hd & Hh).
  unfold scan_line in *.
  destruct (truthy (trim line)) eqn:Et; cbn [negb] in *.
  2:{ rewrite filter_cons_False by congruence. done. }
  rewrite filter_cons_True by done.
  unfold rows_of, free_text_of in *.
  destruct (startsWith [pipe] (trim line)) eqn:Ep.
  - rewrite (filter_cons_True (fun l => is_row l = true)) by done.
    rewrite (filter_cons_False (fun l => is_row l = false))
      by (unfold is_row; congruence).
    destruct (headerDone a) eqn:Ea; cbn [negb] in *.
    + cbn in *. split; [done|]. split; [|done]. intros _.
      destruct (Hd eq_refl) as [-> ->]. by rewrite <- app_assoc.
    + cbn in *. split; [done|]. split; [done|]. intros _.
      destruct (is_separator (trim line)) eqn:Es; cbn in *.
      * by destruct (Hd eq_refl) as [-> ->].
      * destruct (Hh eq_refl) as [-> ->]. by rewrite <- !app_assoc.
  - rewrite (filter_cons_False (fun l => is_row l = true))
      by (unfold is_row; congruence).
    rewrite (filter_cons_True (fun l => is_row l = false)) by done.
    cbn in *. rewrite Hn, <- app_assoc. done.
Qed.

(** [splitTableHeaderAndRows] by what its loop computes: the header is the
    rows up to and including the first separator line, the data rows are
    the rows after it, and the other lines are kept apart. *)
Lemma splitTableHeaderAndRows_spec md :
  header (splitTableHeaderAndRows md)
    = join nl (through_separator (rows_of (scanned_lines md)))
  /\ dataRows (splitTableHeaderAndRows md)
    = join nl (after_separator (rows_of (scanned_lines md)))
  /\ nonTableContent (splitTableHeaderAndRows md)
    = join nl (free_text_of (scanned_lines md)).
Proof.
  unfold splitTableHeaderAndRows, scanned_lines. cbn zeta.
  destruct (scan_lines_spec (split_on 10 md)
              {| headerLines := []; dataLines := []; nonTableLines := [];
                 headerDone := false |}) as (Hn & _ & Hh).
  cbn zeta in *. destruct (Hh eq_refl) as [H1 H2]. cbn in *.
  by rewrite Hn, H1, H2.
Qed.

(** The header of the first table that has one, or the empty string. *)
Fixpoint first_header (tables : list jsstring) : jsstring :=
  match tables with
  | [] => []
  | t :: ts =>
      if truthy (header (splitTableHeaderAndRows t))
      then header (splitTableHeaderAndRows t)
      else first_header ts
  end.

(** What one entry holds: the label, the lines outside the table, and
    then the data rows alone, or the whole table when there are none. *)
Definition entry_block (itemMap : gmap Z Item) (index : nat) (kv : Z * jsstring)
  : jsstring :=
  label_of itemMap index (fst kv)
  ++ (if truthy (nonTableContent (splitTableHeaderAndRows (snd kv)))
      then nl ++ nonTableContent (splitTableHeaderAndRows (snd kv)) else [])
  ++ nl
  ++ (if truthy (dataRows (splitTableHeaderAndRows (snd kv)))
      then dataRows (splitTableHeaderAndRows (snd kv)) else snd kv).

Lemma entry_of_block itemMap i kv :
  entry_of (label_of itemMap i (fst kv)) (snd kv) (splitTableHeaderAndRows (snd kv))
  = entry_block itemMap i kv.
Proof.
  unfold entry_of, entry_block. cbn zeta.
  destruct (truthy (nonTableContent _)), (truthy (dataRows _));
    by rewrite <- ?app_assoc.
Qed.

Lemma loop_spec itemMap results : forall st,
  let r := fold_left (loop_body itemMap) results st in
  globalHeader r
    = (if truthy (globalHeader st) then globalHeader st
       else first_header (map snd results))
  /\ parts r
    = parts st ++ imap (fun i kv => entry_block itemMap (index st + i) kv) results
  /\ index r = (index st + length results)%nat.
Proof.
  induction results as [|[k v] results IH]; intros st; cbn zeta.
  { cbn. rewrite app_nil_r, Nat.add_0_r. by destruct (globalHeader st). }
  cbn [fold_left]. specialize (IH (loop_body itemMap st (k, v))).
  cbn zeta in IH. destruct IH as (Hg & Hp & Hi).
  rewrite Hg, Hp, Hi. cbn [loop_body globalHeader parts index map snd first_header].
  split; [|split].
  - destruct (truthy (globalHeader st)) eqn:E1; cbn [negb andb]; [by rewrite E1|].
    destruct (truthy (header (splitTableHeaderAndRows v))) eqn:E2; [by rewrite E2|].
    by rewrite E1.
  - rewrite <- app_assoc. f_equal. cbn [imap app]. f_equal.
    + rewrite Nat.add_0_r. apply (entry_of_block itemMap (index st) (k, v)).
    + apply imap_ext. intros i x _. cbn. f_equal. lia.
  - cbn [length]. lia.
Qed.


(** The number of places where [p] occurs in [s]. *)
Fixpoint count_sub (p s : jsstring) : nat :=
  (if startsWith p s then 1 else 0)
  + match s with [] => 0 | _ :: s' => count_sub p s' end.

Definition two_columns : jsstring := lit "| a | b |" ++ nl ++ lit "|---|---|".

Definition with_row (row : string) : jsstring := two_columns ++ nl ++ lit row.

(** Three tables with one header and different rows: one header, three
    entries, in the order of insertion. *)
Example aggregate_three_tables :
  aggregateTableContents
    [(3%Z, with_row "| 1 | 2 |"); (1%Z, with_row "| 3 | 4 |");
     (2%Z, with_row "| 5 | 6 |")] []
  = s_preamble ++ two_columns ++ s_rule
    ++ (s_label ++ lit "1**" ++ nl ++ lit "| 1 | 2 |") ++ s_rule
    ++ (s_label ++ lit "2**" ++ nl ++ lit "| 3 | 4 |") ++ s_rule
    ++ (s_label ++ lit "3**" ++ nl ++ lit "| 5 | 6 |")
  /\ count_sub two_columns
       (aggregateTableContents
          [(3%Z, with_row "| 1 | 2 |"); (1%Z, with_row "| 3 | 4 |");
           (2%Z, with_row "| 5 | 6 |")] []) = 1%nat.
Proof. by vm_compute. Qed.


End AggregateFacts.

Import Cache.

(* ================================================================== *)
(** ** ParallelFillScheduler: what every schedule does *)
(* ================================================================== *)

Module SchedFacts.
Import Sched.
Local Open Scope nat_scope.

Definition ev_pos (e : Event) : nat :=
  match e with
  | EvFind p _ | EvFill p _ | EvSave p _ | EvSet p _ _ | EvProgress p _ _ => p
  end.

(** The events of the pair at index [p], in order. *)
Definition events_of (p : nat) (tr : list Event) : list Event :=
  filter (fun e => ev_pos e = p) tr.

(** The arguments of the progress callback, call after call. *)
Definition progress_of (tr : list Event) : list (nat * nat) :=
  omap (fun e => match e with EvProgress _ c t => Some (c, t) | _ => None end) tr.

(** The numbers of the calls of [fillTableForSinglePDF]. *)
Definition fills_of (tr : list Event) : list nat :=
  omap (fun e => match e with EvFill _ k => Some k | _ => None end) tr.

(** The map that the [results.set] calls of a trace build. *)
Definition replay (tr : list Event) (m : JsMap.t) : JsMap.t :=
  fold_left (fun m e => match e with
                        | EvSet _ itemId text => JsMap.set itemId text m
                        | _ => m
                        end) tr m.

Definition task_of (w : Worker) : option Task :=
  match w with
  | AwaitFind t _ | AwaitFill t _ | AwaitSaveFind t _ _ | AwaitSaveTx t _ _ => Some t
  | Finished => None
  end.

Definition busy (w : Worker) : nat := if is_finished w then 0 else 1.

Definition busy_count (ws : list Worker) : nat := sum_list_with busy ws.

(** How the work on one pair ended. *)
Inductive Outcome :=
| Hit (text : jsstring)                    (* the cache had a table *)
| Stored (call : nat) (table : jsstring)   (* extracted and saved *)
| Failed (call : nat) (message : jsstring) (* the extractor threw *).

Definition outcome_text (o : Outcome) : jsstring :=
  match o with
  | Hit text => text
  | Stored _ table => table
  | Failed _ message => placeholder message
  end.

(** The events of a pair that is done, by its outcome; [c] is the count
    given to the progress callback. *)
Definition history (total : nat) (t : Task) (o : Outcome) (c : nat) : list Event :=
  match o with
  | Hit text =>
      [EvFind (pos t) (Some text);
       EvSet (pos t) (task_id t) text; EvProgress (pos t) c total]
  | Stored k table =>
      [EvFind (pos t) None; EvFill (pos t) k; EvSave (pos t) table;
       EvSet (pos t) (task_id t) table; EvProgress (pos t) c total]
  | Failed k message =>
      [EvFind (pos t) None; EvFill (pos t) k;
       EvSet (pos t) (task_id t) (placeholder message);
       EvProgress (pos t) c total]
  end.

Lemma events_of_app p a b : events_of p (a ++ b) = events_of p a ++ events_of p b.
Proof. apply filter_app. Qed.

Lemma progress_of_app a b : progress_of (a ++ b) = progress_of a ++ progress_of b.
Proof. apply omap_app. Qed.

Lemma fills_of_app a b : fills_of (a ++ b) = fills_of a ++ fills_of b.
Proof. apply omap_app. Qed.

Lemma replay_app a b m : replay (a ++ b) m = replay b (replay a m).
Proof. apply fold_left_app. Qed.

Lemma busy_count_insert ws i w w' :
  ws !! i = Some w ->
  busy_count (<[i := w']> ws) + busy w = busy_count ws + busy w'.
Proof.
  revert i. induction ws as [|x ws IH]; intros [|i] H; simplify_eq/=.
  - unfold busy_count. simpl. lia.
  - unfold busy_count in *. simpl. specialize (IH i H). lia.
Qed.

Lemma busy_count_snoc ws w : busy_count (ws ++ [w]) = busy_count ws + busy w.
Proof.
  unfold busy_count. rewrite sum_list_with_app. simpl. lia.
Qed.

Lemma tasks_of_lookup (items : list Pair) p t :
  tasks_of items !! p = Some t -> pos t = p.
Proof.
  unfold tasks_of. rewrite list_lookup_imap.
  destruct (items !! p); simpl; [|done]. by intros [= <-].
Qed.

Lemma tasks_of_length (items : list Pair) : length (tasks_of items) = length items.
Proof. apply length_imap. Qed.

Lemma jsmap_get_set k v m : JsMap.get k (JsMap.set k v m) = Some v.
Proof.
  induction m as [|[k' v'] m IH]; cbn; [by rewrite Z.eqb_refl|].
  destruct (Z.eqb_spec k' k) as [->|Hne]; cbn.
  - by rewrite Z.eqb_refl.
  - by apply Z.eqb_neq in Hne as ->.
Qed.

Lemma jsmap_get_set_ne k k' v m : k' <> k -> JsMap.get k' (JsMap.set k v m) = JsMap.get k' m.
Proof.
  intros Hne. induction m as [|[k0 v0] m IH]; cbn.
  - apply not_eq_sym, Z.eqb_neq in Hne. by rewrite Hne.
  - destruct (Z.eqb_spec k0 k) as [->|H0]; cbn; [|by rewrite IH].
    apply not_eq_sym, Z.eqb_neq in Hne. by rewrite Hne.
Qed.

(** An entry of the replayed map is the text of a [results.set] of the
    trace, or was in the map before. *)
Lemma replay_get tr : forall m k text,
  JsMap.get k (replay tr m) = Some text ->
  (exists p, EvSet p k text ∈ tr) \/ JsMap.get k m = Some text.
Proof.
  induction tr as [|e tr IH]; intros m k text H; [by right|].
  cbn [replay fold_left] in H. apply IH in H as [[p Hp]|H].
  { left. exists p. by apply list_elem_of_further. }
  destruct e as [| | |p k' text'|]; try by right.
  destruct (decide (k = k')) as [->|Hne].
  - rewrite jsmap_get_set in H. injection H as <-.
    left. exists p. apply list_elem_of_here.
  - rewrite jsmap_get_set_ne in H by done. by right.
Qed.

Lemma replay_set_is_Some tr : forall m p k text,
  EvSet p k text ∈ tr -> is_Some (JsMap.get k (replay tr m)).
Proof.
  assert (forall tr m k, is_Some (JsMap.get k m) -> is_Some (JsMap.get k (replay tr m)))
    as Hkeep.
  { clear. induction tr as [|e tr IH]; intros m k H; [done|].
    cbn [replay fold_left]. apply IH.
    destruct e as [| | |p k' text'|]; try done.
    destruct (decide (k = k')) as [->|Hne].
    - rewrite jsmap_get_set. by eexists.
    - by rewrite jsmap_get_set_ne. }
  induction tr as [|e tr IH]; intros m p k text H.
  { by apply not_elem_of_nil in H. }
  apply elem_of_cons in H as [<-|H].
  - cbn [replay fold_left]. apply Hkeep. rewrite jsmap_get_set. by eexists.
  - cbn [replay fold_left]. by eapply IH.
Qed.

Lemma elem_of_events_of e tr : e ∈ tr -> e ∈ events_of (ev_pos e) tr.
Proof. intros H. unfold events_of. by apply list_elem_of_filter. Qed.

Lemma history_set total t o c p k text :
  EvSet p k text ∈ history total t o c -> k = task_id t /\ text = outcome_text o.
Proof.
  destruct o; cbn; intros H;
    repeat (apply elem_of_cons in H as [H|H]; [by simplify_eq|]);
    by apply not_elem_of_nil in H.
Qed.

Lemma history_has_set total t o c :
  EvSet (pos t) (task_id t) (outcome_text o) ∈ history total t o c.
Proof. destruct o; cbn; repeat constructor. Qed.

Lemma history_inj total t o o' c c' :
  history total t o c = history total t o' c' -> o = o'.
Proof.
  destruct o, o'; cbn; intros H; simplify_eq; try done.
  match goal with
  | H : _ ++ _ = _ ++ _ |- _ => apply app_inv_tail in H
  end.
  by subst.
Qed.

(** *** Every run can be completed *)

(** How many turns a worker still needs for the pair it holds. *)
Definition rank (w : Worker) : nat :=
  match w with
  | AwaitFind _ _ => 4
  | AwaitFill _ _ => 3
  | AwaitSaveFind _ _ _ => 2
  | AwaitSaveTx _ _ _ => 1
  | Finished => 0
  end.

Definition measure (st : State) : nat :=
  5 * length (queue st) + sum_list_with rank (workers st).

Lemma rank_insert ws i w w' :
  ws !! i = Some w ->
  sum_list_with rank (<[i := w']> ws) + rank w = sum_list_with rank ws + rank w'.
Proof.
  revert i. induction ws as [|x ws IH]; intros [|i] H; simplify_eq/=; [lia|].
  specialize (IH i H). lia.
Qed.

Lemma loop_head_measure st :
  workers (snd (loop_head st)) = workers st
  /\ 5 * length (queue (snd (loop_head st))) + rank (fst (loop_head st))
     <= 5 * length (queue st).
Proof.
  unfold loop_head. destruct (queue st) eqn:E; cbn; rewrite ?E; cbn; split; (done || lia).
Qed.

Section Termination.
Variable marked_parse : jsstring -> jsstring.
Variable fill : nat -> Item -> Attachment -> jsstring -> jsstring -> FillResult.
Variable tpl pr : jsstring.
Variable total : nat.

Lemma resume_measure w st :
  is_finished w = false ->
  workers (snd (resume marked_parse fill tpl pr total w st)) = workers st
  /\ 5 * length (queue (snd (resume marked_parse fill tpl pr total w st)))
       + rank (fst (resume marked_parse fill tpl pr total w st))
     < 5 * length (queue st) + rank w.
Proof.
  intros Hw.
  destruct w as [t [text|]|t [table|message]|t table [text|]|t table note|];
    try done; cbn [resume];
    repeat match goal with
           | |- context [if ?b then _ else _] => destruct b
           | |- context [match firstTagged ?x with _ => _ end] =>
               destruct (firstTagged x)
           end;
    try (cbn; split; [done|lia]);
    match goal with
    | |- context [loop_head ?x] =>
        destruct (loop_head_measure x) as [-> Hm]; cbn in *; split; [done|lia]
    end.
Qed.

Lemma step_measure st i w :
  workers st !! i = Some w -> is_finished w = false ->
  measure (step marked_parse fill tpl pr total st i) < measure st.
Proof.
  intros Hi Hw. unfold step. rewrite Hi.
  destruct (resume_measure w st Hw) as [Hws Hm].
  destruct (resume marked_parse fill tpl pr total w st) as [w' st'].
  cbn [fst snd] in *. unfold measure, set_worker. cbn. rewrite Hws.
  pose proof (rank_insert _ _ _ w' Hi). lia.
Qed.

(** The schedule that always resumes the first worker that is not done. *)
Fixpoint drain (fuel : nat) (st : State) : list nat :=
  match fuel with
  | O => []
  | S fuel' =>
      match list_find (fun w => is_finished w = false) (workers st) with
      | Some (i, _) => i :: drain fuel' (step marked_parse fill tpl pr total st i)
      | None => []
      end
  end.

Lemma no_busy_all_finished st :
  list_find (fun w => is_finished w = false) (workers st) = None ->
  all_finished st = true.
Proof.
  intros H. unfold all_finished. apply forallb_forall. intros w Hin.
  apply list_find_None in H. rewrite Forall_forall in H.
  apply list_elem_of_In in Hin. specialize (H w Hin).
  by destruct (is_finished w).
Qed.

Lemma drain_completes fuel : forall st,
  measure st <= fuel ->
  all_finished (run marked_parse fill tpl pr total (drain fuel st) st) = true.
Proof.
  induction fuel as [|fuel IH]; intros st Hm.
  - cbn. apply no_busy_all_finished.
    destruct (list_find _ _) as [[i w]|] eqn:E; [|done].
    apply list_find_Some in E as (Hi & Hw & _).
    pose proof (step_measure st i w Hi Hw). lia.
  - cbn [drain].
    destruct (list_find _ _) as [[i w]|] eqn:E.
    + apply list_find_Some in E as (Hi & Hw & _).
      cbn [run fold_left]. apply IH.
      pose proof (step_measure st i w Hi Hw). lia.
    + cbn. by apply no_busy_all_finished.
Qed.

Lemma run_app a b st :
  run marked_parse fill tpl pr total (a ++ b) st
  = run marked_parse fill tpl pr total b (run marked_parse fill tpl pr total a st).
Proof. apply fold_left_app. Qed.

End Termination.

Section Invariant.
Variable marked_parse : jsstring -> jsstring.
Variable fill : nat -> Item -> Attachment -> jsstring -> jsstring -> FillResult.
Variable tpl pr : jsstring.
Variable items : list Pair.

Definition fill_of (k : nat) (t : Task) : FillResult :=
  fill k (parentItem (pair t)) (pdfAttachment (pair t)) tpl pr.

(** What the outcome of a pair rests on: a cached text that counts, or
    the answer of the extractor call. *)
Definition outcome_ok (t : Task) (o : Outcome) : Prop :=
  match o with
  | Hit text => truthy text = true
  | Stored k table => fill_of k t = Filled table
  | Failed k message => fill_of k t = Thrown message
  end.

(** The events of a pair whose worker is suspended. *)
Definition inflight (w : Worker) (h : list Event) : Prop :=
  match w with
  | AwaitFind t r =>
      h = [EvFind (pos t) r] /\ (forall e, r = Some e -> truthy e = true)
  | AwaitFill t res =>
      exists k, h = [EvFind (pos t) None; EvFill (pos t) k] /\ res = fill_of k t
  | AwaitSaveFind t table _ | AwaitSaveTx t table _ =>
      exists k, h = [EvFind (pos t) None; EvFill (pos t) k; EvSave (pos t) table]
                /\ fill_of k t = Filled table
  | Finished => True
  end.

(** The index of the next pair to be taken from the queue. *)
Definition nxt (st : State) : nat := length items - length (queue st).

(** What holds between any two turns.  [idle] names a worker that is in
    the middle of its turn, between a pair and the loop test. *)
Record Inv (idle : option nat) (st : State) : Prop := mkInv {
  inv_queue : queue st = drop (nxt st) (tasks_of items);
  inv_queue_len : length (queue st) <= length items;
  inv_held : forall i w t,
    workers st !! i = Some w -> task_of w = Some t ->
    pos t < nxt st /\ tasks_of items !! pos t = Some t
    /\ inflight w (events_of (pos t) (trace st));
  inv_distinct : forall i1 i2 w1 w2 t1 t2,
    workers st !! i1 = Some w1 -> workers st !! i2 = Some w2 ->
    task_of w1 = Some t1 -> task_of w2 = Some t2 -> pos t1 = pos t2 -> i1 = i2;
  inv_done : forall p t,
    p < nxt st -> tasks_of items !! p = Some t ->
    (exists i w, workers st !! i = Some w /\ task_of w = Some t)
    \/ (exists o c, events_of p (trace st) = history (length items) t o c
                    /\ outcome_ok t o);
  inv_pending : forall p, nxt st <= p -> events_of p (trace st) = [];
  inv_progress :
    progress_of (trace st)
    = map (fun c => (c, length items)) (seq 1 (completed st));
  inv_count : completed st + busy_count (workers st) = nxt st;
  inv_finished : forall i,
    Some i <> idle -> workers st !! i = Some Finished -> queue st = [];
  inv_results : results st = replay (trace st) [];
  inv_calls : fills_of (trace st) = seq 0 (calls st)
}.

Lemma events_of_other p q evs :
  Forall (fun e => ev_pos e = q) evs -> p <> q -> events_of p evs = [].
Proof.
  intros H Hne. induction H as [|e evs He _ IH]; [done|].
  unfold events_of in *. rewrite filter_cons_False by congruence. done.
Qed.

Lemma events_of_same p evs :
  Forall (fun e => ev_pos e = p) evs -> events_of p evs = evs.
Proof.
  intros H. induction H as [|e evs He _ IH]; [done|].
  unfold events_of in *. rewrite filter_cons_True by done. by rewrite IH.
Qed.

Lemma inflight_not_history w t h o c :
  task_of w = Some t -> inflight w h -> h <> history (length items) t o c.
Proof.
  intros Hw Hi ->. destruct w, o; simpl in *; simplify_eq;
    repeat match goal with
           | H : _ /\ _ |- _ => destruct H
           | H : exists _, _ |- _ => destruct H
           end; simplify_eq.
Qed.

Lemma busy_held w t : task_of w = Some t -> busy w = 1.
Proof. by destruct w. Qed.

(** A turn that stays with its pair: events of the pair are added, and
    nothing is recorded. *)
Lemma inv_advance st i w w' t evs sto' k' :
  Inv None st ->
  workers st !! i = Some w -> task_of w = Some t -> task_of w' = Some t ->
  Forall (fun e => ev_pos e = pos t) evs ->
  progress_of evs = [] ->
  (forall m, replay evs m = m) ->
  fills_of evs = seq (calls st) (k' - calls st) -> calls st <= k' ->
  inflight w' (events_of (pos t) (trace st) ++ evs) ->
  Inv None
    {| queue := queue st; results := results st; completed := completed st;
       store := sto'; calls := k'; trace := trace st ++ evs;
       workers := <[i := w']> (workers st) |}.
Proof.
  intros HI Hi Hw Hw' Hev Hprog Hrep Hfill Hk Hin.
  destruct HI as [Hq Hql Hheld Hdist Hdone Hpend Hpr Hcnt Hfin Hres Hcalls].
  destruct (Hheld i w t Hi Hw) as (Hlt & Htask & _).
  split; unfold nxt in *; cbn [queue results completed store calls trace workers] in *.
  - done.
  - done.
  - intros i' w0 t0 Hi' Ht0.
    destruct (decide (i' = i)) as [->|Hne].
    + rewrite list_lookup_insert_eq in Hi' by (by eapply lookup_lt_Some).
      assert (w0 = w') as -> by congruence.
      assert (t0 = t) as -> by congruence.
      rewrite events_of_app, (events_of_same _ _ Hev). done.
    + rewrite list_lookup_insert_ne in Hi' by done.
      destruct (Hheld i' w0 t0 Hi' Ht0) as (H1 & H2 & H3).
      split; [done|]. split; [done|].
      rewrite events_of_app, (events_of_other _ _ _ Hev), app_nil_r; [done|].
      intros Heq. apply Hne. by eapply (Hdist i' i w0 w t0 t).
  - intros i1 i2 w1 w2 t1 t2 H1 H2 Ht1 Ht2 Hp.
    destruct (decide (i1 = i)) as [->|Hn1], (decide (i2 = i)) as [->|Hn2]; [done|..].
    + rewrite list_lookup_insert_eq in H1 by (by eapply lookup_lt_Some).
      rewrite list_lookup_insert_ne in H2 by done.
      assert (w1 = w') as -> by congruence.
      assert (t1 = t) as -> by congruence.
      symmetry. by eapply (Hdist i2 i w2 w t2 t).
    + rewrite list_lookup_insert_ne in H1 by done.
      rewrite list_lookup_insert_eq in H2 by (by eapply lookup_lt_Some).
      assert (w2 = w') as -> by congruence.
      assert (t2 = t) as -> by congruence.
      by eapply (Hdist i1 i w1 w t1 t).
    + rewrite list_lookup_insert_ne in H1, H2 by done.
      by eapply (Hdist i1 i2 w1 w2 t1 t2).
  - intros p tp Hp Htp.
    destruct (Hdone p tp Hp Htp) as [(i0 & w0 & Hi0 & Ht0)|(o & c & Hh & Hok)].
    + left. destruct (decide (i0 = i)) as [->|Hne].
      * exists i, w'. rewrite list_lookup_insert_eq by (by eapply lookup_lt_Some).
        split; [done|]. congruence.
      * exists i0, w0. by rewrite list_lookup_insert_ne.
    + right. exists o, c. split; [|done].
      rewrite events_of_app, (events_of_other _ _ _ Hev), app_nil_r; [done|].
      intros ->. destruct (Hheld i w t Hi Hw) as (_ & Htk & Hfl).
      assert (tp = t) as -> by congruence.
      exact (inflight_not_history w t _ o c Hw Hfl Hh).
  - intros p Hp. rewrite events_of_app, (Hpend p Hp).
    rewrite (events_of_other _ _ _ Hev); [done|lia].
  - by rewrite progress_of_app, Hprog, app_nil_r.
  - pose proof (busy_count_insert _ _ _ w' Hi) as Hb.
    rewrite (busy_held _ _ Hw), (busy_held _ _ Hw') in Hb. lia.
  - intros i' _ Hi'.
    destruct (decide (i' = i)) as [->|Hne].
    + rewrite list_lookup_insert_eq in Hi' by (by eapply lookup_lt_Some).
      assert (w' = Finished) as -> by congruence. done.
    + rewrite list_lookup_insert_ne in Hi' by done. by eapply Hfin.
  - by rewrite replay_app, Hrep.
  - rewrite fills_of_app, Hcalls, Hfill.
    replace k' with (calls st + (k' - calls st)) at 2 by lia.
    by rewrite seq_app.
Qed.

(** The end of the work on a pair: the text is recorded and the progress
    callback is called; the worker has not yet gone back to the loop test. *)
Lemma inv_record st i w t text o sto' :
  Inv None st ->
  workers st !! i = Some w -> task_of w = Some t ->
  events_of (pos t) (trace st)
    ++ [EvSet (pos t) (task_id t) text;
        EvProgress (pos t) (S (completed st)) (length items)]
  = history (length items) t o (S (completed st)) ->
  outcome_ok t o ->
  Inv (Some i)
    {| queue := queue st;
       results := JsMap.set (task_id t) text (results st);
       completed := S (completed st);
       store := sto'; calls := calls st;
       trace := trace st ++ [EvSet (pos t) (task_id t) text;
                             EvProgress (pos t) (S (completed st)) (length items)];
       workers := <[i := Finished]> (workers st) |}.
Proof.
  intros HI Hi Hw Hh Hok.
  destruct HI as [Hq Hql Hheld Hdist Hdone Hpend Hpr Hcnt Hfin Hres Hcalls].
  destruct (Hheld i w t Hi Hw) as (Hlt & Htask & Hfl).
  set (evs := [EvSet (pos t) (task_id t) text;
               EvProgress (pos t) (S (completed st)) (length items)]) in *.
  assert (Forall (fun e => ev_pos e = pos t) evs) as Hev
    by (repeat constructor).
  split; unfold nxt in *; cbn [queue results completed store calls trace workers] in *.
  - done.
  - done.
  - intros i' w0 t0 Hi' Ht0.
    destruct (decide (i' = i)) as [->|Hne].
    + rewrite list_lookup_insert_eq in Hi' by (by eapply lookup_lt_Some).
      assert (w0 = Finished) as -> by congruence. done.
    + rewrite list_lookup_insert_ne in Hi' by done.
      destruct (Hheld i' w0 t0 Hi' Ht0) as (H1 & H2 & H3).
      split; [done|]. split; [done|].
      rewrite events_of_app, (events_of_other _ _ _ Hev), app_nil_r; [done|].
      intros Heq. apply Hne. by eapply (Hdist i' i w0 w t0 t).
  - intros i1 i2 w1 w2 t1 t2 H1 H2 Ht1 Ht2 Hp.
    destruct (decide (i1 = i)) as [->|Hn1].
    { rewrite list_lookup_insert_eq in H1 by (by eapply lookup_lt_Some).
      assert (w1 = Finished) as -> by congruence. done. }
    destruct (decide (i2 = i)) as [->|Hn2].
    { rewrite list_lookup_insert_eq in H2 by (by eapply lookup_lt_Some).
      assert (w2 = Finished) as -> by congruence. done. }
    rewrite list_lookup_insert_ne in H1, H2 by done.
    by eapply (Hdist i1 i2 w1 w2 t1 t2).
  - intros p tp Hp Htp.
    destruct (decide (p = pos t)) as [->|Hnp].
    { right. assert (tp = t) as -> by congruence.
      exists o, (S (completed st)). split; [|done].
      by rewrite events_of_app, (events_of_same _ _ Hev). }
    destruct (Hdone p tp Hp Htp) as [(i0 & w0 & Hi0 & Ht0)|(o' & c & Hh' & Hok')].
    + left. exists i0, w0. split; [|done].
      rewrite list_lookup_insert_ne; [done|].
      intros <-. assert (w0 = w) as -> by congruence.
      assert (tp = t) as -> by congruence.
      apply Hnp. symmetry. by eapply tasks_of_lookup.
    + right. exists o', c. split; [|done].
      by rewrite events_of_app, (events_of_other _ _ _ Hev), app_nil_r.
  - intros p Hp. rewrite events_of_app, (Hpend p Hp).
    rewrite (events_of_other _ _ _ Hev); [done|lia].
  - rewrite progress_of_app, Hpr, seq_S, map_app. done.
  - pose proof (busy_count_insert _ _ _ Finished Hi) as Hb.
    rewrite (busy_held _ _ Hw) in Hb. cbn in Hb. lia.
  - intros i' Hi' Hf.
    destruct (decide (i' = i)) as [->|Hne]; [done|].
    rewrite list_lookup_insert_ne in Hf by done. by eapply Hfin.
  - by rewrite replay_app, <- Hres.
  - by rewrite fills_of_app, Hcalls, app_nil_r.
Qed.

(** Back at the loop test: the worker ends, or takes the next pair and
    calls [findTableNote]. *)
Lemma inv_loop_head st i :
  Inv (Some i) st -> workers st !! i = Some Finished ->
  Inv None (set_worker i (fst (loop_head st)) (snd (loop_head st))).
Proof.
  intros HI Hi.
  destruct HI as [Hq Hql Hheld Hdist Hdone Hpend Hpr Hcnt Hfin Hres Hcalls].
  unfold loop_head, set_worker.
  destruct (queue st) as [|task rest] eqn:Eq.
  { cbn [fst snd]. rewrite list_insert_id by done.
    split; unfold nxt in *; rewrite ?Eq in *; done. }
  cbn [fst snd queue results completed store calls trace workers].
  assert (length items - length (queue st) < length items
          /\ tasks_of items !! (length items - length (queue st)) = Some task
          /\ rest = drop (S (length items - length (queue st))) (tasks_of items))
    as (Hj & Htask & Hrest).
  { unfold nxt in *. rewrite Eq in *. cbn [length] in *.
    assert (length items - S (length rest) < length (tasks_of items)) as Hlt
      by (rewrite tasks_of_length; lia).
    split; [lia|].
    destruct (lookup_lt_is_Some_2 _ _ Hlt) as [x Hx].
    rewrite (drop_S _ _ _ Hx) in Hq. by simplify_eq. }
  pose proof (tasks_of_lookup _ _ _ Htask) as Hpos.
  unfold nxt in *. rewrite Eq in *. cbn [length] in *.
  set (j := length items - S (length rest)) in *.
  assert (length items - length rest = S j) as Hn by lia.
  set (ev := [EvFind (pos task) (findTableNote (store st) (parentItem (pair task)))]).
  assert (Forall (fun e => ev_pos e = j) ev) as Hev
    by (repeat constructor; done).
  split; unfold nxt; cbn [queue results completed store calls trace workers];
    rewrite ?Hn.
  - done.
  - lia.
  - intros i' w0 t0 Hi' Ht0.
    destruct (decide (i' = i)) as [->|Hne].
    + rewrite list_lookup_insert_eq in Hi' by (by eapply lookup_lt_Some).
      injection Hi' as <-. cbn in Ht0. injection Ht0 as <-.
      rewrite Hpos. split; [lia|]. split; [done|].
      rewrite events_of_app, (Hpend j) by lia. split.
      * unfold ev, events_of. rewrite Hpos. by rewrite filter_cons_True.
      * intros e He. by eapply findTableNote_nonempty.
    + rewrite list_lookup_insert_ne in Hi' by done.
      destruct (Hheld i' w0 t0 Hi' Ht0) as (H1 & H2 & H3).
      split; [lia|]. split; [done|].
      rewrite events_of_app, (events_of_other _ _ _ Hev), app_nil_r; [done|lia].
  - intros i1 i2 w1 w2 t1 t2 H1 H2 Ht1 Ht2 Hp.
    destruct (decide (i1 = i)) as [->|Hn1], (decide (i2 = i)) as [->|Hn2]; [done|..].
    + rewrite list_lookup_insert_eq in H1 by (by eapply lookup_lt_Some).
      rewrite list_lookup_insert_ne in H2 by done.
      injection H1 as <-. cbn in Ht1. injection Ht1 as <-.
      destruct (Hheld i2 w2 t2 H2 Ht2) as (Hlt & _). lia.
    + rewrite list_lookup_insert_ne in H1 by done.
      rewrite list_lookup_insert_eq in H2 by (by eapply lookup_lt_Some).
      injection H2 as <-. cbn in Ht2. injection Ht2 as <-.
      destruct (Hheld i1 w1 t1 H1 Ht1) as (Hlt & _). lia.
    + rewrite list_lookup_insert_ne in H1, H2 by done.
      by eapply (Hdist i1 i2 w1 w2 t1 t2).
  - intros p tp Hp Htp.
    destruct (decide (p = j)) as [->|Hnp].
    { left. eexists i, _.
      rewrite list_lookup_insert_eq by (by eapply lookup_lt_Some).
      split; [done|]. cbn. congruence. }
    destruct (Hdone p tp ltac:(lia) Htp) as [(i0 & w0 & Hi0 & Ht0)|(o' & c & Hh' & Hok')].
    + left. exists i0, w0. split; [|done].
      rewrite list_lookup_insert_ne; [done|].
      intros <-. assert (w0 = Finished) as -> by congruence. done.
    + right. exists o', c. split; [|done].
      by rewrite events_of_app, (events_of_other _ _ _ Hev), app_nil_r.
  - intros p Hp. rewrite events_of_app, (Hpend p) by lia.
    rewrite (events_of_other _ _ _ Hev); [done|lia].
  - by rewrite progress_of_app, app_nil_r.
  - pose proof (busy_count_insert _ _ _
                  (AwaitFind task (findTableNote (store st) (parentItem (pair task))))
                  Hi) as Hb.
    cbn in Hb. lia.
  - intros i' _ Hf.
    destruct (decide (i' = i)) as [->|Hne].
    + rewrite list_lookup_insert_eq in Hf by (by eapply lookup_lt_Some). done.
    + rewrite list_lookup_insert_ne in Hf by done.
      assert (task :: rest = []) by (eapply Hfin; [|done]; congruence). done.
  - by rewrite replay_app, <- Hres.
  - by rewrite fills_of_app, Hcalls, app_nil_r.
Qed.

Lemma inv_finish_turn st i w t text o sto' :
  Inv None st ->
  workers st !! i = Some w -> task_of w = Some t ->
  events_of (pos t) (trace st)
    ++ [EvSet (pos t) (task_id t) text;
        EvProgress (pos t) (S (completed st)) (length items)]
  = history (length items) t o (S (completed st)) ->
  outcome_ok t o ->
  forall y,
    y = {| queue := queue st;
           results := JsMap.set (task_id t) text (results st);
           completed := S (completed st);
           store := sto'; calls := calls st;
           trace := trace st ++ [EvSet (pos t) (task_id t) text;
                                 EvProgress (pos t) (S (completed st)) (length items)];
           workers := workers st |} ->
    Inv None (set_worker i (fst (loop_head y)) (snd (loop_head y))).
Proof.
  intros HI Hi Hw Hh Hok y ->.
  pose proof (inv_record st i w t text o sto' HI Hi Hw Hh Hok) as H1.
  apply inv_loop_head in H1.
  2:{ cbn. apply list_lookup_insert_eq. by eapply lookup_lt_Some. }
  revert H1. unfold loop_head, set_worker. cbn.
  destruct (queue st); cbn; by rewrite list_insert_insert_eq.
Qed.

Abbreviation step_ := (step marked_parse fill tpl pr (length items)).
Abbreviation run_ := (run marked_parse fill tpl pr (length items)).

(** Every turn keeps the invariant. *)
Lemma inv_step st i : Inv None st -> Inv None (step_ st i).
Proof.
  intros HI. unfold step.
  destruct (workers st !! i) as [w|] eqn:Hi; [|done].
  destruct w as [t [text|]|t [table|message]|t table [text|]|t table note|].
  - (* findTableNote answered with a text *)
    destruct (inv_held _ _ HI i _ t Hi eq_refl) as (_ & _ & Hfl & Htr).
    cbn [resume]. rewrite (Htr text eq_refl).
    destruct (loop_head _) as [w' st'] eqn:E.
    change w' with (fst (w', st')). change st' with (snd (w', st')) at 2.
    rewrite <- E.
    eapply (inv_finish_turn st i _ t text (Hit text) (store st)); try done;
      first [by rewrite Hfl | by apply Htr].
  - (* findTableNote answered null: the extractor is called *)
    destruct (inv_held _ _ HI i _ t Hi eq_refl) as (_ & _ & Hfl & _).
    cbn [resume call_fill set_worker queue results completed store calls trace workers].
    eapply (inv_advance st i _ _ t [EvFill (pos t) (calls st)]); try done.
    + by repeat constructor.
    + cbn. by replace (S (calls st) - calls st) with 1 by lia.
    + cbn. lia.
    + cbn. exists (calls st). by rewrite Hfl.
  - (* the extractor returned: saveTableNote is called *)
    destruct (inv_held _ _ HI i _ t Hi eq_refl) as (_ & _ & k & Hfl & Hk).
    cbn [resume emit set_worker queue results completed store calls trace workers].
    eapply (inv_advance st i _ _ t [EvSave (pos t) table]); try done.
    + by repeat constructor.
    + cbn. by rewrite Nat.sub_diag.
    + cbn. exists k. by rewrite Hfl.
  - (* the extractor threw *)
    destruct (inv_held _ _ HI i _ t Hi eq_refl) as (_ & _ & k & Hfl & Hk).
    cbn [resume].
    destruct (loop_head _) as [w' st'] eqn:E.
    change w' with (fst (w', st')). change st' with (snd (w', st')) at 2.
    rewrite <- E.
    eapply (inv_finish_turn st i _ t (placeholder message) (Failed k message) (store st));
      try done; first [by rewrite Hfl | by symmetry].
  - (* inside saveTableNote, a text was found *)
    destruct (inv_held _ _ HI i _ t Hi eq_refl) as (_ & _ & k & Hfl & Hk).
    cbn [resume].
    destruct (truthy text);
      [destruct (firstTagged (getNotes (store st) (parentItem (pair t))))|].
    + destruct (loop_head _) as [w' st'] eqn:E.
      change w' with (fst (w', st')). change st' with (snd (w', st')) at 2.
      rewrite <- E.
      eapply (inv_finish_turn st i _ t table (Stored k table) (store st)); try done;
        by rewrite Hfl.
    + cbn -[newTableNote]. unfold set_worker. rewrite <- (app_nil_r (trace st)).
      eapply (inv_advance st i _ _ t []); try done.
      * cbn. by rewrite Nat.sub_diag.
      * cbn. exists k. by rewrite app_nil_r.
    + cbn -[newTableNote]. unfold set_worker. rewrite <- (app_nil_r (trace st)).
      eapply (inv_advance st i _ _ t []); try done.
      * cbn. by rewrite Nat.sub_diag.
      * cbn. exists k. by rewrite app_nil_r.
  - (* inside saveTableNote, nothing was found: the note is built *)
    destruct (inv_held _ _ HI i _ t Hi eq_refl) as (_ & _ & k & Hfl & Hk).
    cbn -[newTableNote]. unfold set_worker. rewrite <- (app_nil_r (trace st)).
    eapply (inv_advance st i _ _ t []); try done.
    + cbn. by rewrite Nat.sub_diag.
    + cbn. exists k. by rewrite app_nil_r.
  - (* the note is saved *)
    destruct (inv_held _ _ HI i _ t Hi eq_refl) as (_ & _ & k & Hfl & Hk).
    cbn [resume].
    destruct (loop_head _) as [w' st'] eqn:E.
    change w' with (fst (w', st')). change st' with (snd (w', st')) at 2.
    rewrite <- E.
    eapply (inv_finish_turn st i _ t table (Stored k table)
              (saveTx (store st) (parentItem (pair t)) note)); try done;
      by rewrite Hfl.
  - cbn [resume]. unfold set_worker. rewrite list_insert_id by done.
    by destruct st.
Qed.

Lemma inv_run sched : forall st, Inv None st -> Inv None (run_ sched st).
Proof.
  induction sched as [|i sched IH]; intros st HI; [done|].
  cbn [run fold_left]. apply IH. by apply inv_step.
Qed.

Definition with_workers (ws : list Worker) (st : State) : State :=
  {| queue := queue st; results := results st; completed := completed st;
     store := store st; calls := calls st; trace := trace st; workers := ws |}.

Lemma inv_snoc_idle st :
  Inv None st ->
  Inv (Some (length (workers st))) (with_workers (workers st ++ [Finished]) st).
Proof.
  intros [Hq Hql Hheld Hdist Hdone Hpend Hpr Hcnt Hfin Hres Hcalls].
  assert (forall i w t, (workers st ++ [Finished]) !! i = Some w ->
                        task_of w = Some t -> workers st !! i = Some w) as Hold.
  { intros i w t Hi Ht. apply lookup_app_Some in Hi as [Hi|[_ Hi]]; [done|].
    apply list_lookup_singleton_Some in Hi as [_ <-]. done. }
  split; unfold nxt, with_workers in *;
    cbn [queue results completed store calls trace workers] in *; try done.
  - intros i w t Hi Ht. eapply Hheld; [|done]. by eapply Hold.
  - intros i1 i2 w1 w2 t1 t2 H1 H2 Ht1 Ht2.
    eapply Hdist; try done; by eapply Hold.
  - intros p t Hp Ht. destruct (Hdone p t Hp Ht) as [(i & w & Hi & Hw)|H]; [|by right].
    left. exists i, w. split; [|done]. by apply lookup_app_l_Some.
  - rewrite busy_count_snoc. cbn. lia.
  - intros i Hi Hf. apply lookup_app_Some in Hf as [Hf|[Hge Hf]].
    + by eapply Hfin.
    + apply list_lookup_singleton_Some in Hf as [Hf _].
      destruct Hi. f_equal. lia.
Qed.

Lemma inv_spawn k : forall st, Inv None st -> Inv None (spawn k st).
Proof.
  induction k as [|k IH]; intros st HI; [done|].
  cbn [spawn]. destruct (loop_head st) as [w st'] eqn:E.
  apply IH.
  pose proof (inv_loop_head _ _ (inv_snoc_idle st HI)) as H.
  cbn [with_workers workers] in H.
  specialize (H (list_lookup_middle _ [] _ _ eq_refl)).
  revert H E. unfold loop_head, set_worker, with_workers.
  cbn [queue results completed store calls trace workers].
  destruct (queue st) as [|task rest] eqn:Eq;
    cbn [fst snd queue results completed store calls trace workers];
    intros H [= <- <-]; cbn [queue results completed store calls trace workers].
  - rewrite list_insert_id in H by (by apply list_lookup_middle).
    by rewrite Eq.
  - revert H. rewrite (insert_app_r_alt (workers st) [Finished]) by done.
    by rewrite Nat.sub_diag.
Qed.

Lemma inv_init st0 :
  Inv None {| queue := tasks_of items; results := []; completed := 0;
              store := st0; calls := 0; trace := []; workers := [] |}.
Proof.
  split; unfold nxt; cbn [queue results completed store calls trace workers];
    rewrite ?tasks_of_length, ?Nat.sub_diag; try done.
  intros p t Hp. lia.
Qed.

Lemma inv_start st0 concurrency : Inv None (start st0 items concurrency).
Proof. apply inv_spawn, inv_init. Qed.

(** The invariant holds after every schedule. *)
Lemma inv_fillTablesInParallel st0 concurrency sched :
  Inv None (fillTablesInParallel marked_parse fill st0 items tpl pr concurrency sched).
Proof. apply inv_run, inv_start. Qed.

End Invariant.

Section Scheduler.
Variable marked_parse : jsstring -> jsstring.
Variable fill : nat -> Item -> Attachment -> jsstring -> jsstring -> FillResult.
Variable tpl pr : jsstring.
Variable st0 : Store.
Variable items : list Pair.
Variable concurrency : Z.

Abbreviation after sched :=
  (fillTablesInParallel marked_parse fill st0 items tpl pr concurrency sched).

Lemma step_workers_length total st i :
  length (workers (step marked_parse fill tpl pr total st i)) = length (workers st).
Proof.
  unfold step. destruct (workers st !! i) as [w|] eqn:Hi; [|done].
  destruct (is_finished w) eqn:Hw.
  - destruct w; try done. cbn. by rewrite length_insert.
  - destruct (resume_measure marked_parse fill tpl pr total w st Hw) as [Hws _].
    destruct (resume marked_parse fill tpl pr total w st) as [w' st'].
    cbn in *. by rewrite length_insert, Hws.
Qed.

Lemma run_workers_length total sched : forall st,
  length (workers (run marked_parse fill tpl pr total sched st)) = length (workers st).
Proof.
  unfold run. induction sched as [|i sched IH]; intros st; [done|].
  cbn [fold_left]. by rewrite IH, step_workers_length.
Qed.

Lemma spawn_workers_length k : forall st,
  length (workers (spawn k st)) = length (workers st) + k.
Proof.
  induction k as [|k IH]; intros st; cbn [spawn]; [lia|].
  destruct (loop_head_measure st) as [Hws _].
  destruct (loop_head st) as [w st']. cbn in Hws.
  rewrite IH. cbn. rewrite length_app, Hws. cbn. lia.
Qed.

Lemma after_workers_length sched :
  length (workers (after sched)) = effectiveConcurrency concurrency (length items).
Proof.
  unfold fillTablesInParallel, start.
  by rewrite run_workers_length, spawn_workers_length.
Qed.

Lemma all_finished_lookup st i w :
  all_finished st = true -> workers st !! i = Some w -> w = Finished.
Proof.
  unfold all_finished. rewrite forallb_forall. intros H Hi.
  apply list_elem_of_lookup_2, list_elem_of_In, H in Hi. by destruct w.
Qed.

Lemma all_finished_busy st : all_finished st = true -> busy_count (workers st) = 0.
Proof.
  unfold all_finished, busy_count. induction (workers st) as [|w ws IH]; [done|].
  cbn. intros H. apply andb_true_iff in H as [Hw H]. rewrite IH by done.
  unfold busy. by rewrite Hw.
Qed.

(** When [Promise.all] has resolved and there was a worker at all, every
    pair of the list is done. *)
Lemma finished_all_done sched :
  (1 <= concurrency)%Z ->
  all_finished (after sched) = true ->
  completed (after sched) = length items
  /\ forall p t, tasks_of items !! p = Some t ->
       exists o c,
         events_of p (trace (after sched)) = history (length items) t o c
         /\ outcome_ok fill tpl pr t o.
Proof.
  intros Hc Hf.
  pose proof (inv_fillTablesInParallel marked_parse fill tpl pr items st0 concurrency sched)
    as HI.
  set (st := after sched) in *.
  assert (queue st = []) as Hq.
  { destruct (workers st) as [|w ws] eqn:Ew.
    - pose proof (after_workers_length sched) as Hl. fold st in Hl. rewrite Ew in Hl.
      unfold effectiveConcurrency in Hl. cbn in Hl.
      assert (length items = 0) as Hn by lia.
      pose proof (inv_queue_len _ _ _ _ _ _ HI) as Hql.
      destruct (queue st); [done|]. cbn in Hql. lia.
    - eapply (inv_finished _ _ _ _ _ _ HI 0); [done|].
      rewrite Ew. cbn. f_equal.
      eapply (all_finished_lookup st 0); [done|]. by rewrite Ew. }
  pose proof (inv_count _ _ _ _ _ _ HI) as Hcnt.
  unfold nxt in *. rewrite Hq, all_finished_busy in Hcnt by done. cbn in Hcnt.
  split; [lia|].
  intros p t Ht.
  assert (p < length items) as Hp.
  { apply lookup_lt_Some in Ht. by rewrite tasks_of_length in Ht. }
  assert (p < nxt items st) as Hp' by (unfold nxt; rewrite Hq; cbn; lia).
  destruct (inv_done _ _ _ _ _ _ HI p t Hp' Ht) as [(i & w & Hi & Hw)|H]; [|done].
  rewrite (all_finished_lookup st i w Hf Hi) in Hw. done.
Qed.

(** Every schedule can be continued to the end. *)
Lemma can_finish sched : exists more, all_finished (after (sched ++ more)) = true.
Proof.
  exists (drain marked_parse fill tpl pr (length items)
            (measure (after sched)) (after sched)).
  unfold fillTablesInParallel. rewrite run_app. by apply drain_completes.
Qed.



(** C8: the progress callback gets the counts 1, 2, ... in this order,
    each with the length of the list as total; a pair that is done has
    exactly one call of it among its events, the last one, after its text
    was recorded; when all workers have ended the counts have reached the
    total; and every schedule can be continued until they have. *)
Theorem progress_counts_up sched :
  (1 <= concurrency)%Z ->
  progress_of (trace (after sched))
  = map (fun c => (c, length items)) (seq 1 (completed (after sched)))
  /\ (all_finished (after sched) = true ->
        completed (after sched) = length items
        /\ forall p t, tasks_of items !! p = Some t ->
             exists o c,
               events_of p (trace (after sched)) = history (length items) t o c
               /\ progress_of (history (length items) t o c) = [(c, length items)])
  /\ exists more, all_finished (after (sched ++ more)) = true.
Proof.
  intros Hc.
  pose proof (inv_fillTablesInParallel marked_parse fill tpl pr items st0 concurrency sched)
    as HI.
  split; [by apply (inv_progress _ _ _ _ _ _ HI)|].
  split; [|by apply can_finish].
  intros Hf. destruct (finished_all_done sched Hc Hf) as [Hn Hall].
  split; [done|]. intros p t Ht.
  destruct (Hall p t Ht) as (o & c & Hh & _).
  exists o, c. split; [done|]. by destruct o.
Qed.

End Scheduler.

Lemma run_no_workers marked_parse fill tpl pr total sched : forall st,
  workers st = [] -> run marked_parse fill tpl pr total sched st = st.
Proof.
  unfold run. induction sched as [|i sched IH]; intros st Hw; [done|].
  cbn [fold_left]. unfold step at 2. rewrite Hw. cbn. by apply IH.
Qed.

(** C10: for the empty list no worker is started, whatever the
    concurrency; [Promise.all] has resolved at once, the map returned is
    empty and the progress callback is not called, under every schedule. *)
Theorem empty_batch marked_parse fill st0 tpl pr (concurrency : Z) sched :
  effectiveConcurrency concurrency 0 = 0
  /\ workers (fillTablesInParallel marked_parse fill st0 [] tpl pr concurrency sched) = []
  /\ all_finished (fillTablesInParallel marked_parse fill st0 [] tpl pr concurrency []) = true
  /\ results (fillTablesInParallel marked_parse fill st0 [] tpl pr concurrency sched) = []
  /\ progress_of
       (trace (fillTablesInParallel marked_parse fill st0 [] tpl pr concurrency sched)) = []
  /\ calls (fillTablesInParallel marked_parse fill st0 [] tpl pr concurrency sched) = 0.
Proof.
  assert (effectiveConcurrency concurrency 0 = 0) as He
    by (unfold effectiveConcurrency; lia).
  unfold fillTablesInParallel, start. cbn [length]. rewrite He. cbn [spawn].
  rewrite !run_no_workers by done. done.
Qed.

(** *** A batch of three, the second of which fails *)

Definition item_a : Item :=
  {| item_id := 1; item_key := lit "AAAA1111"; item_title := lit "A";
     item_date := lit "2001"; item_creators := [] |}.
Definition item_b : Item :=
  {| item_id := 2; item_key := lit "BBBB2222"; item_title := lit "B";
     item_date := lit "2002"; item_creators := [] |}.
Definition item_c : Item :=
  {| item_id := 3; item_key := lit "CCCC3333"; item_title := lit "C";
     item_date := lit "2003"; item_creators := [] |}.

Definition three_pairs : list Pair :=
  [ {| parentItem := item_a; pdfAttachment := {| att_id := 11 |} |};
    {| parentItem := item_b; pdfAttachment := {| att_id := 12 |} |};
    {| parentItem := item_c; pdfAttachment := {| att_id := 13 |} |} ].

(** An extractor that throws for item 2 and answers with a one-row table
    for the others. *)
Definition fill_but_b (k : nat) (item : Item) (att : Attachment)
    (template prompt : jsstring) : FillResult :=
  if Z.eqb (item_id item) 2 then Thrown (lit "boom")
  else Filled (lit "| t | " ++ item_title item ++ lit " |").

(** The store in which item 1 has its table already. *)
Definition a_cached : Store :=
  snd (saveTableNote one_paragraph ∅ item_a (lit "| t | cached |")).

(** Two workers, resumed in turn. *)
Definition in_turn : list nat := [0; 1; 0; 1; 0; 1; 0; 1; 0; 0; 0; 1; 1].

Definition three_run : State :=
  fillTablesInParallel one_paragraph fill_but_b ∅ three_pairs [] [] 2 in_turn.

Definition three_run_cached : State :=
  fillTablesInParallel one_paragraph fill_but_b a_cached three_pairs [] [] 2 in_turn.

Example three_run_results :
  all_finished three_run = true
  /\ results three_run
     = [(2%Z, placeholder (lit "boom")); (1%Z, lit "| t | A |"); (3%Z, lit "| t | C |")]
  /\ progress_of (trace three_run) = [(1, 3); (2, 3); (3, 3)]
  /\ fills_of (trace three_run) = [0; 1; 2].
Proof. by vm_compute. Qed.

Example three_run_cached_results :
  all_finished three_run_cached = true
  /\ results three_run_cached
     = [(1%Z, lit "| t | cached |"); (2%Z, placeholder (lit "boom"));
        (3%Z, lit "| t | C |")]
  /\ events_of 0 (trace three_run_cached)
     = [EvFind 0 (Some (lit "| t | cached |"));
        EvSet 0 1%Z (lit "| t | cached |"); EvProgress 0 1 3]
  /\ fills_of (trace three_run_cached) = [0; 1].
Proof. by vm_compute. Qed.

Definition task_a : Task :=
  {| pos := 0;
     pair := {| parentItem := item_a; pdfAttachment := {| att_id := 11 |} |} |}.



Lemma progress_counts_up_witness :
  progress_of (trace three_run)
  = map (fun c => (c, length three_pairs)) (seq 1 (completed three_run)).
Proof.
  pose proof (progress_counts_up one_paragraph fill_but_b [] [] ∅
                three_pairs 2 in_turn) as H.
  destruct H as [H _]; [done |].
  exact H.
Defined.

End SchedFacts.


(* ================================================================== *)
(** ** CitationResolver: the index, the parenthetical pass, the markers *)
(* ================================================================== *)

Module CiteFacts.
Import Cite.
Local Open Scope nat_scope.

(** *** The index *)

Section Index.
Variable toLowerCase : jsstring -> jsstring.

(** A key with the entry that is to be registered for it. *)
Definition Registration : Type := jsstring * Entry.

(** What the creators of one item ask to register, in their order. *)
Definition creator_registrations (parent : Item) (creators : list Creator)
  : list Registration :=
  omap (fun creator =>
          if truthy (creator_surname creator)
          then Some (lookupKey toLowerCase (creator_surname creator) (item_year parent),
                     {| entry_item := parent; entry_key := item_key parent;
                        entry_uri := item_uri parent |})
          else None) creators.

Definition item_registrations (p : Pair) : list Registration :=
  if truthy (item_year (parentItem p))
  then creator_registrations (parentItem p) (item_creators (parentItem p))
  else [].

(** All registrations of a run, in the order in which the loops make them. *)
Definition registrations (itemPdfPairs : list Pair) : list Registration :=
  flat_map item_registrations itemPdfPairs.

(** The entry of the first registration for [k]. *)
Definition first_registered (k : jsstring) (regs : list Registration) : option Entry :=
  snd <$> List.find (fun r => bool_decide (fst r = k)) regs.

(** [if (!authorYearMap.has(k)) authorYearMap.set(k, e)]. *)
Definition set_if_absent (m : gmap jsstring Entry) (r : Registration)
  : gmap jsstring Entry :=
  match m !! fst r with
  | Some _ => m
  | None => <[fst r := snd r]> m
  end.

Lemma set_if_absent_lookup regs : forall (m : gmap jsstring Entry) k,
  fold_left set_if_absent regs m !! k
  = match m !! k with
    | Some e => Some e
    | None => first_registered k regs
    end.
Proof.
  induction regs as [|[k' e'] regs IH]; intros m k.
  { cbn. by destruct (m !! k). }
  cbn [fold_left]. rewrite IH. unfold set_if_absent, first_registered. cbn [fst snd List.find].
  destruct (m !! k') as [e0|] eqn:Ek'.
  - destruct (m !! k) as [e|] eqn:Ek; [done|].
    rewrite bool_decide_eq_false_2; [done|]. intros ->. congruence.
  - destruct (decide (k' = k)) as [->|Hne].
    + rewrite lookup_insert_eq, Ek'. by rewrite bool_decide_eq_true_2.
    + rewrite lookup_insert_ne by done.
      destruct (m !! k); [done|]. by rewrite bool_decide_eq_false_2.
Qed.

Lemma register_creators_fold parent creators : forall m,
  fold_left (register_creator toLowerCase parent (item_year parent) (item_uri parent))
            creators m
  = fold_left set_if_absent (creator_registrations parent creators) m.
Proof.
  induction creators as [|c creators IH]; intros m; [done|].
  cbn [fold_left]. rewrite IH.
  unfold register_creator, creator_registrations. simpl omap.
  destruct (truthy (creator_surname c)); done.
Qed.

Lemma register_item_fold m p :
  register_item toLowerCase m p = fold_left set_if_absent (item_registrations p) m.
Proof.
  unfold register_item, item_registrations.
  destruct (truthy (item_year (parentItem p))); cbn [negb orb]; [|done].
  destruct (item_creators (parentItem p)) as [|c cs] eqn:E; [done|].
  cbn [length Nat.eqb]. by rewrite register_creators_fold.
Qed.

Lemma build_index_fold itemPdfPairs : forall m,
  fold_left (register_item toLowerCase) itemPdfPairs m
  = fold_left set_if_absent (registrations itemPdfPairs) m.
Proof.
  induction itemPdfPairs as [|p ps IH]; intros m; [done|].
  cbn [fold_left registrations flat_map].
  by rewrite fold_left_app, IH, register_item_fold.
Qed.

Lemma registrations_app a b : registrations (a ++ b) = registrations a ++ registrations b.
Proof. unfold registrations. by rewrite flat_map_app. Qed.

(** C6: the entry of a key in the index is the one of the first
    registration made for that key, and pairs that come later do not
    change it. *)
Theorem first_registration_wins (itemPdfPairs : list Pair) (k : jsstring) :
  build_index toLowerCase itemPdfPairs !! k
  = first_registered k (registrations itemPdfPairs)
  /\ forall more e,
       build_index toLowerCase itemPdfPairs !! k = Some e ->
       build_index toLowerCase (itemPdfPairs ++ more) !! k = Some e.
Proof.
  unfold build_index. split.
  - by rewrite build_index_fold, set_if_absent_lookup, lookup_empty.
  - intros more e He. rewrite fold_left_app, (build_index_fold more).
    by rewrite set_if_absent_lookup, He.
Qed.

End Index.

(** *** Replacing in a text that is put together *)

(** When no match that starts in [a] can see into [b], the scan of
    [a ++ b] is the scan of [a] followed by the scan of [b]. *)
Lemma replace_from_app m (Hm : ignores_prev m) b : forall a p q k,
  (forall a1 a2 p', a = a1 ++ a2 -> a2 <> [] ->
     m p' (a2 ++ b) = m p' a2
     /\ forall len rep, m p' a2 = Some (len, rep) -> len <= length a2) ->
  k <= length a ->
  replace_from m p k (a ++ b) = replace_from m p k a ++ replace_from m q 0 b.
Proof.
  induction a as [|c a IH]; intros p q k Hloc Hk.
  { cbn in Hk. assert (k = 0) as -> by lia. cbn. by apply replace_from_prev. }
  assert (forall a1 a2 p', a = a1 ++ a2 -> a2 <> [] ->
            m p' (a2 ++ b) = m p' a2
            /\ forall len rep, m p' a2 = Some (len, rep) -> len <= length a2) as Hloc'.
  { intros a1 a2 p' -> Hne. by apply (Hloc (c :: a1) a2 p'). }
  cbn [app replace_from]. destruct k as [|k].
  - destruct (Hloc [] (c :: a) p eq_refl) as [He Hlen]; [done|].
    cbn [app] in He. rewrite He.
    destruct (m p (c :: a)) as [[len rep]|] eqn:E.
    + specialize (Hlen len rep eq_refl). cbn in Hlen.
      rewrite (IH (Some c) q (Nat.pred len)) by (done || lia).
      by rewrite app_assoc.
    + by rewrite (IH (Some c) q 0) by (done || lia).
  - cbn in Hk. by rewrite (IH (Some c) q k) by (done || lia).
Qed.

Lemma replace_from_drop m (Hm : ignores_prev m) s : forall p q k,
  k <= length s -> replace_from m p k s = replace_from m q 0 (drop k s).
Proof.
  induction s as [|c s IH]; intros p q k Hk.
  { cbn in Hk. assert (k = 0) as -> by lia. done. }
  destruct k as [|k]; [by apply replace_from_prev|].
  cbn in *. apply IH. lia.
Qed.

(** *** The classes of code units *)

Ltac unit_arith :=
  repeat match goal with
         | H : _ = true |- _ =>
             rewrite ?orb_true_iff, ?andb_true_iff, ?negb_true_iff,
               ?N.leb_le, ?N.eqb_eq in H
         end;
  repeat match goal with
         | |- _ /\ _ => split
         | |- _ = false => apply not_true_iff_false; intros ?
         | |- _ <> _ => intros ?
         end;
  repeat match goal with
         | H : _ = true |- _ =>
             progress rewrite ?orb_true_iff, ?andb_true_iff, ?negb_true_iff,
               ?N.leb_le, ?N.eqb_eq in H
         end;
  try lia.

Definition no_paren (c : N) : bool := negb (is_paren c).

Lemma ws_props c :
  is_ws c = true ->
  is_digit c = false /\ is_lower c = false /\ is_paren c = false /\ c <> 44%N.
Proof. unfold is_ws, is_digit, is_lower, is_paren. intros H. unit_arith. Qed.

Lemma digit_props c :
  is_digit c = true ->
  is_ws c = false /\ is_lower c = false /\ is_paren c = false /\ c <> 44%N.
Proof. unfold is_ws, is_digit, is_lower, is_paren. intros H. unit_arith. Qed.

Lemma lower_props c :
  is_lower c = true ->
  is_ws c = false /\ is_digit c = false /\ is_paren c = false /\ c <> 44%N.
Proof. unfold is_ws, is_digit, is_lower, is_paren. intros H. unit_arith. Qed.

(** *** White space at the start *)

Lemma trimStart_length s : length (trimStart s) <= length s.
Proof. induction s as [|c s IH]; cbn; [lia|]. destruct (is_ws c); cbn; lia. Qed.

Lemma trimStart_split s :
  s = take (ws_run s) s ++ trimStart s /\ forallb is_ws (take (ws_run s) s) = true.
Proof.
  unfold ws_run. induction s as [|c s [IH1 IH2]]; [done|].
  cbn [trimStart]. pose proof (trimStart_length s).
  destruct (is_ws c) eqn:E.
  - replace (length (c :: s) - length (trimStart s))
      with (S (length s - length (trimStart s))) by (cbn; lia).
    cbn [take app forallb]. rewrite E. split; [by f_equal|done].
  - by rewrite Nat.sub_diag.
Qed.

Lemma trimStart_app_ws w r : forallb is_ws w = true -> trimStart (w ++ r) = trimStart r.
Proof.
  induction w as [|c w IH]; [done|]. cbn. intros H.
  apply andb_true_iff in H as [-> H]. by apply IH.
Qed.

Lemma trimStart_head_not_ws c r : is_ws c = false -> trimStart (c :: r) = c :: r.
Proof. intros H. cbn. by rewrite H. Qed.

Lemma ws_run_app_ws w r :
  forallb is_ws w = true -> trimStart r = r -> ws_run (w ++ r) = length w.
Proof.
  intros Hw Hr. unfold ws_run. rewrite trimStart_app_ws, Hr, length_app by done. lia.
Qed.

Lemma trimStart_app_open s z : trimStart (s ++ 40%N :: z) = trimStart s ++ 40%N :: z.
Proof. induction s as [|c s IH]; [done|]. cbn. by destruct (is_ws c). Qed.

Lemma ws_run_app_open s z : ws_run (s ++ 40%N :: z) = ws_run s.
Proof.
  unfold ws_run. rewrite trimStart_app_open, !length_app.
  pose proof (trimStart_length s). cbn. lia.
Qed.

(** *** The year and what stands before it *)

Definition year_unit (c : N) : bool := is_digit c || is_lower c.

Lemma year_here_spec s y n rest :
  year_here s = Some (y, n, rest) ->
  exists t, s = t ++ rest /\ length t = n /\ y = take 4 t
            /\ forallb year_unit t = true /\ 4 <= n.
Proof.
  unfold year_here. destruct s as [|a [|b [|c [|d s']]]]; try done.
  destruct (is_digit a) eqn:Ea, (is_digit b) eqn:Eb, (is_digit c) eqn:Ec,
    (is_digit d) eqn:Ed; cbn [andb]; try done.
  destruct s' as [|l s''].
  - intros [= <- <- <-]. exists [a; b; c; d]. unfold year_unit. cbn.
    rewrite Ea, Eb, Ec, Ed. repeat split; (done || lia).
  - destruct (is_lower l) eqn:El; intros [= <- <- <-].
    + exists [a; b; c; d; l]. unfold year_unit. cbn.
      rewrite Ea, Eb, Ec, Ed, El, orb_true_r. repeat split; (done || lia).
    + exists [a; b; c; d]. unfold year_unit. cbn.
      rewrite Ea, Eb, Ec, Ed. repeat split; (done || lia).
Qed.

Lemma year_here_found y sfx r :
  length y = 4 -> forallb is_digit y = true ->
  (sfx = [] /\ (forall l r', r = l :: r' -> is_lower l = false)
   \/ exists l, sfx = [l] /\ is_lower l = true) ->
  year_here (y ++ sfx ++ r) = Some (y, 4 + length sfx, r).
Proof.
  intros Hl Hd Hs.
  destruct y as [|a [|b [|c [|d [|e y]]]]]; try done. cbn in Hd.
  apply andb_true_iff in Hd as [Ea Hd]. apply andb_true_iff in Hd as [Eb Hd].
  apply andb_true_iff in Hd as [Ec Hd]. apply andb_true_iff in Hd as [Ed _].
  destruct Hs as [[-> Hr]|(l & -> & El)]; cbn; rewrite Ea, Eb, Ec, Ed; cbn.
  - destruct r as [|l r']; [done|]. by rewrite (Hr l r' eq_refl).
  - by rewrite El.
Qed.

Lemma year_here_app_open u z :
  year_here (u ++ 40%N :: z)
  = match year_here u with
    | Some (y, n, a) => Some (y, n, a ++ 40%N :: z)
    | None => None
    end.
Proof.
  assert (is_digit 40 = false /\ is_lower 40 = false) as [H1 H2] by done.
  destruct u as [|a [|b [|c [|d [|e u]]]]]; cbn [app year_here].
  - destruct z as [|? [|? [|? ?]]]; cbn; by rewrite ?H1.
  - destruct z as [|? [|? ?]]; cbn; by rewrite ?H1, ?andb_false_r.
  - destruct z as [|? ?]; cbn; by rewrite ?H1, ?andb_false_r.
  - cbn. by rewrite ?H1, ?andb_false_r.
  - destruct (is_digit a && is_digit b && is_digit c && is_digit d); [|done].
    by rewrite H2.
  - destruct (is_digit a && is_digit b && is_digit c && is_digit d); [|done].
    by destruct (is_lower e).
Qed.

Lemma startsWith_unit c s : startsWith [c] s = true -> exists s', s = c :: s'.
Proof.
  destruct s as [|x s]; [done|]. cbn. rewrite andb_true_r.
  intros H. apply N.eqb_eq in H as ->. by eexists.
Qed.

Lemma forallb_weaken {A} (f g : A -> bool) l :
  (forall x, f x = true -> g x = true) -> forallb f l = true -> forallb g l = true.
Proof.
  intros H. induction l as [|x l IH]; [done|]. cbn. intros Hf.
  apply andb_true_iff in Hf as [Hx Hf]. by rewrite (H x Hx), IH.
Qed.

Lemma comma_year_close_found ws y sfx post :
  forallb is_ws ws = true -> length y = 4 -> forallb is_digit y = true ->
  (sfx = [] \/ exists l, sfx = [l] /\ is_lower l = true) ->
  comma_year_close (44%N :: ws ++ y ++ sfx ++ 41%N :: post)
  = Some (1 + length ws + (4 + length sfx)).
Proof.
  intros Hws Hl Hd Hs. unfold comma_year_close.
  cbn [startsWith skipn]. rewrite N.eqb_refl. cbn [andb].
  assert (trimStart (y ++ sfx ++ 41%N :: post) = y ++ sfx ++ 41%N :: post) as Hy.
  { destruct y as [|a y]; [done|]. cbn in Hd. apply andb_true_iff in Hd as [Ha _].
    apply trimStart_head_not_ws. by apply digit_props in Ha as [-> _]. }
  rewrite !drop_0, trimStart_app_ws, Hy, ws_run_app_ws by done.
  rewrite year_here_found; [by cbn|done|done|].
  destruct Hs as [->|Hs]; [left|by right].
  split; [done|]. by intros l r' [= <- <-].
Qed.

Lemma comma_year_close_spec s n :
  comma_year_close s = Some n ->
  exists t rest, s = t ++ 41%N :: rest /\ length t = n /\ forallb no_paren t = true.
Proof.
  unfold comma_year_close. destruct (startsWith [44%N] s) eqn:E; [|done].
  apply startsWith_unit in E as [s' ->]. cbn [skipn]. rewrite !drop_0.
  destruct (year_here (trimStart s')) as [[[y m] after]|] eqn:Ey; [|done].
  destruct (startsWith [41%N] after) eqn:Ea; [|done].
  apply startsWith_unit in Ea as [rest ->]. intros [= <-].
  apply year_here_spec in Ey as (t & Ht & Hlt & _ & Hunits & _).
  destruct (trimStart_split s') as [Hs' Hws].
  exists (44%N :: take (ws_run s') s' ++ t), rest. split; [|split].
  - cbn [app]. f_equal. rewrite <- app_assoc, <- Ht. exact Hs'.
  - cbn. rewrite length_app, length_take. pose proof (trimStart_length s').
    unfold ws_run. lia.
  - cbn. rewrite forallb_app. apply andb_true_iff. split.
    + eapply forallb_weaken; [|exact Hws]. intros x Hx. unfold no_paren.
      by apply ws_props in Hx as (_ & _ & -> & _).
    + eapply forallb_weaken; [|exact Hunits]. intros x Hx. unfold no_paren, year_unit in *.
      apply orb_true_iff in Hx as [Hx|Hx].
      * by apply digit_props in Hx as (_ & _ & -> & _).
      * by apply lower_props in Hx as (_ & _ & -> & _).
Qed.

Lemma comma_year_close_app_open t z :
  comma_year_close (t ++ 40%N :: z) = comma_year_close t.
Proof.
  unfold comma_year_close. destruct t as [|c t]; [done|].
  cbn [app startsWith skipn]. rewrite !drop_0. destruct (44 =? c)%N; cbn [andb]; [|done].
  rewrite trimStart_app_open, year_here_app_open, ws_run_app_open.
  destruct (year_here (trimStart t)) as [[[y m] after]|]; [|done].
  by destruct after.
Qed.

(** *** The lazy run of the parenthetical pattern *)

Lemma first_close_unique t t' r r' :
  forallb no_paren t = true -> forallb no_paren t' = true ->
  t ++ 41%N :: r = t' ++ 41%N :: r' -> t = t' /\ r = r'.
Proof.
  revert t'. induction t as [|c t IH]; intros [|c' t'] Ht Ht' H; cbn in *.
  - by injection H as ->.
  - injection H as <- _. done.
  - injection H as -> _. done.
  - injection H as -> H. apply andb_true_iff in Ht as [_ Ht].
    apply andb_true_iff in Ht' as [_ Ht'].
    destruct (IH t' Ht Ht' H) as [-> ->]. done.
Qed.

Lemma lazy_run_unfold fuel k s :
  lazy_run fuel k s
  = let extend :=
      match fuel, s with
      | S fuel', c :: s' => if is_paren c then None else lazy_run fuel' (S k) s'
      | _, _ => None
      end in
    if 2 <=? k then
      match comma_year_close s with
      | Some n => Some (k + n)
      | None => extend
      end
    else extend.
Proof. by destruct fuel. Qed.

Lemma lazy_run_spec fuel : forall k s m,
  lazy_run fuel k s = Some m ->
  exists u rest, s = u ++ 41%N :: rest /\ forallb no_paren u = true /\ m = k + length u.
Proof.
  induction fuel as [|fuel IH]; intros k s m; rewrite lazy_run_unfold; cbn zeta.
  - destruct (2 <=? k); [|done].
    destruct (comma_year_close s) as [n|] eqn:E; [|done]. intros [= <-].
    apply comma_year_close_spec in E as (t & rest & -> & <- & Ht). by exists t, rest.
  - assert (match s with
            | [] => None
            | c :: s' => if is_paren c then None else lazy_run fuel (S k) s'
            end = Some m ->
            exists u rest, s = u ++ 41%N :: rest /\ forallb no_paren u = true
                           /\ m = k + length u) as Hext.
    { destruct s as [|c s']; [done|]. destruct (is_paren c) eqn:Ec; [done|].
      intros H. apply IH in H as (u & rest & -> & Hu & ->).
      exists (c :: u), rest. cbn. unfold no_paren at 1. rewrite Ec, Hu.
      repeat split; (done || lia). }
    destruct (2 <=? k); [|done].
    destruct (comma_year_close s) as [n|] eqn:E; [|done]. intros [= <-].
    apply comma_year_close_spec in E as (t & rest & -> & <- & Ht). by exists t, rest.
Qed.

Lemma lazy_run_complete x : forall fuel k tail n,
  forallb no_paren x = true -> length x <= fuel -> 2 <= k + length x ->
  comma_year_close tail = Some n ->
  is_Some (lazy_run fuel k (x ++ tail)).
Proof.
  induction x as [|c x IH]; intros fuel k tail n Hx Hf Hk Ht;
    rewrite lazy_run_unfold; cbn zeta.
  - cbn [app length] in *. rewrite Nat.add_0_r in Hk. apply Nat.leb_le in Hk.
    rewrite Hk, Ht. by eexists.
  - cbn [forallb length] in Hx, Hf, Hk. apply andb_true_iff in Hx as [Hc Hx].
    unfold no_paren in Hc. apply negb_true_iff in Hc.
    destruct fuel as [|fuel]; [lia|]. cbn [app]. rewrite Hc.
    assert (is_Some (lazy_run fuel (S k) (x ++ tail))) as Hext
      by (eapply IH; (done || lia)).
    destruct (2 <=? k); [|done].
    destruct (comma_year_close (c :: x ++ tail)); [by eexists|done].
Qed.

Lemma lazy_run_app_open fuel : forall k t z,
  lazy_run fuel k (t ++ 40%N :: z) = lazy_run fuel k t.
Proof.
  induction fuel as [|fuel IH]; intros k t z; rewrite !(lazy_run_unfold _ k);
    cbn zeta; rewrite comma_year_close_app_open.
  - done.
  - destruct t as [|c t]; cbn [app]; [done|].
    by rewrite IH.
Qed.

(** *** The parenthetical pass *)

Lemma match_year_end_unfold s :
  match_year_end s
  = match p_year_end s with
    | Some y => Some y
    | None => match s with [] => None | _ :: s' => match_year_end s' end
    end.
Proof. by destruct s. Qed.

Lemma trimStart_keeps_comma rest : 44%N ∈ rest -> truthy (trimStart rest) = true.
Proof.
  induction rest as [|c rest IH]; intros H; [by apply not_elem_of_nil in H|].
  cbn. destruct (is_ws c) eqn:Ec; [|done].
  apply elem_of_cons in H as [<-|H]; [done|]. by apply IH.
Qed.

Lemma p_year_end_comma u v : p_year_end (u ++ 44%N :: v) = None.
Proof.
  unfold p_year_end.
  destruct (year_here (u ++ 44%N :: v)) as [[[y n] rest]|] eqn:E; [|done].
  apply year_here_spec in E as (t & Heq & _ & _ & Hunits & _).
  rewrite trimStart_keeps_comma; [done|].
  assert (44%N ∈ t ++ rest) as Hin by (rewrite <- Heq; set_solver).
  apply elem_of_app in Hin as [Hin|Hin]; [|done].
  rewrite forallb_forall in Hunits. apply list_elem_of_In, Hunits in Hin. done.
Qed.

Lemma p_year_end_not_digit c r : is_digit c = false -> p_year_end (c :: r) = None.
Proof.
  intros Hc. unfold p_year_end, year_here.
  destruct r as [|b [|d [|e r]]]; try done. by rewrite Hc.
Qed.

Lemma match_year_end_found x ws y sfx :
  forallb is_ws ws = true -> length y = 4 -> forallb is_digit y = true ->
  (sfx = [] \/ exists l, sfx = [l] /\ is_lower l = true) ->
  match_year_end (x ++ 44%N :: ws ++ y ++ sfx) = Some y.
Proof.
  intros Hws Hl Hd Hs.
  induction x as [|c x IH].
  2:{ rewrite match_year_end_unfold.
      by rewrite (p_year_end_comma (c :: x)). }
  rewrite match_year_end_unfold, (p_year_end_comma []). cbn [app].
  induction ws as [|c ws IH].
  - cbn [app]. rewrite match_year_end_unfold. unfold p_year_end.
    rewrite <- (app_nil_r sfx).
    rewrite year_here_found; [done|done|done|].
    destruct Hs as [->|Hs]; [left|by right]. by split.
  - cbn in Hws. apply andb_true_iff in Hws as [Hc Hws].
    cbn [app]. rewrite match_year_end_unfold, p_year_end_not_digit.
    + by apply IH.
    + by apply ws_props in Hc as [-> _].
Qed.

Section Parens.
Variable toLowerCase : jsstring -> jsstring.
Variable authorYearMap : gmap jsstring Entry.

Lemma m_parens_ignores : ignores_prev (m_parens toLowerCase authorYearMap).
Proof. by intros p q s. Qed.

Lemma m_parens_local t z p :
  t <> [] ->
  m_parens toLowerCase authorYearMap p (t ++ 40%N :: z)
  = m_parens toLowerCase authorYearMap p t
  /\ forall len rep,
       m_parens toLowerCase authorYearMap p t = Some (len, rep) -> len <= length t.
Proof.
  intros Ht. destruct t as [|c t]; [done|]. unfold m_parens.
  cbn [app startsWith skipn]. rewrite !drop_0.
  destruct ((40 =? c)%N && true); [|done].
  rewrite lazy_run_app_open.
  destruct (lazy_run 80 0 t) as [n|] eqn:E; [|done].
  apply lazy_run_spec in E as (u & rest & -> & Hu & ->). cbn [Nat.add].
  split.
  - rewrite <- app_assoc. by rewrite !take_app_length.
  - intros len rep [= <- _]. cbn. rewrite length_app. cbn. lia.
Qed.

Lemma m_parens_match p x ws y sfx post :
  2 <= length x <= 80 -> forallb no_paren x = true ->
  forallb is_ws ws = true -> length y = 4 -> forallb is_digit y = true ->
  (sfx = [] \/ exists l, sfx = [l] /\ is_lower l = true) ->
  m_parens toLowerCase authorYearMap p
    (40%N :: (x ++ 44%N :: ws ++ y ++ sfx) ++ 41%N :: post)
  = Some (length (x ++ 44%N :: ws ++ y ++ sfx) + 2,
          link_parens toLowerCase authorYearMap (x ++ 44%N :: ws ++ y ++ sfx)).
Proof.
  intros Hx Hnp Hws Hl Hd Hs. unfold m_parens.
  cbn [startsWith skipn]. rewrite !drop_0, N.eqb_refl. cbn [andb].
  set (inner := x ++ 44%N :: ws ++ y ++ sfx).
  assert (forallb no_paren inner = true) as Hinner.
  { unfold inner. rewrite forallb_app. cbn. rewrite !forallb_app, Hnp. cbn.
    rewrite (forallb_weaken is_ws no_paren) by
      (done || (intros c Hc; unfold no_paren; by apply ws_props in Hc as (_ & _ & -> & _))).
    rewrite (forallb_weaken is_digit no_paren) by
      (done || (intros c Hc; unfold no_paren; by apply digit_props in Hc as (_ & _ & -> & _))).
    destruct Hs as [->|(l & -> & Hl')]; [done|]. cbn. unfold no_paren.
    by apply lower_props in Hl' as (_ & _ & -> & _). }
  assert (is_Some (lazy_run 80 0 (inner ++ 41%N :: post))) as [m Hm].
  { unfold inner. rewrite <- app_assoc. cbn [app]. rewrite <- !app_assoc.
    eapply lazy_run_complete; [done|lia|lia|].
    by apply comma_year_close_found. }
  rewrite Hm. pose proof Hm as Hm'.
  apply lazy_run_spec in Hm' as (u & rest & Heq & Hu & ->).
  apply first_close_unique in Heq as [<- <-]; [|done|done].
  cbn [Nat.add]. by rewrite take_app_length.
Qed.


End Parens.

(** *** The marker cleanup *)

(** A marker [[itemId:N]] starts at the start of [s]. *)
Definition marker_here (s : jsstring) : bool :=
  match m_marker None s with Some _ => true | None => false end.

(** A marker occurs in [s]. *)
Fixpoint has_marker (s : jsstring) : bool :=
  marker_here s || match s with [] => false | _ :: s' => has_marker s' end.

(** No bracket opens inside a bracket; [inside] says that a bracket is
    open at the start of [s]. *)
Fixpoint flat_from (inside : bool) (s : jsstring) : bool :=
  match s with
  | [] => true
  | c :: s' =>
      if (c =? 91)%N then negb inside && flat_from true s'
      else if (c =? 93)%N then flat_from false s'
      else flat_from inside s'
  end.

Definition brackets_flat (s : jsstring) : bool := flat_from false s.

Definition no_bracket (c : N) : bool := negb ((c =? 91)%N || (c =? 93)%N).

Lemma m_marker_ignores : ignores_prev m_marker.
Proof. by intros p q s. Qed.

Lemma dropWhileDigits_length r : length (dropWhileDigits r) <= length r.
Proof. induction r as [|c r IH]; cbn; [lia|]. destruct (is_digit c); cbn; lia. Qed.

Lemma dropWhileDigits_split r :
  let n := length r - length (dropWhileDigits r) in
  r = take n r ++ dropWhileDigits r /\ forallb is_digit (take n r) = true
  /\ drop n r = dropWhileDigits r.
Proof.
  cbn zeta. induction r as [|c r (IH1 & IH2 & IH3)]; [done|].
  cbn [dropWhileDigits]. pose proof (dropWhileDigits_length r).
  destruct (is_digit c) eqn:E.
  - replace (length (c :: r) - length (dropWhileDigits r))
      with (S (length r - length (dropWhileDigits r))) by (cbn; lia).
    cbn [take skipn app forallb]. rewrite E. repeat split; [by f_equal|done|done].
  - by rewrite Nat.sub_diag.
Qed.

Lemma dropWhileDigits_app_close u z :
  dropWhileDigits (u ++ 93%N :: z) = dropWhileDigits u ++ 93%N :: z.
Proof. induction u as [|c u IH]; [done|]. cbn. by destruct (is_digit c). Qed.

(** What a match of the marker pattern looks like. *)
Lemma m_marker_spec p s len rep :
  m_marker p s = Some (len, rep) ->
  rep = [] /\ exists ds rest,
    s = s_marker ++ ds ++ 93%N :: rest /\ forallb is_digit ds = true
    /\ len = 8 + length ds + 1.
Proof.
  unfold m_marker. destruct (startsWith s_marker s) eqn:E; [|done].
  apply startsWith_spec in E as [r ->].
  change (drop 8 (s_marker ++ r)) with r.
  destruct (dropWhileDigits_split r) as (Hr & Hd & Hdrop). cbn zeta in *.
  set (n := length r - length (dropWhileDigits r)) in *.
  change (drop (8 + n) (s_marker ++ r)) with (drop n r). rewrite Hdrop.
  destruct (1 <=? n); cbn [andb]; [|done].
  destruct (startsWith [93%N] (dropWhileDigits r)) eqn:Ec; [|done].
  apply startsWith_unit in Ec as [rest Hrest]. intros [= <- <-].
  split; [done|]. exists (take n r), rest. rewrite <- Hrest, <- Hr.
  split; [done|]. split; [done|].
  rewrite length_take. pose proof (dropWhileDigits_length r). lia.
Qed.

Lemma m_marker_not_open p c s : c <> 91%N -> m_marker p (c :: s) = None.
Proof.
  intros Hc. unfold m_marker, s_marker. by rewrite startsWith_head_ne.
Qed.

Lemma startsWith_before p c : lacks c p = true -> forall a b,
  startsWith p (a ++ c :: b) = startsWith p a.
Proof.
  intros Hc a b. destruct (startsWith p a) eqn:E.
  - by apply startsWith_app.
  - destruct (startsWith p (a ++ c :: b)) eqn:E'; [|done].
    apply (startsWith_across p c Hc) in E'. congruence.
Qed.

(** Up to the first closing bracket, the pattern does not look further. *)
Lemma m_marker_closed p u A B :
  forallb no_bracket u = true ->
  m_marker p (91%N :: u ++ 93%N :: A) = m_marker p (91%N :: u ++ 93%N :: B).
Proof.
  intros Hu. unfold m_marker.
  change (91%N :: u ++ 93%N :: A) with ((91%N :: u) ++ 93%N :: A).
  change (91%N :: u ++ 93%N :: B) with ((91%N :: u) ++ 93%N :: B).
  rewrite !(startsWith_before s_marker 93) by done.
  destruct (startsWith s_marker (91%N :: u)) eqn:E; [|done].
  apply startsWith_spec in E as [r Hr]. rewrite !Hr, <- !app_assoc.
  change (drop 8 (s_marker ++ ?x)) with x.
  rewrite !dropWhileDigits_app_close, !length_app. cbn [length].
  pose proof (dropWhileDigits_length r) as Hlen.
  destruct (dropWhileDigits_split r) as (_ & _ & Hdrop). cbn zeta in Hdrop.
  replace (length r + S (length A) - (length (dropWhileDigits r) + S (length A)))
    with (length r - length (dropWhileDigits r)) by lia.
  replace (length r + S (length B) - (length (dropWhileDigits r) + S (length B)))
    with (length r - length (dropWhileDigits r)) by lia.
  set (n := length r - length (dropWhileDigits r)) in *.
  change (drop (8 + n) (s_marker ++ ?x)) with (drop n x).
  assert (n <= length r) as Hn by (unfold n; lia).
  rewrite !drop_app_le, Hdrop by done.
  by destruct (dropWhileDigits r).
Qed.

Abbreviation strip := (replace_from m_marker None 0).

Lemma strip_cons_none c s :
  m_marker None (c :: s) = None -> strip (c :: s) = c :: strip s.
Proof.
  intros H. rewrite replace_from_nomatch by done.
  f_equal. by apply replace_from_prev, m_marker_ignores.
Qed.

Lemma flat_from_open o s : flat_from o (91%N :: s) = negb o && flat_from true s.
Proof. done. Qed.

Lemma flat_from_close o s : flat_from o (93%N :: s) = flat_from false s.
Proof. done. Qed.

Lemma flat_from_skip u : forallb no_bracket u = true -> forall o r,
  flat_from o (u ++ r) = flat_from o r.
Proof.
  induction u as [|c u IH]; intros Hu o r; [done|].
  cbn in Hu. apply andb_true_iff in Hu as [Hc Hu].
  unfold no_bracket in Hc. apply negb_true_iff, orb_false_iff in Hc as [H1 H2].
  cbn. rewrite H1, H2. by apply IH.
Qed.

(** Inside a bracket of a flat text, the cleanup does not change what
    the pattern sees. *)
Lemma m_marker_after_strip s : forall pfx,
  flat_from true s = true -> forallb no_bracket pfx = true ->
  m_marker None (91%N :: pfx ++ strip s) = m_marker None (91%N :: pfx ++ s).
Proof.
  induction s as [|c s IH]; intros pfx Hs Hp; [done|].
  cbn [flat_from] in Hs.
  destruct (N.eqb_spec c 91) as [->|H91]; [done|].
  rewrite strip_cons_none by (by apply m_marker_not_open).
  destruct (N.eqb_spec c 93) as [->|H93].
  - by apply m_marker_closed.
  - replace (pfx ++ c :: strip s) with ((pfx ++ [c]) ++ strip s)
      by (by rewrite <- app_assoc).
    replace (pfx ++ c :: s) with ((pfx ++ [c]) ++ s) by (by rewrite <- app_assoc).
    apply IH; [done|]. rewrite forallb_app, Hp. cbn. unfold no_bracket.
    apply N.eqb_neq in H91, H93. by rewrite H91, H93.
Qed.

Lemma strip_flat n : forall s o,
  length s <= n -> flat_from o s = true -> has_marker (strip s) = false.
Proof.
  induction n as [|n IH]; intros s o Hn Hs.
  { destruct s; [done|]. cbn in Hn. lia. }
  destruct s as [|c s]; [done|].
  destruct (m_marker None (c :: s)) as [[len rep]|] eqn:E.
  - rewrite (replace_from_match _ _ _ _ _ _ E).
    apply m_marker_spec in E as (-> & ds & rest & Heq & Hds & ->).
    assert (c = 91%N /\ s = lit "itemId:" ++ ds ++ 93%N :: rest) as [-> ->]
      by (by injection Heq as -> ->).
    assert (forallb no_bracket (lit "itemId:" ++ ds) = true) as Hnb.
    { rewrite forallb_app. apply andb_true_iff. split; [done|].
      eapply forallb_weaken; [|exact Hds]. intros x Hx. unfold no_bracket.
      unfold is_digit in Hx. apply andb_true_iff in Hx as [_ Hx]. apply N.leb_le in Hx.
      apply negb_true_iff, orb_false_iff. split; apply N.eqb_neq; lia. }
    cbn [app]. rewrite (replace_from_drop _ m_marker_ignores _ _ None).
    2:{ rewrite !length_app. cbn. lia. }
    replace (drop (Nat.pred (8 + length ds + 1)) (lit "itemId:" ++ ds ++ 93%N :: rest))
      with rest.
    2:{ rewrite app_assoc.
        replace (Nat.pred (8 + length ds + 1))
          with (length ((lit "itemId:" ++ ds) ++ [93%N]))
          by (rewrite !length_app; cbn; lia).
        replace ((lit "itemId:" ++ ds) ++ 93%N :: rest)
          with (((lit "itemId:" ++ ds) ++ [93%N]) ++ rest)
          by (by rewrite <- !app_assoc).
        by rewrite drop_app_length. }
    apply (IH rest false).
    + cbn in Hn. rewrite !length_app in Hn. cbn in Hn. lia.
    + rewrite flat_from_open in Hs. apply andb_true_iff in Hs as [_ Hs].
      by rewrite app_assoc, (flat_from_skip _ Hnb), flat_from_close in Hs.
  - rewrite strip_cons_none by done. cbn [has_marker].
    cbn in Hn. cbn [flat_from] in Hs.
    apply orb_false_iff. split.
    + unfold marker_here.
      destruct (N.eqb_spec c 91) as [->|H91].
      * apply andb_true_iff in Hs as [_ Hs].
        pose proof (m_marker_after_strip s [] Hs eq_refl) as Hm.
        cbn [app] in Hm. by rewrite Hm, E.
      * by rewrite m_marker_not_open.
    + destruct (c =? 91)%N; [|destruct (c =? 93)%N].
      * apply andb_true_iff in Hs as [_ Hs]. apply (IH s true); (done || lia).
      * apply (IH s false); (done || lia).
      * apply (IH s o); (done || lia).
Qed.


(** *** Examples *)

(** [toLowerCase] on the letters A to Z, for the examples. *)
Definition lower_ascii (s : jsstring) : jsstring :=
  map (fun c => if is_upper c then (c + 32)%N else c) s.

Definition one_source : list Pair :=
  [ {| parentItem := nicoleau2014; pdfAttachment := {| att_id := 70 |} |} ].

Example resolves_parenthetical :
  postProcessCitations lower_ascii (lit "as shown (Nicoleau, 2014)") one_source
  = lit "as shown [(Nicoleau, 2014)](zotero://select/library/items/ABCD2345)".
Proof. by vm_compute. Qed.

Example keeps_unknown_parenthetical :
  postProcessCitations lower_ascii (lit "(Smith, 1999)") one_source = lit "(Smith, 1999)".
Proof. by vm_compute. Qed.

Example resolves_narrative :
  postProcessCitations lower_ascii (lit "Nicoleau and Begarin (2014) argue...") one_source
  = lit "[Nicoleau and Begarin (2014)](zotero://select/library/items/ABCD2345) argue...".
Proof. by vm_compute. Qed.

(** The narrative pattern wants a name right before the year, so a
    citation that ends in [et al.] is not matched. *)
Example keeps_narrative_et_al :
  postProcessCitations lower_ascii (lit "Nicoleau et al. (2014) argue...") one_source
  = lit "Nicoleau et al. (2014) argue...".
Proof. by vm_compute. Qed.



Example strips_markers :
  postProcessCitations lower_ascii (lit "see [itemId:12] (Nicoleau, 2014)[itemId:3]")
    one_source
  = lit "see  [(Nicoleau, 2014)](zotero://select/library/items/ABCD2345)".
Proof. by vm_compute. Qed.



(** A source without a date registers nothing; with an empty index the
    text is returned before the cleanup, markers included. *)
Definition undated_source : list Pair :=
  [ {| parentItem :=
         {| item_id := 8;
            item_key := lit "WXYZ6789";
            item_title := lit "Notes on hydration";
            item_date := [];
            item_creators := [ {| lastName := lit "Begarin"; name := [] |} ] |};
       pdfAttachment := {| att_id := 80 |} |} ].

Example empty_index_returns_content :
  postProcessCitations lower_ascii (lit "see [itemId:3]") undated_source
  = lit "see [itemId:3]"
  /\ postProcessCitations lower_ascii (lit "see [itemId:3]") [] = lit "see [itemId:3]".
Proof. by vm_compute. Qed.

End CiteFacts.


(* ================================================================== *)
(** ** TableCache: what a lookup answers and what a store leaves alone *)
(* ================================================================== *)

Module CacheMore.

Lemma trimStart_idem s : trimStart (trimStart s) = trimStart s.
Proof.
  induction s as [|c s IH]; [done|]. cbn [trimStart].
  destruct (is_ws c) eqn:E; [done|]. cbn [trimStart]. by rewrite E.
Qed.

Lemma trimEnd_idem s : trimEnd (trimEnd s) = trimEnd s.
Proof. unfold trimEnd. by rewrite rev_involutive, trimStart_idem. Qed.

Lemma trimStart_trimEnd s : trimStart (trimEnd (trimStart s)) = trimEnd (trimStart s).
Proof.
  destruct (trimStart s) as [|c r] eqn:E; [done|].
  pose proof (trimStart_head _ _ _ E) as Hc.
  rewrite trimEnd_cons by done. cbn [trimStart]. by rewrite Hc.
Qed.

Lemma trim_idem s : trim (trim s) = trim s.
Proof. unfold trim. by rewrite trimStart_trimEnd, trimEnd_idem. Qed.

Lemma readTableNote_trimmed html e :
  readTableNote html = Some e -> e <> [] /\ trim e = e.
Proof.
  unfold readTableNote, unescapeRaw.
  destruct (raw_match html) as [cap|]; [destruct (truthy cap)|];
    intros H; apply or_null_Some in H as [-> H]; (split; [done|apply trim_idem]).
Qed.

Lemma firstTagged_Some l n :
  firstTagged l = Some n -> hasTableTag n = true /\ Some n ∈ l.
Proof.
  induction l as [|[n'|] l IH]; cbn [firstTagged]; [done| |].
  - destruct (hasTableTag n') eqn:E.
    + intros [= ->]. split; [done|]. apply elem_of_cons. by left.
    + intros H. destruct (IH H) as [Ht Hin]. split; [done|].
      apply elem_of_cons. by right.
  - intros H. destruct (IH H) as [Ht Hin]. split; [done|].
    apply elem_of_cons. by right.
Qed.

(** X1: [findTableNote] answers with null or with a text that is not
    empty and has no white space at either end, whatever the notes hold. *)
Theorem findTableNote_answer st item e :
  findTableNote st item = Some e -> e <> [] /\ trim e = e.
Proof.
  unfold findTableNote. rewrite findIn_firstTagged.
  destruct (firstTagged (getNotes st item)) as [n|]; [|done].
  apply readTableNote_trimmed.
Qed.

Lemma raw_match_here_includes s cap :
  raw_match_here s = Some cap -> includes raw_attr s = true.
Proof.
  unfold raw_match_here.
  destruct (startsWith open_div s || startsWith open_pre s); [|done].
  destruct (break_at 62 (drop 4 s)) as [[attrs body]|] eqn:Hb; [|done].
  destruct (includes raw_attr attrs) eqn:Hi; [|done]. intros _.
  apply break_at_spec in Hb as [Hb _].
  rewrite <- (take_drop 4 s), Hb.
  by apply includes_infix.
Qed.

Lemma raw_match_includes s cap : raw_match s = Some cap -> includes raw_attr s = true.
Proof.
  induction s as [|c s IH]; rewrite raw_match_unfold.
  - destruct (raw_match_here []) eqn:E; [|done]. intros _.
    by apply raw_match_here_includes in E.
  - destruct (raw_match_here (c :: s)) eqn:E.
    + intros _. by apply raw_match_here_includes in E.
    + intros H. cbn [includes]. rewrite (IH H). apply orb_true_r.
Qed.

(** X2: a tagged note that does not name the attribute
    [data-ai-table-raw] anywhere (the older format) is read as its text with
    the tags taken out and trimmed; null when nothing is left. *)
Theorem findTableNote_legacy st item n :
  firstTagged (getNotes st item) = Some n ->
  includes raw_attr (note_html n) = false ->
  findTableNote st item = or_null (trim (stripTags (note_html n))).
Proof.
  intros Hn Hno. unfold findTableNote. rewrite findIn_firstTagged, Hn. cbn.
  unfold readTableNote.
  destruct (raw_match (note_html n)) as [cap|] eqn:E; [|done].
  apply raw_match_includes in E. congruence.
Qed.

Section Store.
Variable marked_parse : jsstring -> jsstring.

(** X3: [saveTableNote] never deletes or changes a note: the notes of
    other items stay as they are, the notes of the item stay or get one
    more note at the end, and the note returned is tagged AI-Table and is
    among the notes of the item afterwards. *)
Theorem saveTableNote_keeps_notes st item t :
  (forall k, k <> item_id item ->
     snd (saveTableNote marked_parse st item t) !! k = st !! k)
  /\ (getNotes (snd (saveTableNote marked_parse st item t)) item = getNotes st item
      \/ getNotes (snd (saveTableNote marked_parse st item t)) item
         = getNotes st item ++ [Some (fst (saveTableNote marked_parse st item t))])
  /\ hasTableTag (fst (saveTableNote marked_parse st item t)) = true
  /\ Some (fst (saveTableNote marked_parse st item t))
     ∈ getNotes (snd (saveTableNote marked_parse st item t)) item.
Proof.
  assert (forall r, r = createTableNote marked_parse st item t ->
            (forall k, k <> item_id item -> snd r !! k = st !! k)
            /\ (getNotes (snd r) item = getNotes st item
                \/ getNotes (snd r) item = getNotes st item ++ [Some (fst r)])
            /\ hasTableTag (fst r) = true
            /\ Some (fst r) ∈ getNotes (snd r) item) as Hcreate.
  { intros r ->. unfold createTableNote. cbn [fst snd].
    rewrite getNotes_saveTx. split; [|split; [by right|split; [done|]]].
    - intros k Hk. unfold saveTx. by rewrite lookup_insert_ne.
    - apply elem_of_app. right. apply elem_of_cons. by left. }
  unfold saveTableNote.
  destruct (findTableNote st item) as [e|]; [|by apply Hcreate].
  destruct (truthy e); [|by apply Hcreate].
  destruct (firstTagged (getNotes st item)) as [n|] eqn:Hn; [|by apply Hcreate].
  cbn [fst snd]. apply firstTagged_Some in Hn as [Ht Hin].
  split; [done|]. split; [by left|]. done.
Qed.

(** X4: when [findTableNote] has an answer for the item,
    [saveTableNote] stores nothing, whatever text it is given, and returns
    the first note of the item that is tagged AI-Table; the answer of
    [findTableNote] stays the same. *)
Theorem saveTableNote_no_overwrite st item t e :
  findTableNote st item = Some e ->
  snd (saveTableNote marked_parse st item t) = st
  /\ firstTagged (getNotes st item) = Some (fst (saveTableNote marked_parse st item t))
  /\ findTableNote (snd (saveTableNote marked_parse st item t)) item = Some e.
Proof.
  intros He.
  assert (exists n, firstTagged (getNotes st item) = Some n) as [n Hn].
  { unfold findTableNote in He. rewrite findIn_firstTagged in He.
    destruct (firstTagged (getNotes st item)) as [n|]; [by exists n|done]. }
  rewrite (saveTableNote_hit marked_parse st item t n e He Hn). done.
Qed.

End Store.

(** A note of the older format, without the hidden raw block. *)
Definition legacy_note : Note :=
  {| note_tags := [lit "other"; TABLE_NOTE_TAG];
     note_html := lit "<p> | a | b | </p>" |}.

Definition legacy_store : Store := {[ 7%Z := [None; Some legacy_note] ]}.

Lemma findTableNote_answer_witness :
  lit "| a | b |" <> [] /\ trim (lit "| a | b |") = lit "| a | b |".
Proof.
  apply (findTableNote_answer legacy_store nicoleau2014 (lit "| a | b |")).
  reflexivity.
Defined.

Lemma findTableNote_legacy_witness :
  findTableNote legacy_store nicoleau2014
  = or_null (trim (stripTags (note_html legacy_note))).
Proof.
  apply (findTableNote_legacy legacy_store nicoleau2014 legacy_note); reflexivity.
Defined.

Lemma saveTableNote_no_overwrite_witness :
  snd (saveTableNote one_paragraph legacy_store nicoleau2014 (lit "| x |")) = legacy_store
  /\ firstTagged (getNotes legacy_store nicoleau2014)
     = Some (fst (saveTableNote one_paragraph legacy_store nicoleau2014 (lit "| x |")))
  /\ findTableNote
       (snd (saveTableNote one_paragraph legacy_store nicoleau2014 (lit "| x |")))
       nicoleau2014
     = Some (lit "| a | b |").
Proof.
  apply (saveTableNote_no_overwrite one_paragraph legacy_store nicoleau2014
           (lit "| x |") (lit "| a | b |")).
  reflexivity.
Defined.

End CacheMore.

(* ================================================================== *)
(** ** Aggregator: texts without table rows *)
(* ================================================================== *)

Module AggregateMore.
Import Aggregate AggregateFacts Sched.

Lemma split_on_absent c s :
  forallb (fun x => negb (x =? c)) s = true -> split_on c s = [s].
Proof.
  induction s as [|x s IH]; [done|]. cbn [forallb split_on].
  intros H. apply andb_true_iff in H as [Hx Hs].
  apply negb_true_iff in Hx. by rewrite Hx, IH.
Qed.

Lemma trimStart_fixed c s : is_ws c = false -> trimStart (c :: s) = c :: s.
Proof. intros H. cbn. by rewrite H. Qed.

Lemma trim_fixed c mid d :
  is_ws c = false -> is_ws d = false -> trim (c :: mid ++ [d]) = c :: mid ++ [d].
Proof.
  intros Hc Hd. unfold trim. rewrite trimStart_fixed by done.
  unfold trimEnd. change (c :: mid ++ [d]) with ((c :: mid) ++ [d]).
  rewrite rev_app_distr. cbn [rev app]. rewrite trimStart_fixed by done.
  cbn [rev]. by rewrite rev_app_distr, rev_involutive.
Qed.

Lemma placeholder_shape message :
  exists mid, placeholder message = 40 :: mid ++ [41].
Proof.
  exists ([22635; 34920; 22833; 36133; 58; 32] ++ message).
  reflexivity.
Qed.

(** What the scan makes of the text recorded for a failed source: no
    header, no data row, the text as the one line outside the table. *)
Lemma split_placeholder message :
  forallb (fun x => negb (x =? 10)) message = true ->
  splitTableHeaderAndRows (placeholder message)
  = {| header := []; dataRows := []; nonTableContent := placeholder message |}.
Proof.
  intros Hm. unfold splitTableHeaderAndRows.
  rewrite split_on_absent.
  2:{ unfold placeholder. rewrite !forallb_app, Hm. done. }
  cbn [fold_left]. unfold scan_line.
  destruct (placeholder_shape message) as [mid ->].
  rewrite trim_fixed by done. cbn. done.
Qed.

(** X5: when every source of the batch failed, the aggregated document
    has no table definition at the top, and the entry of each source holds
    the failure text twice: once as its line outside a table and once as the
    table given back whole. *)
Theorem aggregate_failed_sources (failures : list (Z * jsstring)) (itemPdfPairs : list Pair) :
  Forall (fun km => forallb (fun x => negb (x =? 10)) (snd km) = true) failures ->
  aggregateTableContents (map (fun km => (fst km, placeholder (snd km))) failures)
    itemPdfPairs
  = join s_rule
      (imap (fun i km =>
               label_of (build_itemMap itemPdfPairs) (S i) (fst km)
               ++ nl ++ placeholder (snd km) ++ nl ++ placeholder (snd km))
            failures).
Proof.
  intros Hall.
  assert (first_header
            (map snd (map (fun km => (fst km, placeholder (snd km))) failures)) = [])
    as Hnone.
  { induction Hall as [|km l Hkm _ IH]; [done|].
    cbn [map snd first_header]. rewrite (split_placeholder _ Hkm).
    cbn [header truthy]. exact IH. }
  unfold aggregateTableContents. cbn zeta.
  destruct (loop_spec (build_itemMap itemPdfPairs)
              (map (fun km => (fst km, placeholder (snd km))) failures)
              {| globalHeader := []; parts := []; index := 1 |}) as (Hg & Hp & _).
  cbn zeta in *. rewrite Hg, Hp. cbn [globalHeader parts index truthy app].
  rewrite Hnone. cbn [truthy app]. f_equal. rewrite imap_fmap. apply imap_ext.
  intros i km Hi.
  assert (forallb (fun x => negb (x =? 10)) (snd km) = true) as Hkm.
  { rewrite Forall_forall in Hall. apply Hall. by eapply list_elem_of_lookup_2. }
  unfold entry_block. cbn [fst snd compose]. rewrite (split_placeholder _ Hkm).
  cbn [nonTableContent dataRows truthy].
  assert (truthy (placeholder (snd km)) = true) as ->
    by (by destruct (placeholder_shape (snd km)) as [mid ->]).
  by rewrite <- !app_assoc.
Qed.

Lemma aggregate_failed_sources_witness :
  aggregateTableContents
    (map (fun km => (fst km, placeholder (snd km)))
         [(7%Z, lit "timeout"); (9%Z, lit "no key")]) []
  = join s_rule
      (imap (fun i km =>
               label_of (build_itemMap []) (S i) (fst km)
               ++ nl ++ placeholder (snd km) ++ nl ++ placeholder (snd km))
            [(7%Z, lit "timeout"); (9%Z, lit "no key")]).
Proof.
  apply (aggregate_failed_sources [(7%Z, lit "timeout"); (9%Z, lit "no key")] []).
  repeat constructor.
Defined.

End AggregateMore.


(* ================================================================== *)
(** ** ParallelFillScheduler: bounds, order and the notes it leaves *)
(* ================================================================== *)

Module SchedMore.
Import Sched SchedFacts CacheMore.
Local Open Scope nat_scope.

(** The pairs for which [findTableNote] was called, in order. *)
Definition finds_of (tr : list Event) : list nat :=
  omap (fun e => match e with EvFind p _ => Some p | _ => None end) tr.

(** A worker that has not yet decided whether to call the extractor. *)
Definition undecided (w : Worker) : nat :=
  match w with AwaitFind _ _ => 1 | _ => 0 end.

Lemma finds_of_app a b : finds_of (a ++ b) = finds_of a ++ finds_of b.
Proof. apply omap_app. Qed.

Lemma sum_insert (f : Worker -> nat) ws i w w' :
  ws !! i = Some w ->
  sum_list_with f (<[i := w']> ws) + f w = sum_list_with f ws + f w'.
Proof.
  revert i. induction ws as [|x ws IH]; intros [|i] H; simplify_eq/=; [lia|].
  specialize (IH i H). lia.
Qed.

Lemma busy_count_le ws : busy_count ws <= length ws.
Proof.
  unfold busy_count. induction ws as [|w ws IH]; [done|].
  cbn. unfold busy at 1. destruct (is_finished w); lia.
Qed.

(** What a turn at the loop test changes. *)
Lemma loop_head_counts st :
  length (finds_of (trace (snd (loop_head st)))) + length (queue (snd (loop_head st)))
  = length (finds_of (trace st)) + length (queue st)
  /\ undecided (fst (loop_head st)) + length (queue (snd (loop_head st)))
     = length (queue st)
  /\ calls (snd (loop_head st)) = calls st
  /\ store (snd (loop_head st)) = store st
  /\ workers (snd (loop_head st)) = workers st
  /\ forall t table note, fst (loop_head st) <> AwaitSaveTx t table note.
Proof.
  unfold loop_head. destruct (queue st) as [|task rest] eqn:E; cbn; rewrite ?E.
  - done.
  - rewrite finds_of_app, length_app. cbn. repeat split; (done || lia).
Qed.

Section Turns.
Variable marked_parse : jsstring -> jsstring.
Variable fill : nat -> Item -> Attachment -> jsstring -> jsstring -> FillResult.
Variable tpl pr : jsstring.
Variable total : nat.

Abbreviation resume_ := (resume marked_parse fill tpl pr total).
Abbreviation step_ := (step marked_parse fill tpl pr total).
Abbreviation run_ := (run marked_parse fill tpl pr total).

Ltac split_resume :=
  repeat match goal with
         | |- context [if ?b then _ else _] => destruct b
         | |- context [match firstTagged ?x with _ => _ end] =>
             destruct (firstTagged x)
         end.

(** What one turn of a worker changes. *)
Lemma resume_counts w st :
  length (finds_of (trace (snd (resume_ w st)))) + length (queue (snd (resume_ w st)))
  = length (finds_of (trace st)) + length (queue st)
  /\ calls (snd (resume_ w st)) + undecided (fst (resume_ w st))
       + length (queue (snd (resume_ w st)))
     <= calls st + undecided w + length (queue st)
  /\ workers (snd (resume_ w st)) = workers st.
Proof.
  destruct w as [t [text|]|t [table|message]|t table [text|]|t table note|];
    cbn [resume]; split_resume;
    try match goal with
        | |- context [loop_head ?x] =>
            destruct (loop_head_counts x) as (H1 & H2 & H3 & _ & H5 & _);
            rewrite H1, H3, H5; revert H2;
            generalize (undecided (fst (loop_head x))),
                       (length (queue (snd (loop_head x))));
            intros u q H2; cbn in H2 |- *
        end;
    cbn; rewrite ?finds_of_app, ?length_app; cbn; repeat split; try done; lia.
Qed.

(** A turn stores at most the note that its worker was about to save,
    and a worker that comes to save a note holds one tagged AI-Table. *)
Lemma resume_store w st :
  (store (snd (resume_ w st)) = store st
   \/ exists t table note,
        w = AwaitSaveTx t table note
        /\ store (snd (resume_ w st)) = saveTx (store st) (parentItem (pair t)) note)
  /\ forall t table note,
       fst (resume_ w st) = AwaitSaveTx t table note -> hasTableTag note = true.
Proof.
  destruct w as [t [text|]|t [table|message]|t table [text|]|t table note|];
    cbn [resume]; split_resume;
    try match goal with
        | |- context [loop_head ?x] =>
            destruct (loop_head_counts x) as (_ & _ & _ & H4 & _ & H6);
            rewrite H4; cbn; split; [eauto 10|by intros ??? ?%H6]
        end;
    cbn; (split; [by left|]); intros ??? [= <- <- <-]; done.
Qed.

Definition counts (n : nat) (st : State) : Prop :=
  length (finds_of (trace st)) + length (queue st) = n
  /\ calls st + sum_list_with undecided (workers st) + length (queue st) <= n.

Lemma counts_step n st i : counts n st -> counts n (step_ st i).
Proof.
  intros [H1 H2]. unfold step.
  destruct (workers st !! i) as [w|] eqn:Hi; [|done].
  destruct (resume_counts w st) as (R1 & R2 & R3).
  destruct (resume_ w st) as [w' st']. cbn [fst snd] in *.
  unfold counts, set_worker. cbn [queue trace calls workers]. rewrite R3.
  pose proof (sum_insert undecided _ _ _ w' Hi). split; lia.
Qed.

Lemma counts_run n sched : forall st, counts n st -> counts n (run_ sched st).
Proof.
  induction sched as [|i sched IH]; intros st H; [done|].
  cbn [run fold_left]. apply IH. by apply counts_step.
Qed.

Lemma counts_spawn n k : forall st, counts n st -> counts n (spawn k st).
Proof.
  induction k as [|k IH]; intros st [H1 H2]; [done|].
  cbn [spawn]. destruct (loop_head_counts st) as (L1 & L2 & L3 & _ & L5 & _).
  destruct (loop_head st) as [w st']. cbn [fst snd] in *.
  apply IH. unfold counts. cbn [queue trace calls workers].
  rewrite L3, L5, sum_list_with_app. cbn [sum_list_with]. split; lia.
Qed.

(** The notes of the item with id [k]. *)
Definition notes_at (st : Store) (k : Z) : list (option Note) := default [] (st !! k).

Definition tagged (n : option Note) : Prop :=
  exists note, n = Some note /\ hasTableTag note = true.

(** The store has the notes of [st0] and, behind them, tagged notes of
    items that workers held. *)
Definition grown (ids : list Z) (st0 : Store) (st : State) : Prop :=
  (forall k, exists new,
      notes_at (store st) k = notes_at st0 k ++ new
      /\ Forall tagged new /\ (k ∉ ids -> new = []))
  /\ (forall i t table note,
        workers st !! i = Some (AwaitSaveTx t table note) -> hasTableTag note = true).

Lemma notes_at_saveTx st item n k :
  notes_at (saveTx st item n) k
  = if decide (k = item_id item) then notes_at st k ++ [Some n] else notes_at st k.
Proof.
  unfold notes_at, saveTx, getNotes. destruct (decide (k = item_id item)) as [->|Hne].
  - by rewrite lookup_insert_eq.
  - by rewrite lookup_insert_ne.
Qed.

Lemma grown_step ids st0 st i :
  (forall w t, workers st !! i = Some w -> task_of w = Some t -> task_id t ∈ ids) ->
  grown ids st0 st -> grown ids st0 (step_ st i).
Proof.
  intros Hids [Hst Hws]. unfold step.
  destruct (workers st !! i) as [w|] eqn:Hi; [|done].
  destruct (resume_store w st) as [Hs Hn].
  destruct (resume_counts w st) as (_ & _ & R3).
  destruct (resume_ w st) as [w' st']. cbn [fst snd] in *.
  split; cbn [set_worker store workers].
  - intros k. destruct (Hst k) as (new & Hk & Hnew & Hout).
    destruct Hs as [->|(t & table & note & -> & ->)]; [by exists new|].
    rewrite notes_at_saveTx. destruct (decide (k = item_id (parentItem (pair t)))) as [->|Hne].
    + exists (new ++ [Some note]). rewrite Hk, app_assoc. split; [done|]. split.
      * apply Forall_app. split; [done|]. apply Forall_singleton.
        exists note. split; [done|]. by eapply Hws.
      * intros Hnot. destruct Hnot. by eapply (Hids _ t).
    + by exists new.
  - intros j t table note Hj. rewrite R3 in Hj.
    destruct (decide (j = i)) as [->|Hne].
    + rewrite list_lookup_insert_eq in Hj by (by eapply lookup_lt_Some).
      injection Hj as ->. by eapply Hn.
    + rewrite list_lookup_insert_ne in Hj by done. by eapply Hws.
Qed.

Lemma grown_spawn ids st0 k : forall st, grown ids st0 st -> grown ids st0 (spawn k st).
Proof.
  induction k as [|k IH]; intros st [Hst Hws]; [done|].
  cbn [spawn]. destruct (loop_head_counts st) as (_ & _ & _ & L4 & L5 & L6).
  destruct (loop_head st) as [w st']. cbn [fst snd] in *.
  apply IH. split; cbn [store workers].
  - by rewrite L4.
  - intros j t table note Hj. rewrite L5 in Hj.
    apply lookup_app_Some in Hj as [Hj|[_ Hj]]; [by eapply Hws|].
    apply list_lookup_singleton_Some in Hj as [_ ->]. by destruct (L6 t table note).
Qed.

End Turns.

Section Bounds.
Variable marked_parse : jsstring -> jsstring.
Variable fill : nat -> Item -> Attachment -> jsstring -> jsstring -> FillResult.
Variable tpl pr : jsstring.
Variable st0 : Store.
Variable items : list Pair.
Variable concurrency : Z.

Abbreviation after sched :=
  (fillTablesInParallel marked_parse fill st0 items tpl pr concurrency sched).

Lemma counts_after sched : counts (length items) (after sched).
Proof.
  unfold fillTablesInParallel, start. apply counts_run, counts_spawn.
  unfold counts. cbn. rewrite tasks_of_length. lia.
Qed.


(** X7: the extractor is called at most once for every pair: at no
    point of any schedule has it been called more often than there are
    pairs, and its calls are numbered in the order in which they are made. *)
Theorem calls_bounded sched :
  calls (after sched) <= length items
  /\ fills_of (trace (after sched)) = seq 0 (calls (after sched)).
Proof.
  pose proof (inv_fillTablesInParallel marked_parse fill tpl pr items st0 concurrency sched)
    as HI.
  destruct (counts_after sched) as [_ H2].
  split; [lia|]. by apply (inv_calls _ _ _ _ _ _ HI).
Qed.

(** X8: with a concurrency of zero or less no worker is started: the
    map returned is empty, nothing is looked up, extracted or stored and the
    progress callback is not called, however many pairs there are. *)
Theorem nonpositive_concurrency sched :
  (concurrency <= 0)%Z ->
  workers (after sched) = []
  /\ all_finished (after sched) = true
  /\ results (after sched) = []
  /\ trace (after sched) = []
  /\ store (after sched) = st0
  /\ queue (after sched) = tasks_of items.
Proof.
  intros Hc. unfold fillTablesInParallel, start.
  assert (effectiveConcurrency concurrency (length items) = 0) as ->
    by (unfold effectiveConcurrency; lia).
  cbn [spawn]. rewrite run_no_workers by done. done.
Qed.

Definition batch_ids : list Z := map (fun p => item_id (parentItem p)) items.

Lemma tasks_of_ids p t : tasks_of items !! p = Some t -> task_id t ∈ batch_ids.
Proof.
  unfold tasks_of. rewrite list_lookup_imap.
  destruct (items !! p) as [x|] eqn:E; [|done]. cbn. intros [= <-].
  unfold batch_ids, task_id. cbn. apply list_elem_of_fmap. exists x.
  split; [done|]. by eapply list_elem_of_lookup_2.
Qed.

Lemma grown_after sched : grown batch_ids st0 (after sched).
Proof.
  induction sched as [|i sched IH] using rev_ind.
  - unfold fillTablesInParallel, start. cbn [run fold_left].
    apply grown_spawn. split; cbn.
    + intros k. exists []. by rewrite app_nil_r.
    + intros i t table note Hi. by rewrite lookup_nil in Hi.
  - unfold fillTablesInParallel in *. rewrite run_app. cbn [run fold_left].
    apply grown_step; [|done].
    intros w t Hw Ht.
    pose proof (inv_fillTablesInParallel marked_parse fill tpl pr items st0
                  concurrency sched) as HI.
    destruct (inv_held _ _ _ _ _ _ HI i w t Hw Ht) as (_ & Hin & _).
    by eapply tasks_of_ids.
Qed.

(** X9: the scheduler never deletes or changes a note: after any
    schedule every item has the notes it had before, in their order, with
    nothing but notes tagged AI-Table behind them, and an item that is not in
    the batch has exactly the notes it had. *)
Theorem store_only_grows sched k :
  exists new,
    notes_at (store (after sched)) k = notes_at st0 k ++ new
    /\ Forall tagged new
    /\ (k ∉ batch_ids -> new = []).
Proof. destruct (grown_after sched) as [H _]. apply H. Qed.

End Bounds.

Lemma nonpositive_concurrency_witness :
  workers (fillTablesInParallel one_paragraph fill_but_b ∅ three_pairs [] [] (-2) in_turn) = []
  /\ all_finished
       (fillTablesInParallel one_paragraph fill_but_b ∅ three_pairs [] [] (-2) in_turn)
     = true
  /\ results (fillTablesInParallel one_paragraph fill_but_b ∅ three_pairs [] [] (-2) in_turn)
     = []
  /\ trace (fillTablesInParallel one_paragraph fill_but_b ∅ three_pairs [] [] (-2) in_turn)
     = []
  /\ store (fillTablesInParallel one_paragraph fill_but_b ∅ three_pairs [] [] (-2) in_turn)
     = ∅
  /\ queue (fillTablesInParallel one_paragraph fill_but_b ∅ three_pairs [] [] (-2) in_turn)
     = tasks_of three_pairs.
Proof.
  apply (nonpositive_concurrency one_paragraph fill_but_b [] [] ∅ three_pairs (-2) in_turn).
  lia.
Defined.

(** *** One worker *)

Lemma jsmap_set_fresh k v (m : JsMap.t) :
  k ∉ map fst m -> JsMap.set k v m = m ++ [(k, v)].
Proof.
  induction m as [|[k' v'] m IH]; cbn; intros H; [done|].
  apply not_elem_of_cons in H as [Hne H].
  destruct (Z.eqb_spec k' k) as [->|_]; [done|]. by rewrite IH.
Qed.

Section OneWorker.
Variable marked_parse : jsstring -> jsstring.
Variable fill : nat -> Item -> Attachment -> jsstring -> jsstring -> FillResult.
Variable tpl pr : jsstring.
Variable st0 : Store.
Variable items : list Pair.
Hypothesis distinct : NoDup (batch_ids items).

Abbreviation tasks := (tasks_of items).
Abbreviation step1 := (step marked_parse fill tpl pr (length items)).

Lemma task_ids : map task_id tasks = batch_ids items.
Proof.
  unfold tasks_of, batch_ids. apply list_eq. intros i.
  rewrite !list_lookup_fmap, list_lookup_imap. by destruct (items !! i).
Qed.

Lemma task_id_fresh c t :
  tasks !! c = Some t -> task_id t ∉ map task_id (take c tasks).
Proof.
  intros Ht. pose proof distinct as Hnd. rewrite <- task_ids in Hnd.
  rewrite <- (take_drop (S c) tasks), map_app in Hnd.
  apply NoDup_app in Hnd as (Hnd & _ & _).
  rewrite (take_S_r _ _ _ Ht), map_app in Hnd.
  apply NoDup_app in Hnd as (_ & Hnd & _).
  intros Hin. apply (Hnd _ Hin). cbn. apply elem_of_cons. by left.
Qed.

(** With one worker the pairs are done one after the other: the worker
    holds the pair whose index is the number of pairs done. *)
Definition in_order (st : State) : Prop :=
  exists w,
    workers st = [w]
    /\ map fst (results st) = map task_id (take (completed st) tasks)
    /\ match task_of w with
       | Some t =>
           tasks !! completed st = Some t /\ queue st = drop (S (completed st)) tasks
       | None => queue st = [] /\ completed st = length tasks
       end.

Lemma in_order_next st t text w :
  workers st = [w] ->
  map fst (results st) = map task_id (take (completed st) tasks) ->
  tasks !! completed st = Some t ->
  queue st = drop (S (completed st)) tasks ->
  in_order (set_worker 0 (fst (loop_head (record (length items) t text st)))
              (snd (loop_head (record (length items) t text st)))).
Proof.
  intros Hw Hr Ht Hq.
  assert (map fst (JsMap.set (task_id t) text (results st))
          = map task_id (take (S (completed st)) tasks)) as Hr'.
  { rewrite jsmap_set_fresh by (rewrite Hr; by apply task_id_fresh).
    by rewrite map_app, Hr, (take_S_r _ _ _ Ht), map_app. }
  unfold loop_head, record. cbn [queue results completed store calls trace workers].
  rewrite Hq.
  destruct (drop (S (completed st)) tasks) as [|task rest] eqn:E;
    cbn [fst snd set_worker queue results completed store calls trace workers];
    rewrite Hw; cbn [insert list_insert].
  - exists Finished. split; [done|]. split; [done|]. cbn [task_of].
    split; [done|]. apply drop_nil_inv in E. apply lookup_lt_Some in Ht.
    cbn [set_worker completed]. lia.
  - eexists. split; [done|]. split; [done|].
    cbn [task_of set_worker completed queue].
    assert (tasks !! (S (completed st) + 0) = Some task) as H0
      by (rewrite <- lookup_drop, E; done).
    rewrite Nat.add_0_r in H0. split; [done|].
    rewrite (drop_S _ _ _ H0) in E. by injection E as <-.
Qed.

Lemma in_order_stay st w w' st' t :
  workers st = [w] -> task_of w = Some t -> task_of w' = Some t ->
  results st' = results st -> completed st' = completed st -> queue st' = queue st ->
  workers st' = workers st ->
  in_order st -> in_order (set_worker 0 w' st').
Proof.
  intros Hw Ht Ht' Hr Hc Hq Hws (w0 & Hw0 & Hr0 & Hq0).
  assert (w0 = w) as -> by congruence. rewrite Ht in Hq0.
  exists w'. unfold set_worker. cbn [queue results completed workers].
  rewrite Hws, Hw, Hr, Hc, Hq, Ht'. done.
Qed.

Lemma in_order_step st i : in_order st -> in_order (step1 st i).
Proof.
  intros HI. pose proof HI as (w & Hw & Hr & Hq). unfold step. rewrite Hw.
  destruct i as [|i]; [|cbn; by exists w]. cbn [lookup list_lookup].
  rewrite (surjective_pairing (resume _ _ _ _ _ w st)).
  destruct w as [t [text|]|t [table|message]|t table [text|]|t table note|];
    cbn [task_of] in Hq; cbn [resume]; try destruct Hq as [Ht Hq];
    repeat match goal with
           | |- context [if ?b then _ else _] => destruct b
           | |- context [match firstTagged ?x with _ => _ end] =>
               destruct (firstTagged x)
           end;
    try (by apply (in_order_next st _ _ _ Hw Hr Ht Hq));
    try (by apply (in_order_next (commit t note st) _ _ _ Hw Hr Ht Hq));
    try (by eapply (in_order_stay st _ _ _ t Hw)).
  exists Finished. unfold set_worker. cbn [queue results completed workers fst snd].
  rewrite Hw. done.
Qed.

Lemma in_order_start : items <> [] -> in_order (start st0 items 1).
Proof.
  intros Hne. unfold start.
  assert (effectiveConcurrency 1 (length items) = 1) as ->.
  { unfold effectiveConcurrency. destruct items; [done|]. cbn [length]. lia. }
  cbn [spawn]. unfold loop_head. cbn [queue].
  destruct tasks as [|task rest] eqn:E.
  { destruct items; [done|]. done. }
  cbn. eexists. split; [done|]. split; [done|]. cbn [task_of].
  rewrite E. cbn. by rewrite drop_0.
Qed.

(** X10: with a concurrency of 1 the pairs are finished in the order of
    the list, so when the items are distinct the map returned lists them in
    that order, whatever the schedule. *)
Theorem single_worker_in_order sched :
  all_finished
    (fillTablesInParallel marked_parse fill st0 items tpl pr 1 sched) = true ->
  map fst (results (fillTablesInParallel marked_parse fill st0 items tpl pr 1 sched))
  = batch_ids items.
Proof.
  intros Hf. destruct (decide (items = [])) as [Hnil|Hne].
  { subst items. unfold fillTablesInParallel, start. cbn [length].
    assert (effectiveConcurrency 1 0 = 0) as -> by done.
    cbn [spawn]. by rewrite run_no_workers. }
  assert (in_order (fillTablesInParallel marked_parse fill st0 items tpl pr 1 sched))
    as (w & Hw & Hr & Hq).
  { clear Hf. unfold fillTablesInParallel. generalize (in_order_start Hne).
    generalize (start st0 items 1). induction sched as [|i sched IH]; intros st H; [done|].
    cbn [run fold_left]. apply IH. by apply in_order_step. }
  unfold all_finished in Hf. rewrite Hw in Hf. cbn in Hf. rewrite andb_true_r in Hf.
  destruct w; try done. cbn [task_of] in Hq. destruct Hq as [_ Hc].
  by rewrite Hr, Hc, firstn_all, task_ids.
Qed.

End OneWorker.

(** One worker, resumed until it is done. *)
Definition alone : list nat := repeat 0 12.

Lemma single_worker_in_order_witness :
  map fst (results (fillTablesInParallel one_paragraph fill_but_b ∅ three_pairs [] [] 1 alone))
  = batch_ids three_pairs.
Proof.
  apply (single_worker_in_order one_paragraph fill_but_b [] [] ∅ three_pairs).
  - apply (bool_decide_unpack (NoDup (batch_ids three_pairs))). vm_compute. exact I.
  - vm_compute. reflexivity.
Defined.

(** With two workers the order is that of completion: see
    [three_run_results], where the second item comes first. *)
Example two_workers_out_of_order :
  map fst (results three_run) = [2; 1; 3]%Z
  /\ batch_ids three_pairs = [1; 2; 3]%Z.
Proof. by vm_compute. Qed.

End SchedMore.


(* ================================================================== *)
(** ** CitationResolver: what is in the index and what is left alone *)
(* ================================================================== *)

Module CiteMore.
Import Cite CiteFacts.
Local Open Scope nat_scope.

Lemma four_digits_spec s y :
  four_digits s = Some y -> length y = 4 /\ forallb is_digit y = true.
Proof.
  unfold four_digits. destruct s as [|a [|b [|c [|d s]]]]; try done.
  destruct (is_digit a) eqn:Ea, (is_digit b) eqn:Eb, (is_digit c) eqn:Ec,
    (is_digit d) eqn:Ed; try done.
  intros [= <-]. cbn. by rewrite Ea, Eb, Ec, Ed.
Qed.

Lemma match_year_spec s y :
  match_year s = Some y -> length y = 4 /\ forallb is_digit y = true.
Proof.
  induction s as [|c s IH]; cbn [match_year].
  - destruct (four_digits []) eqn:E; [|done]. intros [= <-]. by eapply four_digits_spec.
  - destruct (four_digits (c :: s)) eqn:E.
    + intros [= <-]. by eapply four_digits_spec.
    + apply IH.
Qed.

Lemma item_year_spec parent :
  item_year parent <> [] ->
  length (item_year parent) = 4 /\ forallb is_digit (item_year parent) = true.
Proof.
  unfold item_year. destruct (match_year (item_date parent)) eqn:E; [|done].
  intros _. by eapply match_year_spec.
Qed.

Lemma truthy_ne (s : jsstring) : truthy s = true <-> s <> [].
Proof. by destruct s. Qed.

Section Index.
Variable toLowerCase : jsstring -> jsstring.

(** What a creator of an item of the batch registers. *)
Definition registers (itemPdfPairs : list Pair) (k : jsstring) (e : Entry) : Prop :=
  exists p creator,
    p ∈ itemPdfPairs
    /\ creator ∈ item_creators (parentItem p)
    /\ creator_surname creator <> []
    /\ item_year (parentItem p) <> []
    /\ k = toLowerCase (creator_surname creator) ++ lit "|" ++ item_year (parentItem p)
    /\ e = {| entry_item := parentItem p;
              entry_key := item_key (parentItem p);
              entry_uri := s_uri ++ item_key (parentItem p) |}.

Lemma registrations_spec itemPdfPairs k e :
  (k, e) ∈ registrations toLowerCase itemPdfPairs <-> registers itemPdfPairs k e.
Proof.
  unfold registrations, registers. rewrite list_elem_of_In, in_flat_map. split.
  - intros (p & Hp & Hin). apply list_elem_of_In in Hp, Hin.
    unfold item_registrations in Hin.
    destruct (truthy (item_year (parentItem p))) eqn:Ey;
      [|by apply not_elem_of_nil in Hin].
    unfold creator_registrations in Hin. apply list_elem_of_omap in Hin as (c & Hc & Hreg).
    destruct (truthy (creator_surname c)) eqn:Es; [|done].
    injection Hreg as <- <-. exists p, c.
    apply truthy_ne in Ey, Es. done.
  - intros (p & c & Hp & Hc & Hs & Hy & -> & ->). exists p.
    split; [by apply list_elem_of_In|]. apply list_elem_of_In.
    unfold item_registrations. apply truthy_ne in Hy, Hs. rewrite Hy.
    unfold creator_registrations. apply list_elem_of_omap. exists c.
    split; [done|]. by rewrite Hs.
Qed.

Lemma first_registered_Some k regs e :
  first_registered k regs = Some e -> (k, e) ∈ regs.
Proof.
  unfold first_registered.
  destruct (List.find (fun r => bool_decide (fst r = k)) regs) as [[k' e']|] eqn:E;
    [|done].
  cbn. intros [= <-]. apply find_some in E as [Hin Hk].
  apply bool_decide_eq_true in Hk. cbn in Hk. subst k'. by apply list_elem_of_In.
Qed.

Lemma first_registered_None k regs e :
  (k, e) ∈ regs -> is_Some (first_registered k regs).
Proof.
  intros Hin. unfold first_registered.
  destruct (List.find (fun r => bool_decide (fst r = k)) regs) as [r|] eqn:E;
    [by eexists|].
  apply list_elem_of_In in Hin.
  pose proof (find_none _ _ E _ Hin) as H. cbn in H.
  by rewrite bool_decide_eq_true_2 in H.
Qed.

Lemma build_index_lookup itemPdfPairs k :
  build_index toLowerCase itemPdfPairs !! k
  = first_registered k (registrations toLowerCase itemPdfPairs).
Proof.
  unfold build_index. by rewrite build_index_fold, set_if_absent_lookup, lookup_empty.
Qed.

(** X11: the index holds a key exactly when a creator with a surname of
    an item of the batch with a year registers it; its entry is that of one
    such item, with the link to that item, and the year in the key is four
    digits. *)
Theorem index_entries_from_batch (itemPdfPairs : list Pair) (k : jsstring) :
  (is_Some (build_index toLowerCase itemPdfPairs !! k)
   <-> exists e, registers itemPdfPairs k e)
  /\ forall e,
       build_index toLowerCase itemPdfPairs !! k = Some e ->
       registers itemPdfPairs k e
       /\ exists surname year,
            k = toLowerCase surname ++ lit "|" ++ year
            /\ length year = 4 /\ forallb is_digit year = true
            /\ entry_uri e = s_uri ++ item_key (entry_item e).
Proof.
  rewrite build_index_lookup. split; [split|].
  - intros [e He]. exists e. by apply registrations_spec, first_registered_Some.
  - intros [e He]. eapply first_registered_None. by apply registrations_spec.
  - intros e He. apply first_registered_Some, registrations_spec in He.
    split; [done|]. destruct He as (p & c & _ & _ & _ & Hy & -> & ->).
    exists (creator_surname c), (item_year (parentItem p)).
    destruct (item_year_spec _ Hy) as [Hl Hd]. done.
Qed.

(** X12: when no item of the batch has both a year of four digits in its
    date and a creator with a surname, the text is returned as it is. *)
Theorem no_dated_source_no_change (content : jsstring) (itemPdfPairs : list Pair) :
  (forall p, p ∈ itemPdfPairs ->
     item_year (parentItem p) = []
     \/ forall creator, creator ∈ item_creators (parentItem p) ->
          creator_surname creator = []) ->
  postProcessCitations toLowerCase content itemPdfPairs = content.
Proof.
  intros Hnone. unfold postProcessCitations. cbn zeta.
  assert (build_index toLowerCase itemPdfPairs = ∅) as ->; [|done].
  apply map_empty. intros k. rewrite build_index_lookup.
  destruct (first_registered k _) as [e|] eqn:E; [|done].
  apply first_registered_Some, registrations_spec in E
    as (p & c & Hp & Hc & Hs & Hy & _).
  destruct (Hnone p Hp) as [H|H]; [done|]. by specialize (H c Hc).
Qed.

End Index.

(** *** Text without parentheses and brackets *)

Lemma replace_from_fixed (m : option N -> jsstring -> option (nat * jsstring)) (c : N) :
  (forall prev s len rep, m prev s = Some (len, rep) -> c ∈ s) ->
  forall s prev, c ∉ s -> replace_from m prev 0 s = s.
Proof.
  intros Hm s. induction s as [|x s IH]; intros prev Hc; [done|].
  cbn [replace_from].
  destruct (m prev (x :: s)) as [[len rep]|] eqn:E.
  - by apply Hm in E.
  - f_equal. apply IH. intros H. apply Hc. apply elem_of_cons. by right.
Qed.

Lemma startsWith_unit_in c s : startsWith [c] s = true -> c ∈ s.
Proof.
  intros H. apply startsWith_unit in H as [s' ->]. apply elem_of_cons. by left.
Qed.

Lemma trimStart_in (c : N) s : c ∈ trimStart s -> c ∈ s.
Proof.
  induction s as [|x s IH]; [done|]. cbn [trimStart].
  destruct (is_ws x); [|done]. intros H. apply elem_of_cons. right. by apply IH.
Qed.

Lemma drop_in (c : N) n s : c ∈ drop n s -> c ∈ s.
Proof. intros H. rewrite <- (take_drop n s). apply elem_of_app. by right. Qed.

Lemma name_run_in (c : N) s : c ∈ snd (name_run s) -> c ∈ s.
Proof.
  induction s as [|x s IH]; [done|]. cbn [name_run].
  destruct (is_name_unit x); [|done].
  destruct (name_run s) as [a b]. cbn [snd] in *. intros H.
  apply elem_of_cons. right. by apply IH.
Qed.

Lemma year_in_parens_in s r : year_in_parens s = Some r -> 40%N ∈ s.
Proof.
  unfold year_in_parens.
  destruct (1 <=? ws_run s); cbn [andb]; [|done].
  destruct (startsWith [40%N] (trimStart s)) eqn:E; [|done]. intros _.
  by apply trimStart_in, startsWith_unit_in.
Qed.

Lemma second_name_in s r : second_name s = Some r -> 40%N ∈ s.
Proof.
  unfold second_name.
  destruct (1 <=? ws_run s); [|done].
  destruct (connector (trimStart s)) as [nc|]; [|done].
  destruct (1 <=? ws_run (drop nc (trimStart s))); [|done].
  destruct (name_run (trimStart (drop nc (trimStart s)))) as [n2 s2] eqn:En.
  destruct (1 <=? length n2); [|done].
  destruct (year_in_parens s2) as [[ny y]|] eqn:Ey; [|done]. intros _.
  apply year_in_parens_in in Ey.
  apply trimStart_in, (drop_in _ nc), trimStart_in, name_run_in.
  by rewrite En.
Qed.

Section Plain.
Variable toLowerCase : jsstring -> jsstring.

Lemma m_parens_in idx prev s len rep :
  m_parens toLowerCase idx prev s = Some (len, rep) -> 40%N ∈ s.
Proof.
  unfold m_parens. destruct (startsWith [40%N] s) eqn:E; [|done].
  intros _. by apply startsWith_unit_in.
Qed.

Lemma m_narrative_in idx prev s len rep :
  m_narrative toLowerCase idx prev s = Some (len, rep) -> 40%N ∈ s.
Proof.
  unfold m_narrative. destruct s as [|c0 s0]; [done|].
  destruct (_ && is_upper c0); [|done].
  destruct (name_run s0) as [n1 s1] eqn:En.
  destruct (1 <=? length n1); [|done].
  destruct (second_name s1) as [[[n2 ny] y]|] eqn:E2.
  - intros _. apply second_name_in in E2. apply elem_of_cons. right.
    apply name_run_in. by rewrite En.
  - destruct (year_in_parens s1) as [[ny y]|] eqn:Ey; [|done].
    intros _. apply year_in_parens_in in Ey. apply elem_of_cons. right.
    apply name_run_in. by rewrite En.
Qed.

Lemma m_marker_in prev s len rep : m_marker prev s = Some (len, rep) -> 91%N ∈ s.
Proof.
  unfold m_marker, s_marker. destruct s as [|c s]; [done|].
  cbn [startsWith]. destruct (N.eqb_spec 91 c) as [<-|_]; [|done].
  intros _. apply elem_of_cons. by left.
Qed.

(** X13: a text without an opening parenthesis and without an opening
    bracket is returned unchanged, whatever the batch. *)
Theorem plain_prose_unchanged (content : jsstring) (itemPdfPairs : list Pair) :
  40%N ∉ content -> 91%N ∉ content ->
  postProcessCitations toLowerCase content itemPdfPairs = content.
Proof.
  intros Hp Hb. unfold postProcessCitations. cbn zeta.
  destruct (size _ =? 0); [done|].
  unfold link_citations, link_narratives, link_parentheticals, replace_g.
  rewrite (replace_from_fixed _ 40%N (m_parens_in _)) by done.
  rewrite (replace_from_fixed _ 40%N (m_narrative_in _)) by done.
  by rewrite (replace_from_fixed _ 91%N m_marker_in).
Qed.

End Plain.

Lemma no_dated_source_no_change_witness :
  postProcessCitations lower_ascii (lit "see [itemId:3] (Begarin, 2014)") undated_source
  = lit "see [itemId:3] (Begarin, 2014)".
Proof.
  apply (no_dated_source_no_change lower_ascii
           (lit "see [itemId:3] (Begarin, 2014)") undated_source).
  intros p Hp. left. apply list_elem_of_singleton in Hp. subst p. reflexivity.
Defined.

Lemma plain_prose_unchanged_witness :
  postProcessCitations lower_ascii (lit "Nicoleau 2014 showed it.") one_source
  = lit "Nicoleau 2014 showed it.".
Proof.
  apply (plain_prose_unchanged lower_ascii (lit "Nicoleau 2014 showed it.") one_source).
  - apply (bool_decide_unpack (40%N ∉ lit "Nicoleau 2014 showed it.")).
    vm_compute. exact I.
  - apply (bool_decide_unpack (91%N ∉ lit "Nicoleau 2014 showed it.")).
    vm_compute. exact I.
Defined.

End CiteMore.


(* ================================================================== *)
(** ** TableExtractor: the prompt, the file and the batch *)
(* ================================================================== *)

Module FillFacts.
Import Sched SchedFacts Fill.
Local Open Scope nat_scope.

(** *** The template in the prompt *)

Lemma GetSubstitution_plain matched before after template :
  36%N ∉ template -> GetSubstitution matched before after template = template.
Proof.
  induction template as [|c t IH]; intros H; [done|].
  apply not_elem_of_cons in H as [Hc Ht]. cbn [GetSubstitution].
  destruct (N.eqb_spec c 36) as [->|_]; [done|]. by rewrite IH.
Qed.

(** X14: a prompt that does not hold the placeholder [${tableTemplate}]
    is sent as it is, whatever the template. *)
Theorem prompt_without_placeholder (fillPrompt tableTemplate : jsstring) :
  includes s_placeholder fillPrompt = false ->
  actualPrompt fillPrompt tableTemplate = fillPrompt.
Proof.
  unfold actualPrompt. generalize (@nil N).
  induction fillPrompt as [|c s IH]; intros before H; [done|].
  apply includes_cons_false in H as [Hs Hi].
  cbn [replace_with_template]. rewrite Hs. f_equal. by apply IH.
Qed.

Lemma replace_with_template_skip pat template x : forall before s,
  replace_with_template pat template before (length x) (x ++ s)
  = replace_with_template pat template (before ++ x) 0 s.
Proof.
  induction x as [|c x IH]; intros before s.
  - cbn [length app]. rewrite app_nil_r. by destruct s.
  - cbn [length app replace_with_template]. rewrite IH. by rewrite <- app_assoc.
Qed.

Lemma replace_with_template_before pat template :
  36%N ∉ template ->
  forall s before before' k,
    replace_with_template pat template before k s
    = replace_with_template pat template before' k s.
Proof.
  intros Ht s. induction s as [|c s IH]; intros before before' k; [done|].
  cbn [replace_with_template]. destruct k as [|k]; [|apply IH].
  rewrite !GetSubstitution_plain by done.
  destruct (startsWith pat (c :: s)); [f_equal; apply IH|f_equal; apply IH].
Qed.

(** X15: a template without a dollar sign is put in the place of the
    placeholder unit for unit: for a prompt that has no dollar sign before
    its first placeholder, the result is the text before the placeholder,
    the template, and the rest of the prompt treated in the same way. *)
Theorem template_inserted_verbatim (a b tableTemplate : jsstring) :
  36%N ∉ a -> 36%N ∉ tableTemplate ->
  actualPrompt (a ++ s_placeholder ++ b) tableTemplate
  = a ++ tableTemplate ++ actualPrompt b tableTemplate.
Proof.
  intros Ha Ht. unfold actualPrompt.
  enough (forall before,
             replace_with_template s_placeholder tableTemplate before 0
               (a ++ s_placeholder ++ b)
             = a ++ tableTemplate
               ++ replace_with_template s_placeholder tableTemplate [] 0 b) as H
    by apply H.
  induction a as [|c a IH]; intros before.
  - cbn [app]. change (s_placeholder ++ b) with (36%N :: (drop 1 s_placeholder ++ b)).
    cbn [replace_with_template].
    assert (startsWith s_placeholder (36%N :: drop 1 s_placeholder ++ b) = true) as ->
      by (by apply (startsWith_app s_placeholder s_placeholder b)).
    rewrite GetSubstitution_plain by done. f_equal.
    change (Nat.pred (length s_placeholder)) with (length (drop 1 s_placeholder)).
    rewrite replace_with_template_skip.
    by apply replace_with_template_before.
  - apply not_elem_of_cons in Ha as [Hc Ha].
    cbn [app replace_with_template]. unfold s_placeholder at 1.
    rewrite startsWith_head_ne by done. f_equal. by apply IH.
Qed.

(** In a template with dollar signs the patterns are worked out: a
    display formula loses one of each two dollar signs, and [$&] brings the
    placeholder back. *)
Example template_with_dollars :
  actualPrompt (lit "Fill: ${tableTemplate}") (lit "| $$x$$ | $& |")
  = lit "Fill: | $x$ | ${tableTemplate} |".
Proof. by vm_compute. Qed.

(** *** The file as Base64 *)

Lemma fromCharCodes_app a b : fromCharCodes (a ++ b) = fromCharCodes a ++ fromCharCodes b.
Proof. apply map_app. Qed.

Lemma chunk_loop_spec bytes fuel : forall i result,
  length bytes - N.to_nat i <= fuel ->
  chunk_loop fuel bytes i result = result ++ fromCharCodes (drop (N.to_nat i) bytes).
Proof.
  induction fuel as [|fuel IH]; intros i result Hf.
  - cbn [chunk_loop]. rewrite drop_ge by lia. cbn. by rewrite app_nil_r.
  - cbn [chunk_loop]. destruct (N.ltb_spec i (N.of_nat (length bytes))) as [Hlt|Hge].
    + cbn zeta. rewrite IH by (unfold chunkSize; lia).
      rewrite <- app_assoc, <- fromCharCodes_app. f_equal. f_equal.
      unfold subarray.
      destruct (N.le_gt_cases (i + chunkSize) (N.of_nat (length bytes))) as [Hin|Hout].
      * rewrite N.min_l by done.
        replace (N.to_nat (i + chunkSize - i)) with (N.to_nat chunkSize) by lia.
        replace (N.to_nat (i + chunkSize)) with (N.to_nat i + N.to_nat chunkSize) by lia.
        rewrite <- drop_drop. apply take_drop.
      * rewrite N.min_r by lia.
        rewrite take_ge by (rewrite length_drop; lia).
        rewrite (drop_ge bytes (N.to_nat (i + chunkSize))) by lia.
        by rewrite app_nil_r.
    + rewrite drop_ge by lia. cbn. by rewrite app_nil_r.
Qed.

(** X16: cutting the file into chunks of 32768 bytes changes nothing:
    [btoa] gets one unit for every byte of the file, in order, each below
    256, whatever the size of the file. *)
Theorem arrayBufferToBase64_whole (btoa : jsstring -> jsstring) (bytes : list Byte.byte) :
  arrayBufferToBase64 btoa bytes = btoa (fromCharCodes bytes)
  /\ length (fromCharCodes bytes) = length bytes
  /\ Forall (fun c => (c < 256)%N) (fromCharCodes bytes).
Proof.
  unfold arrayBufferToBase64. rewrite chunk_loop_spec by lia.
  cbn [app N.to_nat drop]. rewrite drop_0. split; [done|].
  unfold fromCharCodes. split; [apply length_map|].
  apply Forall_forall. intros c Hc. apply list_elem_of_fmap in Hc as (b & -> & _).
  pose proof (Byte.to_N_bounded b). lia.
Qed.

(** *** One call of the extractor *)

Ltac is_in :=
  repeat first [ apply elem_of_cons; left; reflexivity | apply elem_of_cons; right ].

Ltac is_not_in H :=
  repeat (apply elem_of_cons in H as [H|H]; [discriminate H|]);
  apply not_elem_of_nil in H.

Section Extract.
Variable btoa : jsstring -> jsstring.
Variable getFilePathAsync : Attachment -> Settled jsstring.
Variable IOUtils_read : jsstring -> Settled (list Byte.byte).
Variable extractTextFromItem : Item -> Settled jsstring.
Variable generateSummaryWithRetry : jsstring -> bool -> jsstring -> Settled jsstring.

Abbreviation fill_ :=
  (fillTableForSinglePDF btoa getFilePathAsync IOUtils_read extractTextFromItem
     generateSummaryWithRetry).
Abbreviation extractor_ :=
  (extractor btoa getFilePathAsync IOUtils_read extractTextFromItem
     generateSummaryWithRetry).

(** X17: the progress callback of [fillTableForSinglePDF] gets 10, then
    50, then 100, and stops where the call fails: 50 is reported only when
    the file has a path and a content was obtained, and 100 exactly when the
    call returns the answer of the language model. *)
Theorem fill_progress item att tpl pr :
  map snd (fst (fill_ item att tpl pr)) `prefix_of` [10; 50; 100]
  /\ 10 ∈ map snd (fst (fill_ item att tpl pr))
  /\ (100 ∈ map snd (fst (fill_ item att tpl pr))
      <-> exists table, snd (fill_ item att tpl pr) = Filled table)
  /\ (50 ∈ map snd (fst (fill_ item att tpl pr))
      <-> exists filePath content isBase64,
            getFilePathAsync att = Fulfilled filePath /\ filePath <> []
            /\ pdfContent_of btoa IOUtils_read extractTextFromItem item filePath
               = Fulfilled (content, isBase64)
            /\ snd (fill_ item att tpl pr)
               = match generateSummaryWithRetry content isBase64 (actualPrompt pr tpl) with
                 | Fulfilled table => Filled table
                 | Rejected e => Thrown e
                 end).
Proof.
  unfold fillTableForSinglePDF. cbn zeta.
  assert (forall x : nat, x ∈ [10] <-> x = 10) as H1
    by (intros x; apply list_elem_of_singleton).
  destruct (getFilePathAsync att) as [filePath|e].
  2:{ cbn. split; [by exists [50; 100]|]. split; [by apply H1|].
      split; (split; [by intros ?%H1|]).
      - by intros [? ?].
      - by intros (? & ? & ? & ? & _). }
  destruct filePath as [|c filePath]; cbn [truthy negb].
  { cbn. split; [by exists [50; 100]|]. split; [by apply H1|].
    split; (split; [by intros ?%H1|]).
    - by intros [? ?].
    - by intros (? & ? & ? & [= <-] & ? & _). }
  destruct (pdfContent_of _ _ _ _ _) as [[content isBase64]|e] eqn:Ec.
  2:{ cbn. split; [by exists [50; 100]|]. split; [by apply H1|].
      split; (split; [by intros ?%H1|]).
      - by intros [? ?].
      - intros (? & ? & ? & [= <-] & _ & ? & _). congruence. }
  destruct (generateSummaryWithRetry content isBase64 (actualPrompt pr tpl)) as [table|e]
    eqn:El; cbn.
  - split; [by exists []|]. split; [by is_in|]. split; (split; [|intros _; by is_in]).
    + intros _. by exists table.
    + intros _. exists (c :: filePath), content, isBase64. by rewrite El.
  - split; [by exists [100]|]. split; [by is_in|]. split; split.
    + intros H. by is_not_in H.
    + by intros [? ?].
    + intros _. exists (c :: filePath), content, isBase64. by rewrite El.
    + intros _. by is_in.
Qed.

(** *** The extractor in the batch *)

Variable marked_parse : jsstring -> jsstring.
Variable st0 : Store.
Variable items : list Pair.
Variable tpl pr : jsstring.
Variable concurrency : Z.

(** X18: in a batch that has ended, a pair whose attachment has no file
    path was answered from the cache, or is recorded as failed with the
    message that names the attachment; no table was stored for it. *)
Theorem pair_without_file sched p t :
  (1 <= concurrency)%Z ->
  all_finished
    (fillTablesInParallel marked_parse extractor_ st0 items tpl pr concurrency sched)
  = true ->
  tasks_of items !! p = Some t ->
  getFilePathAsync (pdfAttachment (pair t)) = Fulfilled [] ->
  exists c,
    (exists text,
        events_of p
          (trace (fillTablesInParallel marked_parse extractor_ st0 items tpl pr
                    concurrency sched))
        = history (length items) t (Hit text) c)
    \/ (exists k,
          events_of p
            (trace (fillTablesInParallel marked_parse extractor_ st0 items tpl pr
                      concurrency sched))
          = history (length items) t
              (Failed k (s_nopath ++ of_Z (att_id (pdfAttachment (pair t))))) c).
Proof.
  intros Hc Hf Ht Hpath.
  destruct (finished_all_done marked_parse extractor_ tpl pr st0 items concurrency
              sched Hc Hf) as [_ Hall].
  destruct (Hall p t Ht) as (o & c & Hh & Hok). exists c.
  assert (forall k, fill_of extractor_ tpl pr k t
                    = Thrown (s_nopath ++ of_Z (att_id (pdfAttachment (pair t))))) as Hthrow.
  { intros k. unfold fill_of, extractor, fillTableForSinglePDF. cbn zeta.
    by rewrite Hpath. }
  destruct o as [text|k table|k message]; cbn [outcome_ok] in Hok.
  - left. by exists text.
  - rewrite Hthrow in Hok. done.
  - rewrite Hthrow in Hok. injection Hok as <-. right. by exists k.
Qed.

End Extract.

(** *** Examples *)

Definition no_file (att : Attachment) : Settled jsstring :=
  if Z.eqb (att_id att) 12 then Fulfilled [] else Fulfilled (lit "/data/a.pdf").

Definition unreadable (path : jsstring) : Settled (list Byte.byte) :=
  Rejected (lit "not found").

Definition text_of (item : Item) : Settled jsstring :=
  Fulfilled (lit "text of " ++ item_title item).

Definition echo (content : jsstring) (isBase64 : bool) (prompt : jsstring)
  : Settled jsstring :=
  Fulfilled (lit "| " ++ content ++ lit " |").

Lemma prompt_without_placeholder_witness :
  actualPrompt (lit "Fill the table.") (lit "| $$ |") = lit "Fill the table.".
Proof.
  apply (prompt_without_placeholder (lit "Fill the table.") (lit "| $$ |")).
  reflexivity.
Defined.

Lemma template_inserted_verbatim_witness :
  actualPrompt (lit "Fill: " ++ s_placeholder ++ lit " now") (lit "| a | b |")
  = lit "Fill: " ++ lit "| a | b |" ++ actualPrompt (lit " now") (lit "| a | b |").
Proof.
  apply (template_inserted_verbatim (lit "Fill: ") (lit " now") (lit "| a | b |")).
  - apply (bool_decide_unpack (36%N ∉ lit "Fill: ")). vm_compute. exact I.
  - apply (bool_decide_unpack (36%N ∉ lit "| a | b |")). vm_compute. exact I.
Defined.

Definition task_b : Task :=
  {| pos := 1;
     pair := {| parentItem := item_b; pdfAttachment := {| att_id := 12 |} |} |}.

Lemma pair_without_file_witness :
  exists c,
    (exists text,
        events_of 1
          (trace (fillTablesInParallel one_paragraph
                    (extractor id no_file unreadable text_of echo)
                    ∅ three_pairs [] [] 2 in_turn))
        = history (length three_pairs) task_b (Hit text) c)
    \/ (exists k,
          events_of 1
            (trace (fillTablesInParallel one_paragraph
                      (extractor id no_file unreadable text_of echo)
                      ∅ three_pairs [] [] 2 in_turn))
          = history (length three_pairs) task_b
              (Failed k (s_nopath ++ of_Z (att_id (pdfAttachment (pair task_b))))) c).
Proof.
  apply (pair_without_file id no_file unreadable text_of echo one_paragraph ∅
           three_pairs [] [] 2 in_turn 1 task_b).
  - lia.
  - vm_compute. reflexivity.
  - reflexivity.
  - reflexivity.
Defined.

End FillFacts.


(* ================================================================== *)
(** ** ReviewSynthesizer: what is sent and how a call can end *)
(* ================================================================== *)

Module SummaryFacts.
Import Summary.
Local Open Scope nat_scope.

(** *** Decimal numbers *)

Lemma lit_inj s1 s2 : lit s1 = lit s2 -> s1 = s2.
Proof.
  unfold lit. intros H.
  assert (list_ascii_of_string s1 = list_ascii_of_string s2) as Hl.
  { revert H. generalize (list_ascii_of_string s1) (list_ascii_of_string s2).
    induction l as [|a l IH]; intros [|b l'] H; try done.
    cbn in H. injection H as Ha Hl. f_equal; [|by apply IH].
    by rewrite <- (ascii_N_embedding a), <- (ascii_N_embedding b), Ha. }
  by rewrite <- (string_of_list_ascii_of_string s1),
    <- (string_of_list_ascii_of_string s2), Hl.
Qed.

Lemma of_nat_inj n m : of_nat n = of_nat m -> n = m.
Proof.
  unfold of_nat. intros H. apply lit_inj in H.
  apply Unsigned.to_uint_inj.
  pose proof (NilEmpty.usu (Nat.to_uint n)) as Hn.
  pose proof (NilEmpty.usu (Nat.to_uint m)) as Hm.
  rewrite H in Hn. congruence.
Qed.

Lemma string_of_uint_digits d :
  forallb is_digit (lit (NilEmpty.string_of_uint d)) = true.
Proof. induction d; cbn; try done; exact IHd. Qed.

Lemma of_nat_digits n : forallb is_digit (of_nat n) = true.
Proof. apply string_of_uint_digits. Qed.

(** Two texts that start with digits and go on with a unit that is no
    digit start with the same digits when they are equal. *)
Lemma digits_then_other (c : N) a : forall b x y,
  is_digit c = false ->
  forallb is_digit a = true -> forallb is_digit b = true ->
  a ++ c :: x = b ++ c :: y -> a = b.
Proof.
  induction a as [|u a IH]; intros [|v b] x y Hc Ha Hb H; try done.
  - cbn in H, Hb. injection H as -> _. apply andb_true_iff in Hb as [Hb _]. congruence.
  - cbn in H, Ha. injection H as -> _. apply andb_true_iff in Ha as [Ha _]. congruence.
  - cbn in H, Ha, Hb. injection H as -> H.
    apply andb_true_iff in Ha as [_ Ha]. apply andb_true_iff in Hb as [_ Hb].
    f_equal. by eapply IH.
Qed.

(** X19: the files handed to the provider are one for every PDF, in
    order, each with the path and the content of its PDF, and no two of them
    have the same display name, even when titles are the same. *)
Theorem display_names_distinct (pdfContents : list PdfFileData) :
  NoDup (map displayName (pdfFiles_of pdfContents))
  /\ map filePath (pdfFiles_of pdfContents) = map pdf_filePath pdfContents
  /\ map base64Content (pdfFiles_of pdfContents) = map pdf_content pdfContents.
Proof.
  unfold pdfFiles_of. split; [|split].
  - apply NoDup_alt. intros i j name Hi Hj.
    rewrite list_lookup_fmap, list_lookup_imap in Hi, Hj.
    destruct (pdfContents !! i) as [p|]; [|done].
    destruct (pdfContents !! j) as [q|]; [|done].
    cbn in Hi, Hj. injection Hi as Hi. injection Hj as Hj. rewrite <- Hj in Hi.
    change (lit "_" ++ ?x) with (95%N :: x) in Hi.
    apply (digits_then_other 95) in Hi;
      [|done|apply of_nat_digits|apply of_nat_digits].
    apply of_nat_inj in Hi. lia.
  - apply list_eq. intros i. rewrite !list_lookup_fmap, list_lookup_imap.
    by destruct (pdfContents !! i).
  - apply list_eq. intros i. rewrite !list_lookup_fmap, list_lookup_imap.
    by destruct (pdfContents !! i).
Qed.

(** *** The merged text *)

(** A PDF whose content is sent as a file. *)
Definition as_file (pdf : PdfFileData) : bool :=
  pdf_isBase64 pdf && truthy (pdf_content pdf).

(** What one PDF adds to the merged text. *)
Definition part_of (pdf : PdfFileData) : jsstring :=
  if as_file pdf then s_paper ++ pdf_title pdf ++ s_pdf_body
  else s_paper ++ pdf_title pdf ++ s_paper_end ++ pdf_content pdf ++ [10%N].

Lemma merge_spec l : forall a,
  combinedContent (fold_left merge_pdf l a) = combinedContent a ++ flat_map part_of l
  /\ hasBase64 (fold_left merge_pdf l a) = hasBase64 a || existsb as_file l
  /\ firstBase64Content (fold_left merge_pdf l a)
     = if hasBase64 a then firstBase64Content a
       else match List.find as_file l with
            | Some pdf => pdf_content pdf
            | None => firstBase64Content a
            end.
Proof.
  induction l as [|pdf l IH]; intros a.
  { cbn. rewrite app_nil_r, orb_false_r. by destruct (hasBase64 a). }
  cbn [fold_left flat_map existsb List.find].
  destruct (IH (merge_pdf a pdf)) as (H1 & H2 & H3). rewrite H1, H2, H3.
  unfold merge_pdf, part_of. fold (as_file pdf).
  destruct (as_file pdf) eqn:E; cbn [combinedContent hasBase64 firstBase64Content].
  - rewrite orb_true_r. rewrite <- !app_assoc. by destruct (hasBase64 a).
  - rewrite <- !app_assoc. split; [done|]. by destruct (hasBase64 a).
Qed.

Lemma find_first {A} (f : A -> bool) l1 x l2 :
  Forall (fun y => f y = false) l1 -> f x = true ->
  List.find f (l1 ++ x :: l2) = Some x.
Proof.
  intros H Hx. induction H as [|y l1 Hy _ IH]; cbn; [by rewrite Hx|by rewrite Hy].
Qed.

Lemma part_of_not_blank pdf rest : truthy (trim (part_of pdf ++ rest)) = true.
Proof.
  assert (exists r, part_of pdf ++ rest = [10; 10]%N ++ 61%N :: r) as [r ->].
  { unfold part_of, s_paper. destruct (as_file pdf); cbn [app]; eauto. }
  unfold trim.
  assert (trimStart ([10; 10]%N ++ 61%N :: r) = 61%N :: r) as -> by reflexivity.
  by rewrite trimEnd_cons.
Qed.

Section Providers.
Variable Options : Type.
Variable getLLMOptions : Options.
Variable pref_provider : jsstring.
Variable ProviderRegistry_get : jsstring -> option (Provider Options).
Variable toLowerCase : jsstring -> jsstring.
Variable generateSummaryWithRetry : jsstring -> bool -> jsstring -> Settled jsstring.

(** X20: in the merged mode only one PDF is sent: when a PDF of the list
    has a Base64 content, the language model gets the content of the first
    such PDF, as a file, and of the others no more than the titles, all of
    them numbered from 1 in the prompt. *)
Theorem merged_text_sends_first_file (before after : list PdfFileData)
    (pdf : PdfFileData) (prompt : jsstring) :
  Forall (fun p => as_file p = false) before ->
  as_file pdf = true ->
  snd (generateWithMergedText generateSummaryWithRetry (before ++ pdf :: after) prompt)
  = generateSummaryWithRetry (pdf_content pdf) true
      (prompt ++ s_list ++ numbered_titles (before ++ pdf :: after) ++ s_from_pdf).
Proof.
  intros Hb Hp. unfold generateWithMergedText. cbn zeta.
  destruct (merge_spec (before ++ pdf :: after)
              {| combinedContent := []; hasBase64 := false;
                 firstBase64Content := [] |}) as (_ & H2 & H3).
  cbn [hasBase64 firstBase64Content orb] in H2, H3.
  rewrite H2, H3, (find_first _ _ _ _ Hb Hp).
  rewrite existsb_app. cbn [existsb]. rewrite Hp. cbn [orb]. rewrite orb_true_r.
  unfold as_file in Hp. apply andb_true_iff in Hp as [_ ->]. done.
Qed.

(** X21: how [generateSummaryFromMultiplePDFs] can end: for the empty
    list with its own error; else with the error that no provider for
    several files is there, with the answer of such a provider, registered
    as google or as gemini, for the files of all PDFs, or with the answer
    of the language model for one content that is not empty.  So for a
    list that is not empty the merged mode always calls the language model:
    its check for a text that is empty never ends the call. *)
Theorem summary_outcomes (pdfContents : list PdfFileData) (prompt : jsstring) :
  let r := snd (generateSummaryFromMultiplePDFs Options getLLMOptions pref_provider
                  ProviderRegistry_get toLowerCase generateSummaryWithRetry
                  pdfContents prompt) in
  (pdfContents = [] /\ r = Rejected s_no_pdf)
  \/ (pdfContents <> []
      /\ (r = Rejected s_no_multi
          \/ (exists p generate,
                (ProviderRegistry_get (lit "google") = Some p
                 \/ ProviderRegistry_get (lit "google") = None
                    /\ ProviderRegistry_get (lit "gemini") = Some p)
                /\ generateMultiFileSummary Options p = Some generate
                /\ r = generate (pdfFiles_of pdfContents) prompt getLLMOptions)
          \/ (exists content isBase64 fullPrompt,
                content <> []
                /\ r = generateSummaryWithRetry content isBase64 fullPrompt))).
Proof.
  cbn zeta. unfold generateSummaryFromMultiplePDFs.
  destruct pdfContents as [|pdf rest]; [by left|]. right. split; [done|].
  cbn [length Nat.eqb]. cbn zeta.
  destruct (_ && _).
  - unfold generateWithGeminiFileAPI. cbn zeta.
    destruct (ProviderRegistry_get (lit "google")) as [p|] eqn:Eg.
    + destruct (generateMultiFileSummary Options p) as [generate|] eqn:Em; cbn [snd].
      * right. left. exists p, generate. eauto.
      * by left.
    + destruct (ProviderRegistry_get (lit "gemini")) as [p|] eqn:Ei; [|by left].
      destruct (generateMultiFileSummary Options p) as [generate|] eqn:Em; cbn [snd].
      * right. left. exists p, generate. eauto.
      * by left.
  - right. right. unfold generateWithMergedText. cbn zeta.
    destruct (merge_spec (pdf :: rest)
                {| combinedContent := []; hasBase64 := false;
                   firstBase64Content := [] |}) as (H1 & _ & _).
    cbn [combinedContent app flat_map] in H1. rewrite H1.
    rewrite part_of_not_blank. cbn [negb].
    destruct (_ && truthy _) eqn:E; cbn [snd].
    + apply andb_true_iff in E as [_ E]. do 3 eexists. split; [|done].
      intros E0. by rewrite E0 in E.
    + do 3 eexists. split; [|done]. unfold part_of, s_paper.
      by destruct (as_file pdf).
Qed.

End Providers.

(** *** Examples *)

Definition scanned (title content : string) : PdfFileData :=
  {| pdf_title := lit title; pdf_filePath := lit "/data/x.pdf";
     pdf_content := lit content; pdf_isBase64 := true |}.

Definition echo_prompt (content : jsstring) (isBase64 : bool) (prompt : jsstring)
  : Settled jsstring := Fulfilled prompt.

Example same_titles_other_names :
  map displayName (pdfFiles_of [scanned "T" "QQ=="; scanned "T" "Qg=="])
  = [lit "1_T"; lit "2_T"].
Proof. by vm_compute. Qed.

Lemma merged_text_sends_first_file_witness :
  snd (generateWithMergedText echo_prompt
         ([scanned "A" ""] ++ scanned "B" "Qg==" :: [scanned "C" "Qw=="]) (lit "Review."))
  = echo_prompt (pdf_content (scanned "B" "Qg==")) true
      (lit "Review." ++ s_list
       ++ numbered_titles ([scanned "A" ""] ++ scanned "B" "Qg==" :: [scanned "C" "Qw=="])
       ++ s_from_pdf).
Proof.
  apply (merged_text_sends_first_file echo_prompt [scanned "A" ""] [scanned "C" "Qw=="]
           (scanned "B" "Qg==") (lit "Review.")).
  - repeat constructor.
  - reflexivity.
Defined.

End SummaryFacts.


(* ================================================================== *)
(** ** MinerU: the polling, the archive and the order of the requests *)
(* ================================================================== *)

Module MineruFacts.
Import Mineru.
Local Open Scope nat_scope.

(** [n] turns of waiting and asking. *)
Fixpoint polls (url : jsstring) (n : nat) : list Call :=
  match n with
  | O => []
  | S n' => Wait 5000 :: GetStatus url :: polls url n'
  end.

Definition is_status (c : Call) : bool :=
  match c with GetStatus _ => true | _ => false end.

Definition is_download (c : Call) : bool :=
  match c with GetZip _ => true | _ => false end.

Definition is_upload (c : Call) : bool :=
  match c with PostBatch | PutFile _ => true | _ => false end.

(** The time let pass, in milliseconds. *)
Definition waited (calls : list Call) : N :=
  fold_right (fun c t => match c with Wait ms => (ms + t)%N | _ => t end) 0%N calls.

Lemma filter_first {A} (p : A -> bool) l f rest :
  List.filter p l = f :: rest ->
  exists before after,
    l = before ++ f :: after
    /\ Forall (fun g => p g = false) before /\ p f = true.
Proof.
  induction l as [|x l IH]; [done|]. cbn [List.filter].
  destruct (p x) eqn:E.
  - intros [= -> <-]. by exists [], l.
  - intros H. destruct (IH H) as (before & after & -> & Hb & Hf).
    exists (x :: before), after. split; [done|]. split; [by constructor|done].
Qed.

Section Client.
Variable ToString : Json -> jsstring.
Variable JSON_stringify : Json -> jsstring.
Variable pref_mineruApiKey : jsstring.
Variable getAllPdfAttachments : Item -> Settled (list Attachment).
Variable getFilePathAsync : Attachment -> Settled jsstring.
Variable IOUtils_read : jsstring -> Settled (list Byte.byte).
Variable fetch_batch : jsstring -> Settled BatchResponse.
Variable fetch_put : Json -> list Byte.byte -> Settled PutResponse.
Variable fetch_status : nat -> jsstring -> jsstring -> Settled Json.
Variable fetch_zip : Json -> Settled Download.
Variable JSZip_loadAsync : list Byte.byte -> Settled (list ZipFile).

Abbreviation download_ := (downloadAndExtractMarkdown ToString fetch_zip JSZip_loadAsync).
Abbreviation poll_once_ :=
  (poll_once ToString fetch_status fetch_zip JSZip_loadAsync).
Abbreviation poll_loop_ :=
  (poll_loop ToString fetch_status fetch_zip JSZip_loadAsync).
Abbreviation pollStatusAndDownload_ :=
  (pollStatusAndDownload ToString fetch_status fetch_zip JSZip_loadAsync).
Abbreviation extractMarkdown_ :=
  (extractMarkdown ToString JSON_stringify pref_mineruApiKey getAllPdfAttachments
     getFilePathAsync IOUtils_read fetch_batch fetch_put fetch_status fetch_zip
     JSZip_loadAsync).

(** *** The archive *)

(** X22: the Markdown returned is the text of the first file of the
    archive whose name ends in [.md] and does not hold [__MACOSX], and it
    is not empty; no later file is read, so an empty first file ends the
    call with an error. *)
Theorem markdown_from_first_file (zipUrl : Json) (md : jsstring) :
  snd (download_ zipUrl) = Fulfilled md ->
  md <> []
  /\ exists res arrayBuffer before f after,
       fetch_zip zipUrl = Fulfilled res /\ dl_ok res = true
       /\ dl_arrayBuffer res = Fulfilled arrayBuffer
       /\ JSZip_loadAsync arrayBuffer = Fulfilled (before ++ f :: after)
       /\ Forall (fun g => is_markdown g = false) before
       /\ is_markdown f = true
       /\ zip_text f = Fulfilled md.
Proof.
  unfold downloadAndExtractMarkdown. cbn [snd].
  destruct (fetch_zip zipUrl) as [res|e] eqn:Ez; [|done].
  destruct (dl_ok res) eqn:Eok; cbn [negb]; [|done].
  destruct (dl_arrayBuffer res) as [arrayBuffer|e] eqn:Eb; [|done].
  destruct (JSZip_loadAsync arrayBuffer) as [files|e] eqn:Ef; [|done].
  destruct (List.filter is_markdown files) as [|f rest] eqn:Em; [done|].
  destruct (zip_text f) as [text|e] eqn:Et; [|done].
  destruct text as [|c text]; cbn [truthy]; [done|]. intros [= <-].
  split; [done|].
  destruct (filter_first _ _ _ _ Em) as (before & after & -> & Hb & Hf).
  exists res, arrayBuffer, before, f, after. done.
Qed.

(** *** The polling *)

Section Poll.
Variable apiKey batchId : jsstring.

Abbreviation url := (status_url batchId).

Lemma poll_once_calls i calls r :
  poll_once_ apiKey batchId i = Some (calls, r) ->
  calls = [] \/ exists zipUrl, calls = [GetZip zipUrl].
Proof.
  unfold poll_once. destruct (fetch_status i _ apiKey) as [data|e].
  2:{ intros [= <- _]. by left. }
  cbn zeta. destruct (is_string "done" _).
  - destruct (get "full_zip_url" _) as [zipUrl|].
    + destruct (truthy_value (Some zipUrl)).
      * unfold downloadAndExtractMarkdown. intros [= <- _]. right. by eexists.
      * intros [= <- _]. by left.
    + intros [= <- _]. by left.
  - destruct (is_string "error" _); [|done]. intros [= <- _]. by left.
Qed.

Lemma poll_loop_unfold turns i :
  poll_loop_ apiKey batchId (S turns) i
  = match poll_once_ apiKey batchId i with
    | Some r => (Wait 5000 :: GetStatus url :: fst r, snd r)
    | None =>
        (Wait 5000 :: GetStatus url :: fst (poll_loop_ apiKey batchId turns (S i)),
         snd (poll_loop_ apiKey batchId turns (S i)))
    end.
Proof.
  cbn [poll_loop]. destruct (poll_once_ apiKey batchId i) as [[calls r]|]; [done|].
  by destruct (poll_loop_ apiKey batchId turns (S i)).
Qed.

Lemma poll_loop_none turns : forall i,
  (forall j, i <= j < i + turns -> poll_once_ apiKey batchId j = None) ->
  poll_loop_ apiKey batchId turns i = (polls url turns, Rejected s_timed_out).
Proof.
  induction turns as [|turns IH]; intros i H; [done|].
  rewrite poll_loop_unfold, H by lia. rewrite IH; [done|].
  intros j Hj. apply H. lia.
Qed.

Lemma polls_snoc n : polls url (S n) = Wait 5000 :: GetStatus url :: polls url n.
Proof. done. Qed.

Lemma poll_loop_first turns : forall i k r,
  k < turns ->
  (forall j, i <= j < i + k -> poll_once_ apiKey batchId j = None) ->
  poll_once_ apiKey batchId (i + k) = Some r ->
  poll_loop_ apiKey batchId turns i = (polls url (S k) ++ fst r, snd r).
Proof.
  induction turns as [|turns IH]; intros i k r Hk Hnone Hr; [lia|].
  rewrite poll_loop_unfold. destruct k as [|k].
  - rewrite Nat.add_0_r in Hr. by rewrite Hr.
  - rewrite Hnone by lia. rewrite (IH (S i) k r); [done|lia| |].
    + intros j Hj. apply Hnone. lia.
    + by replace (S i + k) with (i + S k) by lia.
Qed.

(** X23: [pollStatusAndDownload] waits 5000 ms before every status
    request and stops at the first request that is answered with an error,
    with [done] or with [error]; when none of the first 60 requests is, it
    ends with the time-out error after 60 requests. *)
Theorem polling_outcome :
  (forall k r,
      k < 60 ->
      (forall j, j < k -> poll_once_ apiKey batchId j = None) ->
      poll_once_ apiKey batchId k = Some r ->
      pollStatusAndDownload_ apiKey batchId = (polls url (S k) ++ fst r, snd r))
  /\ ((forall j, j < 60 -> poll_once_ apiKey batchId j = None) ->
      pollStatusAndDownload_ apiKey batchId = (polls url 60, Rejected s_timed_out)).
Proof.
  unfold pollStatusAndDownload. split.
  - intros k r Hk Hnone Hr. apply poll_loop_first; [done| |done].
    intros j Hj. apply Hnone. lia.
  - intros Hnone. apply poll_loop_none. intros j Hj. apply Hnone. lia.
Qed.

Lemma poll_loop_bounds turns : forall i,
  length (List.filter is_status (fst (poll_loop_ apiKey batchId turns i))) <= turns
  /\ waited (fst (poll_loop_ apiKey batchId turns i))
     = (5000 * N.of_nat (length (List.filter is_status
                                   (fst (poll_loop_ apiKey batchId turns i)))))%N
  /\ length (List.filter is_download (fst (poll_loop_ apiKey batchId turns i))) <= 1
  /\ List.filter is_upload (fst (poll_loop_ apiKey batchId turns i)) = [].
Proof.
  induction turns as [|turns IH]; intros i; [cbn; repeat split; lia|].
  rewrite poll_loop_unfold.
  destruct (poll_once_ apiKey batchId i) as [[calls r]|] eqn:E.
  - apply poll_once_calls in E as [->|[zipUrl ->]]; cbn; repeat split; lia.
  - destruct (IH (S i)) as (H1 & H2 & H3 & H4).
    cbn [fst List.filter is_status is_download is_upload waited fold_right length].
    fold (waited (fst (poll_loop_ apiKey batchId turns (S i)))).
    rewrite H2. repeat split; (done || lia).
Qed.

(** X24: whatever the server answers, [pollStatusAndDownload] sends at
    most 60 status requests, lets 5000 ms pass for each of them, five
    minutes at most in all, and downloads at most one archive. *)
Theorem polling_bounded :
  length (List.filter is_status (fst (pollStatusAndDownload_ apiKey batchId))) <= 60
  /\ waited (fst (pollStatusAndDownload_ apiKey batchId))
     = (5000 * N.of_nat (length (List.filter is_status
                                   (fst (pollStatusAndDownload_ apiKey batchId)))))%N
  /\ (waited (fst (pollStatusAndDownload_ apiKey batchId)) <= 300000)%N
  /\ length (List.filter is_download (fst (pollStatusAndDownload_ apiKey batchId))) <= 1.
Proof.
  unfold pollStatusAndDownload.
  destruct (poll_loop_bounds 60 0) as (H1 & H2 & H3 & _).
  split; [done|]. split; [done|]. split; [|done]. rewrite H2. lia.
Qed.

End Poll.

(** *** The order of the requests *)


End Client.

(** *** Examples *)

Definition done_with (zip : string) : Json :=
  JObj [(lit "data",
         JObj [(lit "extract_result",
                JArr [JObj [(lit "state", JStr (lit "done"));
                            (lit "full_zip_url", JStr (lit zip))]])])].

Definition running : Json :=
  JObj [(lit "data",
         JObj [(lit "extract_result", JArr [JObj [(lit "state", JStr (lit "running"))]])])].

(** A server that is done at the third status request. *)
Definition third_time (i : nat) (url apiKey : jsstring) : Settled Json :=
  if (i <? 2)%nat then Fulfilled running else Fulfilled (done_with "https://cdn/x.zip").

Definition always_running (i : nat) (url apiKey : jsstring) : Settled Json :=
  Fulfilled running.

Definition zip_ok (url : Json) : Settled Download :=
  Fulfilled {| dl_ok := true; dl_arrayBuffer := Fulfilled [] |}.

(** An archive with a resource fork, an empty text and a paper. *)
Definition three_files (buffer : list Byte.byte) : Settled (list ZipFile) :=
  Fulfilled [ {| zip_name := lit "__MACOSX/._full.md"; zip_text := Fulfilled (lit "x") |};
              {| zip_name := lit "images/1.png"; zip_text := Fulfilled (lit "y") |};
              {| zip_name := lit "full.md"; zip_text := Fulfilled (lit "# Paper") |};
              {| zip_name := lit "b.md"; zip_text := Fulfilled (lit "# Other") |} ].

Definition plain_text (v : Json) : jsstring := [].

Example third_poll_downloads :
  pollStatusAndDownload plain_text third_time zip_ok three_files (lit "key") (lit "b1")
  = (polls (status_url (lit "b1")) 3 ++ [GetZip (JStr (lit "https://cdn/x.zip"))],
     Fulfilled (lit "# Paper")).
Proof. by vm_compute. Qed.

Example never_done_times_out :
  pollStatusAndDownload plain_text always_running zip_ok three_files (lit "key") (lit "b1")
  = (polls (status_url (lit "b1")) 60, Rejected s_timed_out).
Proof. by vm_compute. Qed.

Lemma markdown_from_first_file_witness :
  lit "# Paper" <> []
  /\ exists res arrayBuffer before f after,
       zip_ok (JStr (lit "https://cdn/x.zip")) = Fulfilled res /\ dl_ok res = true
       /\ dl_arrayBuffer res = Fulfilled arrayBuffer
       /\ three_files arrayBuffer = Fulfilled (before ++ f :: after)
       /\ Forall (fun g => is_markdown g = false) before
       /\ is_markdown f = true
       /\ zip_text f = Fulfilled (lit "# Paper").
Proof.
  apply (markdown_from_first_file plain_text zip_ok three_files
           (JStr (lit "https://cdn/x.zip")) (lit "# Paper")).
  reflexivity.
Defined.

End MineruFacts.


(* ================================================================== *)
(** ** Report attachments: the cache of titles does not show *)
(* ================================================================== *)

Module AttachFacts.
Import Attach.
Local Open Scope nat_scope.

Lemma newTitle_of_shape paperTitle originalTitle :
  exists before,
    newTitle_of paperTitle originalTitle = before ++ originalTitle
    /\ length before <= 36.
Proof.
  unfold newTitle_of. destruct (truthy paperTitle); [|exists []; split; [done|cbn; lia]].
  cbn zeta. unfold TITLE_PREFIX_LENGTH.
  destruct (Nat.ltb_spec 30 (length paperTitle)) as [Hlong|Hshort].
  - exists (lit "[" ++ (take 30 paperTitle ++ lit "...") ++ lit "] ").
    rewrite <- !app_assoc. split; [done|].
    rewrite !length_app, length_take.
    change (length (lit "[")) with 1. change (length (lit "...")) with 3.
    change (length (lit "] ")) with 2. lia.
  - exists (lit "[" ++ paperTitle ++ lit "] ").
    rewrite <- !app_assoc. split; [done|].
    rewrite !length_app.
    change (length (lit "[")) with 1. change (length (lit "] ")) with 2. lia.
Qed.

Section Report.
Variable att_title : Attachment -> jsstring.
Variable att_parentID : Attachment -> option Z.
Variable getFilePathAsync : Attachment -> Settled jsstring.
Variable Items_getAsync : Z -> Settled (option Item).
Variable linkFromFile : Link -> Settled unit.
Variable reportItem_id : Z.

Abbreviation paperTitle_ := (paperTitle_of att_parentID Items_getAsync).
Abbreviation attach_one_ :=
  (attach_one att_title att_parentID getFilePathAsync Items_getAsync linkFromFile
     reportItem_id).
Abbreviation attach_ :=
  (attachPdfsToReport att_title att_parentID getFilePathAsync Items_getAsync
     linkFromFile reportItem_id).

(** The cache holds what [Zotero.Items.getAsync] would give. *)
Definition cache_ok (cache : gmap Z jsstring) : Prop :=
  forall k title,
    cache !! k = Some title ->
    exists parent,
      Items_getAsync k = Fulfilled (Some parent) /\ title = trim (item_title parent).

Lemma paperTitle_cached cache pdfAtt :
  cache_ok cache ->
  match paperTitle_ cache pdfAtt, paperTitle_ ∅ pdfAtt with
  | Fulfilled (title, cache'), Fulfilled (title0, _) => title = title0 /\ cache_ok cache'
  | Rejected _, Rejected _ => True
  | _, _ => False
  end.
Proof.
  intros Hok. unfold paperTitle_of.
  destruct (att_parentID pdfAtt) as [parentID|]; [|done].
  rewrite lookup_empty.
  destruct (cache !! parentID) as [title|] eqn:Ec.
  - destruct (Hok _ _ Ec) as (parent & -> & ->). done.
  - destruct (Items_getAsync parentID) as [[parent|]|e] eqn:Eg; try done.
    split; [done|]. intros k title Hk.
    destruct (decide (k = parentID)) as [->|Hne].
    + rewrite lookup_insert_eq in Hk. injection Hk as <-. by exists parent.
    + rewrite lookup_insert_ne in Hk by done. by apply Hok.
Qed.

Definition fresh : Loop := {| parentTitleCache := ∅; links := [] |}.

Lemma attach_one_cached st pdfAtt :
  cache_ok (parentTitleCache st) ->
  links (attach_one_ st pdfAtt) = links st ++ links (attach_one_ fresh pdfAtt)
  /\ cache_ok (parentTitleCache (attach_one_ st pdfAtt)).
Proof.
  intros Hok. unfold attach_one.
  destruct (getFilePathAsync pdfAtt) as [filePath|e]; [|by rewrite app_nil_r].
  destruct (truthy filePath); cbn [negb]; [|by rewrite app_nil_r].
  pose proof (paperTitle_cached _ pdfAtt Hok) as H. cbn [parentTitleCache fresh].
  destruct (paperTitle_ (parentTitleCache st) pdfAtt) as [[title cache']|e1],
    (paperTitle_ ∅ pdfAtt) as [[title0 cache0]|e0]; try done.
  - destruct H as [<- Hok']. cbn zeta.
    destruct (linkFromFile _); cbn [links parentTitleCache];
      by rewrite ?app_nil_r.
  - by rewrite app_nil_r.
Qed.

Lemma attach_fold l : forall st,
  cache_ok (parentTitleCache st) ->
  links (fold_left attach_one_ l st) = links st ++ links (fold_left attach_one_ l fresh)
  /\ cache_ok (parentTitleCache (fold_left attach_one_ l st)).
Proof.
  induction l as [|pdfAtt l IH]; intros st Hok.
  { cbn. by rewrite app_nil_r. }
  cbn [fold_left].
  destruct (attach_one_cached st pdfAtt Hok) as [H1 Hok1].
  assert (cache_ok (parentTitleCache fresh)) as Hfresh by (by intros k title Hk).
  destruct (attach_one_cached fresh pdfAtt Hfresh) as [_ Hok0].
  destruct (IH _ Hok1) as [-> Hok2]. destruct (IH _ Hok0) as [-> _].
  rewrite H1. by rewrite <- app_assoc.
Qed.

Lemma attach_one_link st pdfAtt link :
  link ∈ links (attach_one_ st pdfAtt) ->
  link ∈ links st
  \/ (link_parentItemID link = reportItem_id
      /\ link_file link <> []
      /\ getFilePathAsync pdfAtt = Fulfilled (link_file link)
      /\ linkFromFile link = Fulfilled tt
      /\ exists before,
           link_title link = before ++ or_else (att_title pdfAtt) (lit "PDF")
           /\ length before <= 36).
Proof.
  unfold attach_one.
  destruct (getFilePathAsync pdfAtt) as [filePath|e]; [|by left].
  destruct filePath as [|c filePath]; cbn [truthy negb]; [by left|].
  destruct (paperTitle_ _ pdfAtt) as [[title cache']|e1]; [|by left].
  cbn zeta. destruct (linkFromFile _) as [[]|e2] eqn:El; cbn [links]; [|by left].
  intros H. apply elem_of_app in H as [H|H]; [by left|].
  apply list_elem_of_singleton in H as ->. right. cbn.
  split; [done|]. split; [done|]. split; [done|]. split; [done|].
  apply newTitle_of_shape.
Qed.

(** X26: when [Zotero.Items.getAsync] answers alike for the same id, the
    cache of titles and the failures of single attachments do not show in
    what [attachPdfsToReport] makes: the links for a list are those for its
    first part followed by those for the rest.  Every link is
    under the report, for the file of an attachment of the list, and its
    title is the title of that attachment (PDF when it has none) after a
    prefix of at most 36 units. *)
Theorem attach_links (first rest : list Attachment) :
  attach_ (first ++ rest) = attach_ first ++ attach_ rest
  /\ forall link, link ∈ attach_ (first ++ rest) ->
       link_parentItemID link = reportItem_id
       /\ link_file link <> []
       /\ exists pdfAtt,
            pdfAtt ∈ first ++ rest
            /\ getFilePathAsync pdfAtt = Fulfilled (link_file link)
            /\ exists before,
                 link_title link = before ++ or_else (att_title pdfAtt) (lit "PDF")
                 /\ length before <= 36.
Proof.
  unfold attachPdfsToReport. fold fresh. split.
  - rewrite fold_left_app.
    assert (cache_ok (parentTitleCache fresh)) as Hfresh by (by intros k title Hk).
    destruct (attach_fold first fresh Hfresh) as [_ Hok].
    by destruct (attach_fold rest _ Hok) as [-> _].
  - generalize (first ++ rest). intros l. induction l as [|pdfAtt l IH] using rev_ind.
    { intros link H. by apply not_elem_of_nil in H. }
    intros link. rewrite fold_left_app. cbn [fold_left]. intros H.
    apply attach_one_link in H as [H|(H1 & H2 & H3 & _ & H5)].
    + destruct (IH link H) as (I1 & I2 & a & Ha & I3). split; [done|]. split; [done|].
      exists a. split; [|done]. apply elem_of_app. by left.
    + split; [done|]. split; [done|]. exists pdfAtt. split; [|done].
      apply elem_of_app. right. by apply list_elem_of_singleton.
Qed.

End Report.

(** *** Example *)

Definition title_of (att : Attachment) : jsstring :=
  if Z.eqb (att_id att) 11 then lit "Full text" else [].

Definition parent_of (att : Attachment) : option Z := Some (att_id att - 10)%Z.

Definition path_of (att : Attachment) : Settled jsstring :=
  if Z.eqb (att_id att) 12 then Fulfilled [] else Fulfilled (lit "/data/" ++ of_Z (att_id att)).

Definition library (id : Z) : Settled (option Item) :=
  if Z.eqb id 1 then Fulfilled (Some nicoleau2014) else Fulfilled None.

Definition link_ok (link : Link) : Settled unit := Fulfilled tt.

Example links_of_three :
  attachPdfsToReport title_of parent_of path_of library link_ok 100
    [ {| att_id := 11 |}; {| att_id := 12 |}; {| att_id := 13 |} ]
  = [ {| link_file := lit "/data/11"; link_parentItemID := 100;
         link_title := lit "[Accelerated growth of calcium ...] Full text" |};
      {| link_file := lit "/data/13"; link_parentItemID := 100;
         link_title := lit "PDF" |} ].
Proof. by vm_compute. Qed.

End AttachFacts.
